(** * CoPPortal knowledge-base chatbot: a shallow embedding of
      [chatbot.py] and of the article queries of [database.py]

    Python values are embedded as follows.
    - [str] is [string]: a sequence of 8-bit characters.  Case folding and
      white-space classification are those of Python on ASCII text; a
      character above 127 is carried through unchanged.
    - [float] is the kernel's binary64 [float] ([PrimFloat]), whose
      operations round exactly as CPython's do.
    - a [dict] built from a database row is a [gmap string py_value].
    - exceptions are the [Err] results of [res]; calls into the article
      store are recorded in the trace carried by the monad [M]. *)

From Stdlib Require Import ZArith Ascii String List Bool Lia Sorting.Permutation Sorting.Sorted.
From Stdlib Require Import Numbers.DecimalString Floats Uint63.
From stdpp Require Import gmap strings list fin_maps.

Import ListNotations.
Local Open Scope string_scope.
Local Open Scope list_scope.
Local Open Scope nat_scope.

(** ** Python strings *)

Module PyStr.

(** [str.isspace] on one character (ASCII range): TAB, LF, VT, FF, CR,
    FS, GS, RS, US and SPACE. *)
Definition isspace (c : ascii) : bool :=
  let n := N_of_ascii c in
  ((9 <=? n) && (n <=? 13) || (28 <=? n) && (n <=? 32))%N.

Definition lower_char (c : ascii) : ascii :=
  let n := N_of_ascii c in
  if ((65 <=? n) && (n <=? 90))%N then ascii_of_N (n + 32) else c.

(** [s.lower()] *)
Fixpoint lower (s : string) : string :=
  match s with
  | EmptyString => EmptyString
  | String c s' => String (lower_char c) (lower s')
  end.

(** [s.split()]: the maximal runs of non-space characters, in order. *)
Fixpoint split (s : string) : list string :=
  match s with
  | EmptyString => []
  | String c s' =>
      if isspace c then split s'
      else match s' with
           | EmptyString => [String c EmptyString]
           | String c' _ =>
               if isspace c' then String c EmptyString :: split s'
               else match split s' with
                    | w :: ws => String c w :: ws
                    | [] => [String c EmptyString]
                    end
           end
  end.

Fixpoint lstrip (s : string) : string :=
  match s with
  | EmptyString => EmptyString
  | String c s' => if isspace c then lstrip s' else s
  end.

Fixpoint rstrip (s : string) : string :=
  match s with
  | EmptyString => EmptyString
  | String c s' =>
      match rstrip s' with
      | EmptyString => if isspace c then EmptyString else String c EmptyString
      | r => String c r
      end
  end.

(** [s.strip()] *)
Definition strip (s : string) : string := rstrip (lstrip s).

(** [w in t] on strings: [w] occurs in [t] as a contiguous substring. *)
Fixpoint contains (w t : string) : bool :=
  if String.prefix w t then true
  else match t with
       | EmptyString => false
       | String _ t' => contains w t'
       end.

(** [str(n)] for a non-negative [int]. *)
Definition of_nat (n : nat) : string := NilZero.string_of_uint (Nat.to_uint n).

(** The double-quote character. *)
Definition dquote : string := String (ascii_of_nat 34) EmptyString.

End PyStr.

(** ** Intent classification *)

(** [INTENT_MAP], in declaration order (the order a Python [dict]
    iterates in). *)
Definition INTENT_MAP : list (string * list string) :=
  [ ("incident",
      ["incident"; "outage"; "P1"; "P2"; "sev1"; "sev2"; "alert"; "page"; "fire";
       "escalat"; "on-call"; "oncall"; "respond"; "triage"]);
    ("monitoring",
      ["monitor"; "observ"; "metric"; "dashboard"; "grafana"; "dynatrace";
       "prometheus"; "alert"; "SLO"; "SLI"; "SLA"; "error budget"; "APM"; "RUM";
       "synthetic"; "trace"; "log"]);
    ("deployment",
      ["deploy"; "pipeline"; "CI/CD"; "harness"; "canary"; "rollback"; "release";
       "build"; "artifact"; "helm"; "docker"]);
    ("infrastructure",
      ["kubernetes"; "k8s"; "terraform"; "pod"; "container"; "node"; "cluster";
       "AWS"; "cloud"; "IaC"; "infra"; "scaling"; "load balanc"]);
    ("reliability",
      ["chaos"; "fault"; "resilience"; "DR"; "disaster"; "recovery"; "failover";
       "RTO"; "RPO"; "redundan"; "availability"; "SRE"; "toil"]);
    ("postmortem",
      ["postmortem"; "post-mortem"; "RCA"; "root cause"; "blameless"; "retrospect";
       "lessons learned"; "action item"]) ].

Definition GREETINGS : list string :=
  ["hello"; "hi"; "hey"; "good morning"; "good afternoon"; "howdy"; "sup"; "what's up"].

Definition HELP_PATTERNS : list string :=
  ["help"; "what can you do"; "how does this work"; "commands"; "guide me"].

(** The inner loop of [classify_intent]: scan the keywords, stop at the
    first one found in the query ([break]). *)
Fixpoint keyword_hit (query_lower : string) (keywords : list string) : bool :=
  match keywords with
  | [] => false
  | kw :: rest =>
      if PyStr.contains (PyStr.lower kw) query_lower then true
      else keyword_hit query_lower rest
  end.

(** The outer loop, over the entries of an intent map. *)
Fixpoint classify_with (intent_map : list (string * list string))
    (query_lower : string) : list string :=
  match intent_map with
  | [] => []
  | (intent, keywords) :: rest =>
      if keyword_hit query_lower keywords
      then intent :: classify_with rest query_lower
      else classify_with rest query_lower
  end.

Definition classify_intent (query : string) : list string :=
  classify_with INTENT_MAP (PyStr.lower query).

(** ** [difflib.SequenceMatcher(None, a, b).ratio()]

    The matcher of CPython's standard library, which [fuzzy_score] calls
    with no junk predicate and the default [autojunk=True].  Sequences
    are lists of characters, positions are [nat]. *)

Module Difflib.

Definition Match : Type := nat * nat * nat.

Section Matcher.
Variables a b : list ascii.

  (** [__chain_b]: with [n = len(b) >= 200], an element occurring more
      than [n // 100 + 1] times is popular and is dropped from [b2j]. *)
Definition popular (c : ascii) : bool :=
    (200 <=? length b) && (length b / 100 + 1 <? length (filter (eq c) b)).

Fixpoint indices (c : ascii) (j : nat) (l : list ascii) : list nat :=
    match l with
    | [] => []
    | x :: l' => if Ascii.eqb x c then j :: indices c (S j) l' else indices c (S j) l'
    end.

  (** [b2j.get(elt, [])] *)
Definition b2j (c : ascii) : list nat :=
    if popular c then [] else indices c 0 b.

  (** No junk predicate is given, so [bjunk] is empty. *)
Definition isbjunk (c : option ascii) : bool := false.

  (** [j2len.get(j-1, 0)]; at [j = 0] the key is [-1], never present. *)
Definition j2lenget (j2len : gmap nat nat) (j : nat) : nat :=
    match j with
    | O => 0
    | S j' => default 0 (j2len !! j')
    end.

  (** The loop [for j in b2j.get(a[i], nothing)] of [find_longest_match]. *)
Fixpoint scan_row (blo bhi i : nat) (j2len : gmap nat nat) (js : list nat)
      (newj2len : gmap nat nat) (best : Match) : gmap nat nat * Match :=
    match js with
    | [] => (newj2len, best)
    | j :: js' =>
        if j <? blo then scan_row blo bhi i j2len js' newj2len best
        else if bhi <=? j then (newj2len, best)
        else
          let k := j2lenget j2len j + 1 in
          let '(_, _, bestsize) := best in
          scan_row blo bhi i j2len js' (<[j := k]> newj2len)
            (if bestsize <? k then (i + 1 - k, j + 1 - k, k) else best)
    end.

  (** The loop [for i in range(alo, ahi)]. *)
Fixpoint scan (blo bhi : nat) (rows : list nat) (j2len : gmap nat nat)
      (best : Match) : Match :=
    match rows with
    | [] => best
    | i :: rows' =>
        let js := match a !! i with Some c => b2j c | None => [] end in
        let '(newj2len, best') := scan_row blo bhi i j2len js ∅ best in
        scan blo bhi rows' newj2len best'
    end.

Definition same_elt (i j : nat) : bool :=
    match a !! i, b !! j with
    | Some x, Some y => Ascii.eqb x y
    | _, _ => false
    end.

  (** The two [while] loops that extend the best match by non-junk
      elements, and the two that absorb junk on each side.  Each runs at
      most [fuel] times; [find_longest_match] passes the distance to the
      range boundary, which no run can exceed. *)
Fixpoint extend_back (junk : bool) (alo blo fuel : nat) (m : Match) : Match :=
    match fuel with
    | O => m
    | S fuel' =>
        let '(besti, bestj, bestsize) := m in
        if (alo <? besti) && (blo <? bestj)
           && Bool.eqb (isbjunk (b !! (bestj - 1))) junk
           && same_elt (besti - 1) (bestj - 1)
        then extend_back junk alo blo fuel' (besti - 1, bestj - 1, bestsize + 1)
        else m
    end.

Fixpoint extend_forward (junk : bool) (ahi bhi fuel : nat) (m : Match) : Match :=
    match fuel with
    | O => m
    | S fuel' =>
        let '(besti, bestj, bestsize) := m in
        if (besti + bestsize <? ahi) && (bestj + bestsize <? bhi)
           && Bool.eqb (isbjunk (b !! (bestj + bestsize))) junk
           && same_elt (besti + bestsize) (bestj + bestsize)
        then extend_forward junk ahi bhi fuel' (besti, bestj, bestsize + 1)
        else m
    end.

Definition find_longest_match (alo ahi blo bhi : nat) : Match :=
    let m0 := scan blo bhi (seq alo (ahi - alo)) ∅ (alo, blo, 0) in
    let m1 := extend_back false alo blo (ahi - alo) m0 in
    let m2 := extend_forward false ahi bhi (ahi - alo) m1 in
    let m3 := extend_back true alo blo (ahi - alo) m2 in
    extend_forward true ahi bhi (ahi - alo) m3.

  (** The work-list loop of [get_matching_blocks].  The head of [queue]
      is the entry [queue.pop()] returns; blocks are collected in the
      order they are appended. *)
Fixpoint blocks_loop (fuel : nat) (queue : list (nat * nat * nat * nat))
      (blocks : list Match) : list Match :=
    match fuel with
    | O => blocks
    | S fuel' =>
        match queue with
        | [] => blocks
        | (alo, ahi, blo, bhi) :: rest =>
            let '(i, j, k) := find_longest_match alo ahi blo bhi in
            if k =? 0 then blocks_loop fuel' rest blocks
            else
              let q1 := if (alo <? i) && (blo <? j)
                        then (alo, i, blo, j) :: rest else rest in
              let q2 := if (i + k <? ahi) && (j + k <? bhi)
                        then (i + k, ahi, j + k, bhi) :: q1 else q1 in
              blocks_loop fuel' q2 (blocks ++ [(i, j, k)])
        end
    end.

  (** Every pass removes a range or splits it into two strictly smaller
      ones, so [2 * len(a) + 1] passes empty the queue. *)
Definition get_matching_blocks : list Match :=
    blocks_loop (2 * length a + 1) [(0, length a, 0, length b)] [].

  (** [sum(triple[-1] for triple in self.get_matching_blocks())]; the
      sort, the merge of adjacent blocks and the final [(la, lb, 0)]
      sentinel of the library leave this sum unchanged. *)
Definition matches : nat :=
    list_sum (map (fun m : Match => snd m) get_matching_blocks).

End Matcher.

End Difflib.

(** ** Scores *)

Set Warnings "-inexact-float".

(** [float(n)] for a length or a match count: the conversion of a
    non-negative [int] below [2 ^ 63], rounded to nearest even as
    CPython rounds it, and exact below [2 ^ 53]. *)
Definition float_of_nat (n : nat) : float :=
  PrimFloat.of_uint63 (Uint63.of_Z (Z.of_nat n)).

(** [_calculate_ratio(matches, length)] *)
Definition calculate_ratio (matches length : nat) : float :=
  if (length =? 0)%nat then 1.0%float
  else (2.0 * float_of_nat matches / float_of_nat length)%float.

(** [SequenceMatcher(None, a, b).ratio()] *)
Definition ratio (a b : string) : float :=
  let la := list_ascii_of_string a in
  let lb := list_ascii_of_string b in
  calculate_ratio (Difflib.matches la lb) (length la + length lb).

(** The builtin [min(x, y)] on two floats: [y] when [y < x], else [x]. *)
Definition pymin (x y : float) : float := if (y <? x)%float then y else x.

(** The loop [for word in query_lower.split()] of [fuzzy_score]. *)
Fixpoint substring_bonus (words : list string) (text_lower : string)
    (substring_score : float) : float :=
  match words with
  | [] => substring_score
  | word :: rest =>
      substring_bonus rest text_lower
        (if PyStr.contains word text_lower
         then (substring_score + 0.3)%float else substring_score)
  end.

Definition fuzzy_score (query text : string) : float :=
  let query_lower := PyStr.lower query in
  let text_lower := PyStr.lower text in
  let substring_score := substring_bonus (PyStr.split query_lower) text_lower 0%float in
  let seq_score := ratio query_lower text_lower in
  pymin 1.0 (substring_score + seq_score).

(** ** Python values, exceptions and articles *)

Inductive py_value : Type :=
  | PyNone
  | PyStr (s : string)
  | PyInt (z : Z).

Global Instance py_value_eq_dec : EqDecision py_value.
Proof. solve_decision. Defined.

Global Instance py_value_countable : Countable py_value.
Proof.
  refine (inj_countable'
    (fun v => match v with
              | PyNone => inl tt
              | PyStr s => inr (inl s)
              | PyInt z => inr (inr z)
              end)
    (fun x => match x with
              | inl _ => PyNone
              | inr (inl s) => PyStr s
              | inr (inr z) => PyInt z
              end) _).
  intros []; reflexivity.
Defined.

Inductive py_exn : Type := AttributeError | KeyError.

Inductive res (A : Type) : Type :=
  | Ok (a : A)
  | Err (e : py_exn).
Arguments Ok {A} a.
Arguments Err {A} e.

Global Instance res_ret : MRet res := fun A a => Ok a.
Global Instance res_bind : MBind res := fun A B f m =>
  match m with
  | Ok a => f a
  | Err e => Err e
  end.

(** An article is the [dict] made from one row of [kb_articles]. *)
Abbreviation article := (gmap string py_value).

(** [d.get(key, "")] *)
Definition dict_get (d : article) (key : string) : py_value :=
  default (PyStr "") (d !! key).

(** [d[key]] *)
Definition dict_item (d : article) (key : string) : res py_value :=
  match d !! key with
  | Some v => Ok v
  | None => Err KeyError
  end.

(** The call [fuzzy_score(query, v)] on a dictionary value: [v.lower()]
    exists on [str] only. *)
Definition fuzzy_score_value (query : string) (v : py_value) : res float :=
  match v with
  | PyStr text => Ok (fuzzy_score query text)
  | PyNone | PyInt _ => Err AttributeError
  end.

(** ** Ranking *)

(** The loop body of [rank_articles]: the weighted total of one article. *)
Definition total_score (query : string) (a : article) : res float :=
  t ← fuzzy_score_value query (dict_get a "title");
  d ← fuzzy_score_value query (dict_get a "description");
  g ← fuzzy_score_value query (dict_get a "tags");
  c ← fuzzy_score_value query (dict_get a "category");
  let title_score := (t * 2.0)%float in
  let desc_score := (d * 1.5)%float in
  let tag_score := (g * 1.8)%float in
  let cat_score := (c * 1.2)%float in
  mret (title_score + desc_score + tag_score + cat_score)%float.

Fixpoint score_articles (query : string) (articles : list article)
    : res (list (float * article)) :=
  match articles with
  | [] => mret []
  | a :: rest =>
      total ← total_score query a;
      scored ← score_articles query rest;
      mret ((total, a) :: scored)
  end.

(** [scored.sort(key=lambda x: x[0], reverse=True)]: a stable sort into
    descending key order, written as an insertion sort. *)
Fixpoint insert_desc {A : Type} (x : float * A) (l : list (float * A))
    : list (float * A) :=
  match l with
  | [] => [x]
  | y :: l' => if (fst x <? fst y)%float then y :: insert_desc x l' else x :: l
  end.

Fixpoint sort_desc {A : Type} (l : list (float * A)) : list (float * A) :=
  match l with
  | [] => []
  | x :: l' => insert_desc x (sort_desc l')
  end.

Definition admitted {A : Type} (item : float * A) : bool := (0.5 <? fst item)%float.

Definition rank_articles (query : string) (articles : list article)
    : res (list article) :=
  scored ← score_articles query articles;
  mret (map snd (List.filter admitted (sort_desc scored))).

(** ** The article store ([database.py])

    The table [kb_articles] is the list of its rows in row-id order.
    [description], [source_type], [tags] and [created_at] are nullable
    columns.  Reads are taken to succeed: the limits of the SQL engine
    on statement size are outside the model. *)

Record kb_row : Type := {
  row_id : Z;
  row_title : string;
  row_category : string;
  row_description : option string;
  row_url : string;
  row_source_type : option string;
  row_tags : option string;
  row_created_at : option string
}.

Definition py_text (o : option string) : py_value :=
  match o with
  | Some s => PyStr s
  | None => PyNone
  end.

(** [dict(r)] for a [sqlite3.Row] of [kb_articles]. *)
Definition dict_of_row (r : kb_row) : article :=
  <["id" := PyInt (row_id r)]>
  (<["title" := PyStr (row_title r)]>
  (<["category" := PyStr (row_category r)]>
  (<["description" := py_text (row_description r)]>
  (<["url" := PyStr (row_url r)]>
  (<["source_type" := py_text (row_source_type r)]>
  (<["tags" := py_text (row_tags r)]>
  (<["created_at" := py_text (row_created_at r)]> ∅))))))).

Module Sql.

(** [x LIKE p] of SQLite: [%] matches any run of characters, [_] any one
    character, any other character itself up to ASCII case. *)
Fixpoint like (p : string) : string -> bool :=
  match p with
  | EmptyString => fun s => match s with EmptyString => true | String _ _ => false end
  | String c p' =>
      if Ascii.eqb c "%" then
        fix any (s : string) : bool :=
          like p' s || match s with EmptyString => false | String _ s' => any s' end
      else if Ascii.eqb c "_" then
        fun s => match s with EmptyString => false | String _ s' => like p' s' end
      else
        fun s => match s with
                 | EmptyString => false
                 | String d s' =>
                     Ascii.eqb (PyStr.lower_char c) (PyStr.lower_char d) && like p' s'
                 end
  end.

(** [LOWER(col) LIKE ?] with the parameter ["%" + term + "%"]; on a NULL
    column the comparison is NULL, which selects nothing. *)
Definition lower_like (col : option string) (term : string) : bool :=
  match col with
  | Some s => like ("%" +:+ term +:+ "%") (PyStr.lower s)
  | None => false
  end.

(** One parenthesised condition of the WHERE clause. *)
Definition term_condition (r : kb_row) (term : string) : bool :=
  lower_like (Some (row_title r)) term
  || lower_like (row_description r) term
  || lower_like (row_tags r) term
  || lower_like (Some (row_category r)) term.

(** [ORDER BY category, title] under the BINARY collation, rows with
    equal keys staying in row-id order. *)
Definition row_before (r1 r2 : kb_row) : bool :=
  match String.compare (row_category r1) (row_category r2) with
  | Lt => true
  | Gt => false
  | Eq => String.ltb (row_title r1) (row_title r2)
  end.

Fixpoint insert_row (r : kb_row) (l : list kb_row) : list kb_row :=
  match l with
  | [] => [r]
  | y :: l' => if row_before y r then y :: insert_row r l' else r :: l
  end.

Fixpoint order_by_category_title (l : list kb_row) : list kb_row :=
  match l with
  | [] => []
  | r :: l' => insert_row r (order_by_category_title l')
  end.

End Sql.

(** Calls into the article store and into the ranker, in the order made. *)
Inductive call : Type :=
  | CallSearch (query : string)
  | CallGetAll
  | CallRank (query : string).

(** A computation that records its calls and may raise. *)
Definition M (A : Type) : Type := list call * res A.

Global Instance M_ret : MRet M := fun A a => ([], Ok a).
Global Instance M_bind : MBind M := fun A B f m =>
  match m with
  | (t, Ok a) => let '(t', r) := f a in (t ++ t', r)
  | (t, Err e) => (t, Err e)
  end.

Definition tell (c : call) : M unit := ([c], Ok tt).
Definition lift {A : Type} (r : res A) : M A := ([], r).

Definition get_all_kb_articles (db : list kb_row) : M (list article) :=
  _ ← tell CallGetAll;
  mret (map dict_of_row (Sql.order_by_category_title db)).

Definition search_kb_articles (db : list kb_row) (query : string) : M (list article) :=
  _ ← tell (CallSearch query);
  let terms := PyStr.split (PyStr.lower query) in
  match terms with
  | [] => get_all_kb_articles db
  | _ :: _ =>
      mret (map dict_of_row
              (Sql.order_by_category_title
                 (List.filter (fun r => existsb (Sql.term_condition r) terms) db)))
  end.

(** ** Suggestions and the response *)

Definition intent_suggestions : list (string * list string) :=
  [ ("incident", ["postmortem template"; "on-call escalation policy"; "PagerDuty operations guide"]);
    ("monitoring", ["SLO/SLI definitions"; "Grafana dashboards"; "Dynatrace RUM setup"]);
    ("deployment", ["canary deployment strategy"; "rollback procedures"; "Harness pipeline guide"]);
    ("infrastructure", ["Kubernetes troubleshooting"; "Terraform IaC standards"; "AWS reliability pillar"]);
    ("reliability", ["chaos engineering playbook"; "disaster recovery plan"; "error budget policy"]);
    ("postmortem", ["incident response runbook"; "blameless postmortem guide"; "action item tracking"]) ].

Definition general_suggestions : list string :=
  ["incident management"; "observability tools"; "infrastructure automation";
   "reliability testing"].

Fixpoint table_lookup (table : list (string * list string)) (key : string)
    : option (list string) :=
  match table with
  | [] => None
  | (k, v) :: rest => if String.eqb k key then Some v else table_lookup rest key
  end.

(** The loop [for intent in intents] of [_generate_suggestions]. *)
Fixpoint extend_suggestions (intents : list string) (suggestions : list string)
    : list string :=
  match intents with
  | [] => suggestions
  | intent :: rest =>
      match table_lookup intent_suggestions intent with
      | Some l => extend_suggestions rest (suggestions ++ l)
      | None => extend_suggestions rest suggestions
      end
  end.

Definition _generate_suggestions (query : string) (intents : list string)
    (results : list article) : list string :=
  let suggestions := extend_suggestions intents [] in
  let suggestions :=
    match suggestions with
    | [] => general_suggestions
    | _ :: _ => suggestions
    end in
  let query_lower := PyStr.lower query in
  let suggestions :=
    List.filter (fun s => negb (PyStr.contains query_lower (PyStr.lower s))) suggestions in
  firstn 4 suggestions.

Record response : Type := {
  message : string;
  articles : list article;
  suggestions : list string
}.

Definition nl : string := String (ascii_of_nat 10) EmptyString.

Definition empty_message : string :=
  "Please type a question or topic — I'll find the most relevant SRE resources for you.".

Definition empty_response : response :=
  {| message := empty_message;
     articles := [];
     suggestions := ["incident response"; "monitoring setup"; "chaos engineering"] |}.

Definition greeting_response : response :=
  {| message :=
       "👋 Hey there! I'm the SRE Knowledge Base assistant. "
       +:+ "Ask me about any SRE topic and I'll point you to the right Confluence page or external resource."
       +:+ nl +:+ nl
       +:+ "**Try asking about:**";
     articles := [];
     suggestions :=
       ["How do I respond to a P1 incident?";
        "Show me chaos engineering resources";
        "Where's the Dynatrace setup guide?";
        "What are our SLO standards?";
        "Kubernetes troubleshooting help"] |}.

Definition help_response : response :=
  {| message :=
       "🔍 **I can help you find SRE resources!**" +:+ nl +:+ nl
       +:+ "Just describe what you need in plain language. I search across:" +:+ nl
       +:+ "- 📘 Internal Confluence pages" +:+ nl
       +:+ "- 🌐 External SRE resources" +:+ nl
       +:+ "- 🏷️ Tags, categories, and descriptions" +:+ nl +:+ nl
       +:+ "**Example queries:**";
     articles := [];
     suggestions :=
       ["incident runbook";
        "Grafana dashboard setup";
        "disaster recovery plan";
        "terraform standards";
        "on-call rotation policy"] |}.

(** [query.lower() in GREETINGS or any(g in query.lower() for g in GREETINGS)] *)
Definition is_greeting (query : string) : bool :=
  bool_decide (PyStr.lower query ∈ GREETINGS)
  || existsb (fun g => PyStr.contains g (PyStr.lower query)) GREETINGS.

(** [any(h in query.lower() for h in HELP_PATTERNS)] *)
Definition is_help (query : string) : bool :=
  existsb (fun h => PyStr.contains h (PyStr.lower query)) HELP_PATTERNS.

(** The merge loop: keep an article when its id is not in [seen_ids]. *)
Fixpoint merge_loop (l : list article) (seen_ids : gset py_value)
    (merged : list article) : res (list article) :=
  match l with
  | [] => mret merged
  | a :: rest =>
      id ← dict_item a "id";
      if bool_decide (id ∈ seen_ids) then merge_loop rest seen_ids merged
      else merge_loop rest ({[id]} ∪ seen_ids) (merged ++ [a])
  end.

Definition source_label (top_results : list article) : string :=
  let source_types : gset py_value :=
    list_to_set (map (fun a => dict_get a "source_type") top_results) in
  if bool_decide (PyStr "confluence" ∈ source_types)
     && bool_decide (PyStr "external" ∈ source_types)
  then "Confluence pages and external resources"
  else if bool_decide (PyStr "confluence" ∈ source_types)
  then "Confluence pages"
  else "external resources".

Definition found_message (query : string) (top_results : list article) : string :=
  "📚 Found **" +:+ PyStr.of_nat (length top_results) +:+ "** relevant "
  +:+ source_label top_results +:+ " for *" +:+ PyStr.dquote +:+ query
  +:+ PyStr.dquote +:+ "*:".

Definition not_found_message (query : string) : string :=
  "🤔 I couldn't find articles matching *" +:+ PyStr.dquote +:+ query
  +:+ PyStr.dquote +:+ "*. "
  +:+ "Try different keywords or browse the suggestions below.".

Definition chatbot_response (db : list kb_row) (user_input : string) : M response :=
  let query := PyStr.strip user_input in
  if String.eqb query "" then mret empty_response
  else if is_greeting query then mret greeting_response
  else if is_help query then mret help_response
  else
    db_results ← search_kb_articles db query;
    all_articles ← get_all_kb_articles db;
    _ ← tell (CallRank query);
    ranked ← lift (rank_articles query all_articles);
    merged ← lift (merge_loop (db_results ++ ranked) ∅ []);
    let top_results := firstn 5 merged in
    let intents := classify_intent query in
    let message :=
      match top_results with
      | _ :: _ => found_message query top_results
      | [] => not_found_message query
      end in
    let suggestions := _generate_suggestions query intents top_results in
    mret {| message := message; articles := top_results; suggestions := suggestions |}.

(** The rows [seed_kb_articles] inserts into an empty table; [now] is
    the insertion time the DEFAULT of [created_at] supplies. *)
Definition seed_row (id : Z) (title category description url source_type tags now : string)
    : kb_row :=
  {| row_id := id; row_title := title; row_category := category;
     row_description := Some description; row_url := url;
     row_source_type := Some source_type; row_tags := Some tags;
     row_created_at := Some now |}.

Definition seed_kb_articles (now : string) : list kb_row :=
  [ seed_row 1 "Incident Response Runbook" "Incident Management"
      "Step-by-step guide for P1/P2 incident response including escalation paths and communication templates."
      "https://confluence.internal/sre/incident-runbook" "confluence"
      "incident,runbook,P1,P2,escalation,on-call" now;
    seed_row 2 "Chaos Engineering Playbook" "Reliability Testing"
      "Framework for designing and executing chaos experiments using AWS FIS and custom fault injection."
      "https://confluence.internal/sre/chaos-engineering" "confluence"
      "chaos,engineering,fault-injection,FIS,resilience,testing" now;
    seed_row 3 "SLO/SLI Definition Guide" "Observability"
      "How to define, measure, and alert on Service Level Objectives and Indicators across the platform."
      "https://confluence.internal/sre/slo-sli-guide" "confluence"
      "SLO,SLI,SLA,observability,alerting,error-budget" now;
    seed_row 4 "Dynatrace Monitoring Setup" "Observability"
      "Configuration guide for Dynatrace real user monitoring, synthetic monitors, and custom dashboards."
      "https://confluence.internal/sre/dynatrace-setup" "confluence"
      "dynatrace,monitoring,RUM,synthetic,dashboard,APM" now;
    seed_row 5 "Harness CI/CD Pipeline Guide" "Deployment"
      "Best practices for configuring Harness pipelines with canary deployments and automated rollback."
      "https://confluence.internal/sre/harness-pipelines" "confluence"
      "harness,CI/CD,pipeline,canary,deployment,rollback" now;
    seed_row 6 "Kubernetes Troubleshooting" "Infrastructure"
      "Common K8s issues and resolution steps including pod failures, resource limits, and networking."
      "https://confluence.internal/sre/k8s-troubleshooting" "confluence"
      "kubernetes,k8s,pods,troubleshooting,networking,OOM" now;
    seed_row 7 "Disaster Recovery Plan" "Business Continuity"
      "DR procedures including RTO/RPO targets, failover automation, and recovery validation."
      "https://confluence.internal/sre/disaster-recovery" "confluence"
      "DR,disaster,recovery,failover,RTO,RPO,business-continuity" now;
    seed_row 8 "Terraform IaC Standards" "Infrastructure"
      "Infrastructure as Code standards, module conventions, and state management best practices."
      "https://confluence.internal/sre/terraform-standards" "confluence"
      "terraform,IaC,infrastructure,modules,state,automation" now;
    seed_row 9 "Google SRE Book" "External Resources"
      "Google's comprehensive guide to Site Reliability Engineering principles and practices."
      "https://sre.google/sre-book/table-of-contents/" "external"
      "SRE,google,reliability,principles,toil,error-budget" now;
    seed_row 10 "Prometheus Monitoring Guide" "External Resources"
      "Official Prometheus documentation for metrics collection, PromQL, and alerting."
      "https://prometheus.io/docs/introduction/overview/" "external"
      "prometheus,metrics,PromQL,alerting,monitoring,TSDB" now;
    seed_row 11 "PagerDuty Incident Ops Guide" "External Resources"
      "PagerDuty's guide to incident operations including on-call best practices and postmortems."
      "https://response.pagerduty.com/" "external"
      "pagerduty,incident,on-call,postmortem,operations" now;
    seed_row 12 "AWS Well-Architected Reliability" "External Resources"
      "AWS reliability pillar covering fault tolerance, disaster recovery, and scaling strategies."
      "https://docs.aws.amazon.com/wellarchitected/latest/reliability-pillar/" "external"
      "AWS,reliability,well-architected,fault-tolerance,scaling" now;
    seed_row 13 "Grafana Dashboard Best Practices" "Observability"
      "Guidelines for creating effective Grafana dashboards with proper panel organization and alerting."
      "https://confluence.internal/sre/grafana-dashboards" "confluence"
      "grafana,dashboard,visualization,alerting,panels" now;
    seed_row 14 "On-Call Rotation & Escalation Policy" "Incident Management"
      "On-call scheduling, escalation tiers, and handoff procedures for the SRE team."
      "https://confluence.internal/sre/on-call-policy" "confluence"
      "on-call,rotation,escalation,schedule,handoff,PagerDuty" now;
    seed_row 15 "Postmortem Template & Process" "Incident Management"
      "Blameless postmortem template with timeline, root cause analysis, and action item tracking."
      "https://confluence.internal/sre/postmortem-template" "confluence"
      "postmortem,blameless,RCA,root-cause,timeline,action-items" now ].

(** ** Writing to the article store ([database.py]) *)

Module Store.

(** The database file as far as the articles go: the rows of
    [kb_articles] in row-id order, and the counter that
    [sqlite_sequence] keeps for the AUTOINCREMENT key, the largest row
    id given out so far.  Arguments bound to the TEXT columns range over
    [str] and [None]. *)
Record kb_table : Type := {
  kb_rows : list kb_row;
  kb_seq : Z
}.

(** [sqlite3.IntegrityError]: a NOT NULL or a CHECK constraint failed. *)
Inductive sql_exn : Type := IntegrityError.

Inductive outcome (A : Type) : Type :=
  | Done (a : A)
  | Raised (e : sql_exn).
Arguments Done {A} a.
Arguments Raised {A} e.

(** [init_db]: CREATE TABLE IF NOT EXISTS makes an empty table in a file
    that has none ([None]) and leaves an existing table alone. *)
Definition init_db (file : option kb_table) : kb_table :=
  match file with
  | Some t => t
  | None => {| kb_rows := []; kb_seq := 0 |}
  end.

(** The key AUTOINCREMENT gives the next row: one more than the largest
    id in the table and than the largest id given out before. *)
Definition max_rowid (rows : list kb_row) : Z :=
  fold_right (fun r m => Z.max (row_id r) m) 0%Z rows.

Definition next_rowid (t : kb_table) : Z :=
  (Z.max (max_rowid (kb_rows t)) (kb_seq t) + 1)%Z.

(** CHECK(source_type IN ('confluence', 'external')): a NULL passes. *)
Definition source_type_ok (v : option string) : bool :=
  match v with
  | None => true
  | Some s => String.eqb s "confluence" || String.eqb s "external"
  end.

(** The parameters of one INSERT, in the order of the statement:
    title, category, description, url, source_type, tags. *)
Definition article_params : Type :=
  option string * option string * option string * option string
  * option string * option string.

(** INSERT INTO kb_articles (title, category, description, url,
    source_type, tags) VALUES (?, ?, ?, ?, ?, ?): [None] when a
    constraint fails, else the table with the new row and its id. *)
Definition insert_article (now : string) (p : article_params) (t : kb_table)
    : option (kb_table * Z) :=
  let '(title, category, description, url, source_type, tags) := p in
  match title, category, url with
  | Some title, Some category, Some url =>
      if source_type_ok source_type then
        let id := next_rowid t in
        Some ({| kb_rows :=
                   kb_rows t
                   ++ [ {| row_id := id; row_title := title; row_category := category;
                           row_description := description; row_url := url;
                           row_source_type := source_type; row_tags := tags;
                           row_created_at := Some now |} ];
                 kb_seq := id |}, id)
      else None
  | _, _, _ => None
  end.

(** [add_kb_article(title, category, description, url, source_type,
    tags)]; a caller that leaves out [source_type] or [tags] passes
    ["confluence"] and the empty string. *)
Definition add_kb_article (now : string)
    (title category description url source_type tags : option string) (t : kb_table)
    : kb_table * outcome Z :=
  match insert_article now (title, category, description, url, source_type, tags) t with
  | Some (t', article_id) => (t', Done article_id)
  | None => (t, Raised IntegrityError)
  end.

(** [delete_kb_article(article_id)] *)
Definition delete_kb_article (article_id : Z) (t : kb_table) : kb_table :=
  {| kb_rows := List.filter (fun r => negb (row_id r =? article_id)%Z) (kb_rows t);
     kb_seq := kb_seq t |}.

(** [update_kb_article(article_id, **kwargs)] *)
Definition allowed : list string :=
  ["title"; "category"; "description"; "url"; "source_type"; "tags"].

(** The value [SET key = ?] leaves in a column: the one given for [key],
    else the old one. *)
Definition set_column (fields : gmap string (option string)) (key : string)
    (old : option string) : option string :=
  match fields !! key with
  | Some v => v
  | None => old
  end.

(** The row after the UPDATE, [None] when it breaks a constraint. *)
Definition update_row (fields : gmap string (option string)) (r : kb_row)
    : option kb_row :=
  match set_column fields "title" (Some (row_title r)),
        set_column fields "category" (Some (row_category r)),
        set_column fields "url" (Some (row_url r)) with
  | Some title, Some category, Some url =>
      let source_type := set_column fields "source_type" (row_source_type r) in
      if source_type_ok source_type then
        Some {| row_id := row_id r; row_title := title; row_category := category;
                row_description := set_column fields "description" (row_description r);
                row_url := url; row_source_type := source_type;
                row_tags := set_column fields "tags" (row_tags r);
                row_created_at := row_created_at r |}
      else None
  | _, _, _ => None
  end.

(** UPDATE kb_articles SET ... WHERE id = ?, over the rows in order. *)
Fixpoint update_rows (fields : gmap string (option string)) (article_id : Z)
    (rows : list kb_row) : option (list kb_row) :=
  match rows with
  | [] => Some []
  | r :: rest =>
      r' ← (if (row_id r =? article_id)%Z then update_row fields r else Some r);
      rest' ← update_rows fields article_id rest;
      Some (r' :: rest')
  end.

Definition update_kb_article (article_id : Z) (kwargs : gmap string (option string))
    (t : kb_table) : kb_table * outcome unit :=
  let fields := filter (fun kv => kv.1 ∈ allowed) kwargs in
  if decide (fields = ∅) then (t, Done tt)
  else
    match update_rows fields article_id (kb_rows t) with
    | Some rows => ({| kb_rows := rows; kb_seq := kb_seq t |}, Done tt)
    | None => (t, Raised IntegrityError)
    end.

(** The tuples of [articles] in [seed_kb_articles]. *)
Definition params_of_row (r : kb_row) : article_params :=
  (Some (row_title r), Some (row_category r), row_description r, Some (row_url r),
   row_source_type r, row_tags r).

Definition seed_params : list article_params :=
  map params_of_row (seed_kb_articles "").

(** [cursor.executemany] of the INSERT: one row after the other, the
    whole undone when one fails. *)
Fixpoint executemany (now : string) (params : list article_params) (t : kb_table)
    : option kb_table :=
  match params with
  | [] => Some t
  | p :: rest =>
      match insert_article now p t with
      | Some (t', _) => executemany now rest t'
      | None => None
      end
  end.

(** [seed_kb_articles()]: nothing is done to a table that has a row. *)
Definition seed_kb_articles (now : string) (t : kb_table) : kb_table * outcome unit :=
  let count := length (kb_rows t) in
  if 0 <? count then (t, Done tt)
  else
    match executemany now seed_params t with
    | Some t' => (t', Done tt)
    | None => (t, Raised IntegrityError)
    end.

End Store.

(** * Specification

    The notions the statements of the properties are written with, and
    the invariants their proofs carry. *)

(** ** Binary64 numbers *)

Module Binary64.
Local Open Scope Z_scope.

(** The class of a rounded non-negative mantissa: never NaN, and of the
    sign asked for. *)
Definition has_sign (s : bool) (x : spec_float) : Prop :=
  match x with
  | S754_nan => False
  | S754_zero s' | S754_infinity s' | S754_finite s' _ _ => s' = s
  end.

(** Not NaN and not negative: [+0], a positive number or [+infinity]. *)
Definition nonneg (x : float) : Prop := has_sign false (Prim2SF x).

(** [x] is the normal binary64 number of value [n] (a positive integer
    below [2 ^ 53], or twice one). *)
Definition represents (x : spec_float) (n : Z) : Prop :=
  exists M e, x = S754_finite false M e /\ Zpos (digits2_pos M) = 53
              /\ -53 <= e <= 1 /\ Zpos M * 2 = n * 2 ^ (1 - e).

(** The numbers [1.0] and [2.0]. *)
Definition SF_one : spec_float := S754_finite false 4503599627370496 (-52).

Definition SF_two : spec_float := S754_finite false 4503599627370496 (-51).

(** The position of a non-negative float in the order: its class, then
    its exponent, then its mantissa. *)
Definition rank (x : spec_float) : Z * Z * Z :=
  match x with
  | S754_zero _ => (0, 0, 0)
  | S754_finite _ m e => (1, e, Zpos m)
  | S754_infinity _ => (2, 0, 0)
  | S754_nan => (3, 0, 0)
  end.

Definition lex_lt (a b : Z * Z * Z) : Prop :=
  let '(a1, a2, a3) := a in
  let '(b1, b2, b3) := b in
  a1 < b1 \/ (a1 = b1 /\ (a2 < b2 \/ (a2 = b2 /\ a3 < b3))).

(** A bit has been shifted out of [r]. *)
Definition inexact (r : shr_record) : bool := shr_r r || shr_s r.

Definition b2z (b : bool) : Z := if b then 1 else 0.

(** The invariant of rounding below a power of two: the value stands
    at most [2 ^ (- e)] units of weight [2 ^ e], strictly less when a
    bit has been lost. *)
Definition below_one (r : shr_record) (e : Z) : Prop :=
  0 <= shr_m r /\ shr_m r + b2z (inexact r) <= 2 ^ (- e).

End Binary64.

(** ** Invariants of the sequence matcher *)

Module DifflibInv.
Import Difflib.

(** A match lies within the window it was searched in. *)
Definition within (alo ahi blo bhi : nat) (m : Match) : Prop :=
  let '(i, j, k) := m in alo <= i /\ i + k <= ahi /\ blo <= j /\ j + k <= bhi.

(** The run lengths recorded for the row above row [i]. *)
Definition row_bounded (alo blo i : nat) (j2len : gmap nat nat) : Prop :=
  forall j k, j2len !! j = Some k -> k + alo <= i /\ k + blo <= j + 1.

(** The sizes of the blocks, summed; a window, the room it leaves for a
    match, and what the loop spends on it at most. *)
Definition size_sum (blocks : list Match) : nat :=
  list_sum (map (fun m : Match => snd m) blocks).

Definition window_ok (w : nat * nat * nat * nat) : Prop :=
  let '(alo, ahi, blo, bhi) := w in alo <= ahi /\ blo <= bhi.

Definition room (w : nat * nat * nat * nat) : nat :=
  let '(alo, ahi, blo, bhi) := w in Nat.min (ahi - alo) (bhi - blo).

Definition cost (w : nat * nat * nat * nat) : nat :=
  let '(alo, ahi, blo, bhi) := w in 2 * (ahi - alo) + 1.

(** The windows pushed after a match at [(i, j, k)] in [w]. *)
Definition pushed (w : nat * nat * nat * nat) (m : Match)
    (rest : list (nat * nat * nat * nat)) : list (nat * nat * nat * nat) :=
  let '(alo, ahi, blo, bhi) := w in
  let '(i, j, k) := m in
  let q1 := if (alo <? i) && (blo <? j) then (alo, i, blo, j) :: rest else rest in
  if (i + k <? ahi) && (j + k <? bhi) then (i + k, ahi, j + k, bhi) :: q1 else q1.

Section Same.
Variable a : list ascii.

  (** [run i] is the length of the run of unpopular elements ending at
      position [i]; [run_before i] is that of the position before. *)
Fixpoint run (i : nat) : nat :=
    let before := match i with O => 0 | S i' => run i' end in
    match a !! i with
    | Some c => if popular a c then 0 else S before
    | None => 0
    end.

Definition run_before (i : nat) : nat :=
    match i with O => 0 | S i' => run i' end.

  (** What the row above row [i] records, and what the best match is,
      while the rows of [a] are scanned against [a] itself. *)
Definition row_runs (i : nat) (j2len : gmap nat nat) : Prop :=
    (forall j k, j2len !! j = Some k -> k <= run j /\ k <= run_before i)
    /\ j2lenget j2len i = run_before i.

Definition diagonal (best : Match) : Prop :=
    let '(bi, bj, bk) := best in bi = bj /\ bi + bk <= length a.

Definition covers (i : nat) (best : Match) : Prop :=
    forall j, j < i -> run j <= snd best.

End Same.

End DifflibInv.

(** ** Scores *)

(** Lengths below [2 ^ 53] are the integers [float] holds exactly. *)
Definition small (n : nat) : Prop := (Z.of_nat n < 2 ^ 53)%Z.

(** Two strings are completely dissimilar when no character occurs in
    both and they are not both empty. *)
Definition dissimilar (x y : string) : Prop :=
  (forall c, In c (list_ascii_of_string x) -> In c (list_ascii_of_string y) -> False)
  /\ 0 < String.length x + String.length y.

(** The number of tokens of the lower-cased query found in the
    lower-cased text, and the bonus they add up to: [0.3] added once
    per token, starting from zero. *)
Definition hits (query text : string) : nat :=
  length (List.filter (fun w => PyStr.contains w (PyStr.lower text))
            (PyStr.split (PyStr.lower query))).

Definition bonus (n : nat) : float := Nat.iter n (fun s => (s + 0.3)%float) 0%float.

(** ** Ranking *)

Section Keys.
Context {A : Type}.

  (** The key of [x] is a non-negative number. *)
Definition key_nonneg (x : float * A) : Prop := Binary64.nonneg (fst x).

  (** [x] may stand before [y] in descending order. *)
Definition not_below (x y : float * A) : Prop := (fst x <? fst y)%float = false.

  (** [x] has a key equal to [k]. *)
Definition tied (k : float) (x : float * A) : bool :=
    negb (fst x <? k)%float && negb (k <? fst x)%float.

End Keys.

(** The fields [rank_articles] scores. *)
Definition text_fields : list string := ["title"; "description"; "tags"; "category"].

(** Every scored field of [a] is absent or a string, of a length a
    [float] holds exactly. *)
Definition scorable (query : string) (a : article) : Prop :=
  forall key, In key text_fields ->
    exists s, dict_get a key = PyStr s /\ small (String.length query + String.length s).

(** The scored fields of [a] are strings (or absent). *)
Definition typed (a : article) : Prop :=
  forall key, In key text_fields -> exists s, dict_get a key = PyStr s.

(** The score of one field: zero when it is missing or empty. *)
Definition field_score (query : string) (a : article) (key : string) : float :=
  match a !! key with
  | Some (PyStr s) => if String.eqb s "" then 0%float else fuzzy_score query s
  | _ => 0%float
  end.

(** The weighted total of an article, in the order the code adds. *)
Definition weighted_total (query : string) (a : article) : float :=
  (field_score query a "title" * 2.0 + field_score query a "description" * 1.5
   + field_score query a "tags" * 1.8 + field_score query a "category" * 1.2)%float.

(** The entry [rank_articles] appends to [scored] for [a]. *)
Definition score_pair (query : string) (a : article) : float * article :=
  (weighted_total query a, a).

(** ** Merging *)

(** The articles of [l] in order, each id at its first occurrence only. *)
Fixpoint first_by_id (l : list article) : list article :=
  match l with
  | [] => []
  | a :: rest =>
      a :: List.filter (fun x => negb (bool_decide (x !! "id" = a !! "id")))
             (first_by_id rest)
  end.

(** [a] has an [id]. *)
Definition has_id (a : article) : Prop := is_Some (a !! "id").

(** [x] has an id, and one not in [seen]. *)
Definition unseen (seen : gset py_value) (x : article) : bool :=
  match x !! "id" with
  | Some v => negb (bool_decide (v ∈ seen))
  | None => false
  end.

(** The id of [x] is that of an article of [l]. *)
Definition id_in (l : list article) (x : article) : bool :=
  bool_decide (x !! "id" ∈ map (fun a : article => a !! "id") l).

(** ** The store and the response *)

(** What [get_all_kb_articles] and [search_kb_articles] return. *)
Definition all_articles (db : list kb_row) : list article :=
  map dict_of_row (Sql.order_by_category_title db).

Definition keyword_results (db : list kb_row) (query : string) : list article :=
  match PyStr.split (PyStr.lower query) with
  | [] => all_articles db
  | terms =>
      map dict_of_row
        (Sql.order_by_category_title
           (List.filter (fun r => existsb (Sql.term_condition r) terms) db))
  end.

(** No row has a NULL [description] or [tags]. *)
Definition no_null (db : list kb_row) : Prop :=
  Forall (fun r => is_Some (row_description r) /\ is_Some (row_tags r)) db.

(** Row ids are unique: [id] is the primary key of [kb_articles]. *)
Definition unique_ids (db : list kb_row) : Prop := NoDup (map row_id db).

(** The query is answered by the general branch. *)
Definition general (query : string) : Prop :=
  query <> "" /\ is_greeting query = false /\ is_help query = false.

(** The response of the general branch for the merged list [top]. *)
Definition general_response (query : string) (top : list article) : response :=
  {| message := match top with
                | _ :: _ => found_message query top
                | [] => not_found_message query
                end;
     articles := top;
     suggestions := _generate_suggestions query (classify_intent query) top |}.

(** The suggestion [s] does not contain the query, case-insensitively. *)
Definition avoids (query s : string) : Prop :=
  PyStr.contains (PyStr.lower query) (PyStr.lower s) = false.

(** The value [v] is the [source_type] of one of the articles. *)
Definition present (v : string) (l : list article) : Prop :=
  In (PyStr v) (map (fun a => dict_get a "source_type") l).

(** ** Example stores *)

(** The store after [seed_kb_articles], and its first three articles. *)
Definition seed_db : list kb_row := seed_kb_articles "2024-01-01 00:00:00".

Definition three_articles : list article :=
  map dict_of_row (firstn 3 seed_db).

(** A store whose only row has a NULL description, as
    [add_kb_article("Runbook", "Other", None, "http://wiki/runbook",
    "confluence", "ops")] leaves it. *)
Definition null_description_db : list kb_row :=
  [ {| row_id := 1; row_title := "Runbook"; row_category := "Other";
       row_description := None; row_url := "http://wiki/runbook";
       row_source_type := Some "confluence"; row_tags := Some "ops";
       row_created_at := Some "2024-01-01 00:00:00" |} ].

(** A store of one article, found by the keyword [x] in its category,
    and a query that resembles none of its fields. *)
Definition one_article_db : list kb_row :=
  [ {| row_id := 1; row_title := "Guide"; row_category := "x";
       row_description := Some ""; row_url := "http://wiki/guide";
       row_source_type := Some "confluence"; row_tags := Some "";
       row_created_at := Some "2024-01-01 00:00:00" |} ].

(** ** Vocabulary of the further properties *)

(** A canonical binary64 mantissa and exponent. *)
Definition canonical (m : positive) (e : Z) : Prop :=
  Z.max (Zpos (digits2_pos m) + e - 53) (-1074)%Z = e.

(** Some token of the lower-cased query occurs in the lower-cased text. *)
Definition token_hit (query text : string) : Prop :=
  exists w, In w (PyStr.split (PyStr.lower query))
            /\ PyStr.contains w (PyStr.lower text) = true.

(** The field [key] of [a] is a string in which a token of the query
    occurs. *)
Definition field_hit (query : string) (a : article) (key : string) : Prop :=
  exists s, a !! key = Some (PyStr s) /\ token_hit query s.

(** Every character of [s] is white space. *)
Definition blank (s : string) : Prop :=
  Forall (fun c => PyStr.isspace c = true) (list_ascii_of_string s).

(** [general], as a test. *)
Definition generalb (query : string) : bool :=
  negb (String.eqb query "") && negb (is_greeting query) && negb (is_help query).

(** A value that [fuzzy_score] cannot lower-case. *)
Definition not_text (v : py_value) : Prop :=
  match v with
  | PyStr _ => False
  | PyNone | PyInt _ => True
  end.

(** [a] holds, under one of the scored keys, a value that is no string. *)
Definition unscorable (a : article) : Prop :=
  exists key v, In key text_fields /\ a !! key = Some v /\ not_text v.

(** A row with a NULL description or NULL tags. *)
Definition has_null (r : kb_row) : Prop :=
  row_description r = None \/ row_tags r = None.

(** [r1] does not come after [r2] in the order of [ORDER BY category,
    title]. *)
Definition row_le (r1 r2 : kb_row) : Prop := Sql.row_before r2 r1 = false.

(** No character of [s] is a wildcard of LIKE. *)
Definition wildcard_free (s : string) : Prop :=
  Forall (fun c => c <> "%"%char /\ c <> "_"%char) (list_ascii_of_string s).

(** Every character of [s] is the wildcard [%]. *)
Definition all_percent (s : string) : Prop :=
  Forall (fun c => c = "%"%char) (list_ascii_of_string s).

(** The texts the keyword search looks into: the title, the description
    and the tags that are not NULL, and the category. *)
Definition row_texts (r : kb_row) : list string :=
  row_title r :: option_list (row_description r) ++ option_list (row_tags r)
  ++ [row_category r].

(** A token of the lower-cased query occurs in one of the texts of [r],
    lower-cased. *)
Definition row_matches (query : string) (r : kb_row) : Prop :=
  exists w s, In w (PyStr.split (PyStr.lower query)) /\ In s (row_texts r)
              /\ PyStr.contains w (PyStr.lower s) = true.

(** The invariant of the table: row ids grow along the rows, none is
    above the AUTOINCREMENT counter, and all are positive. *)
Definition well_keyed (t : Store.kb_table) : Prop :=
  StronglySorted Z.lt (map row_id (Store.kb_rows t))
  /\ Forall (fun r => (0 < row_id r <= Store.kb_seq t)%Z) (Store.kb_rows t)
  /\ (0 <= Store.kb_seq t)%Z.

(** The parameters of an INSERT that breaks no constraint. *)
Definition valid_params (p : Store.article_params) : Prop :=
  let '(title, category, description, url, source_type, tags) := p in
  is_Some title /\ is_Some category /\ is_Some url
  /\ Store.source_type_ok source_type = true.

(** The row an INSERT makes. *)
Definition new_row (now : string) (id : Z) (title category : string)
    (description : option string) (url : string) (source_type tags : option string)
    : kb_row :=
  {| row_id := id; row_title := title; row_category := category;
     row_description := description; row_url := url;
     row_source_type := source_type; row_tags := tags;
     row_created_at := Some now |}.

(** The writes [database.py] offers on the articles. *)
Inductive store_op : Type :=
  | OpAdd (now : string) (title category description url source_type tags : option string)
  | OpDelete (article_id : Z)
  | OpUpdate (article_id : Z) (kwargs : gmap string (option string))
  | OpSeed (now : string).

(** The table an operation leaves, whether it returns or raises. *)
Definition apply_op (t : Store.kb_table) (op : store_op) : Store.kb_table :=
  match op with
  | OpAdd now title category description url source_type tags =>
      fst (Store.add_kb_article now title category description url source_type tags t)
  | OpDelete article_id => Store.delete_kb_article article_id t
  | OpUpdate article_id kwargs => fst (Store.update_kb_article article_id kwargs t)
  | OpSeed now => fst (Store.seed_kb_articles now t)
  end.

Definition run_ops (ops : list store_op) (t : Store.kb_table) : Store.kb_table :=
  fold_left apply_op ops t.

(** An operation that writes no NULL description and no NULL tags. *)
Definition keeps_text (op : store_op) : Prop :=
  match op with
  | OpAdd _ _ _ description _ _ tags => is_Some description /\ is_Some tags
  | OpUpdate _ kwargs =>
      kwargs !! "description" <> Some None /\ kwargs !! "tags" <> Some None
  | OpDelete _ | OpSeed _ => True
  end.

(** A store of two articles, one of them without description. *)
Definition two_article_table : Store.kb_table :=
  {| Store.kb_rows :=
       [ new_row "2024-01-01 00:00:00" 1 "Runbook" "Other" None "http://wiki/runbook"
           (Some "confluence") (Some "ops");
         new_row "2024-01-02 00:00:00" 4 "Grafana 100% guide" "Observability"
           (Some "Dashboards") "http://wiki/grafana" (Some "external") (Some "") ];
     Store.kb_seq := 6 |}.

(** An article without description and source type, and the store after
    it is added, once and, the first deleted, once more. *)
Definition loki_params : Store.article_params :=
  (Some "Loki", Some "Observability", None, Some "http://wiki/loki", None, Some "logs").

Definition loki_table : Store.kb_table :=
  {| Store.kb_rows :=
       Store.kb_rows two_article_table
       ++ [new_row "n1" 7 "Loki" "Observability" None "http://wiki/loki" None (Some "logs")];
     Store.kb_seq := 7 |}.

Definition loki_table' : Store.kb_table :=
  {| Store.kb_rows :=
       Store.kb_rows two_article_table
       ++ [new_row "n2" 8 "Loki" "Observability" None "http://wiki/loki" None (Some "logs")];
     Store.kb_seq := 8 |}.

(** The sample articles, one more, a deletion, and an update with a key
    that is no column to set. *)
Definition sample_ops : list store_op :=
  [ OpSeed "2024-01-01 00:00:00";
    OpAdd "2024-01-02 00:00:00" (Some "Loki") (Some "Observability") (Some "Logs")
      (Some "http://wiki/loki") (Some "external") (Some "logs");
    OpDelete 3;
    OpUpdate 16 {[ "description" := Some "Log queries"; "id" := Some "1" ]} ].

(** * Properties *)

(** ** Binary64 arithmetic

    What the scores need of IEEE 754 double precision, from the
    specification of the kernel's floats. *)

Module Binary64Facts.
Import Binary64.
Local Open Scope Z_scope.

(** *** Digits and shifts *)

Lemma digits2_pos_bounds (p : positive) :
  2 ^ (Zpos (digits2_pos p) - 1) <= Zpos p < 2 ^ Zpos (digits2_pos p).
Proof.
  induction p as [p IH|p IH|]; simpl digits2_pos.
  - rewrite Pos2Z.inj_succ.
    replace (Z.succ (Zpos (digits2_pos p)) - 1) with (Z.succ (Zpos (digits2_pos p) - 1)) by lia.
    rewrite !Z.pow_succ_r by lia. lia.
  - rewrite Pos2Z.inj_succ.
    replace (Z.succ (Zpos (digits2_pos p)) - 1) with (Z.succ (Zpos (digits2_pos p) - 1)) by lia.
    rewrite !Z.pow_succ_r by lia. lia.
  - simpl. lia.
Qed.

Lemma digits2_pos_unique (p : positive) (d : Z) :
  2 ^ (d - 1) <= Zpos p < 2 ^ d -> Zpos (digits2_pos p) = d.
Proof.
  intros [Hlo Hhi]. pose proof (digits2_pos_bounds p) as [Hlo' Hhi'].
  assert (0 < d). { destruct (Z.ltb_spec 0 d); [assumption|].
    assert (2 ^ d <= 2 ^ 0) by (destruct (Z.ltb_spec d 0); [rewrite Z.pow_neg_r by lia; simpl; lia | apply Z.pow_le_mono_r; lia]). simpl in *. lia. }
  destruct (Z.lt_trichotomy (Zpos (digits2_pos p)) d) as [Hlt|[Heq|Hgt]]; [|assumption|].
  - assert (2 ^ Zpos (digits2_pos p) <= 2 ^ (d - 1)) by (apply Z.pow_le_mono_r; lia). lia.
  - assert (2 ^ d <= 2 ^ (Zpos (digits2_pos p) - 1)) by (apply Z.pow_le_mono_r; lia). lia.
Qed.

Lemma digits2_le (p : positive) (k : Z) :
  0 <= k -> Zpos p <= 2 ^ k -> Zpos (digits2_pos p) <= k + 1.
Proof.
  intros Hk Hp. pose proof (digits2_pos_bounds p) as [Hlo _].
  destruct (Z.le_gt_cases (Zpos (digits2_pos p)) (k + 1)) as [|Hgt]; [assumption|].
  assert (2 ^ (k + 1) <= 2 ^ (Zpos (digits2_pos p) - 1)) by (apply Z.pow_le_mono_r; lia).
  rewrite Z.pow_add_r in H by lia. change (2 ^ 1) with 2 in H.
  pose proof (Z.pow_pos_nonneg 2 k). lia.
Qed.

Lemma iter_pos_nat {A : Type} (f : A -> A) (p : positive) (x : A) :
  SpecFloat.iter_pos f p x = Nat.iter (Pos.to_nat p) f x.
Proof.
  revert x; induction p as [p IH|p IH|]; intros x; simpl SpecFloat.iter_pos.
  - rewrite !IH, Pos2Nat.inj_xI, <- Nat.iter_succ_r, <- Nat.iter_add.
    f_equal. lia.
  - rewrite !IH, Pos2Nat.inj_xO. rewrite <- Nat.iter_add. f_equal. lia.
  - reflexivity.
Qed.

Lemma round_nearest_even_bounds (r : shr_record) :
  shr_m r <= round_nearest_even (shr_m r) (loc_of_shr_record r)
          <= shr_m r + b2z (inexact r).
Proof.
  destruct r as [m [] []]; unfold inexact; simpl; try lia.
  destruct (Z.even m); lia.
Qed.

(** One right shift halves the mantissa and remembers a lost bit. *)
Lemma shr_1_spec (r : shr_record) :
  0 <= shr_m r ->
  0 <= shr_m (shr_1 r)
  /\ shr_m r = 2 * shr_m (shr_1 r) + b2z (shr_r (shr_1 r))
  /\ shr_s (shr_1 r) = inexact r.
Proof.
  destruct r as [m r s]; unfold inexact; simpl. intros Hm.
  destruct m as [|[p|p|]|p]; simpl; try lia; repeat split; lia.
Qed.

Lemma iter_shr_nonneg (n : nat) (r : shr_record) :
  0 <= shr_m r -> 0 <= shr_m (Nat.iter n shr_1 r).
Proof.
  induction n as [|n IH]; [auto|]. intros H. rewrite Nat.iter_succ.
  now apply shr_1_spec, IH.
Qed.

Lemma shr_1_below_one (r : shr_record) (e : Z) :
  e + 1 <= 0 -> below_one r e -> below_one (shr_1 r) (e + 1).
Proof.
  intros He [Hm Hb]. destruct (shr_1_spec r Hm) as (Hm' & Hhalf & Hs).
  split; [assumption|].
  replace (- e) with (Z.succ (- (e + 1))) in Hb by lia.
  rewrite Z.pow_succ_r in Hb by lia.
  unfold inexact at 1. rewrite Hs.
  destruct (shr_r (shr_1 r)), (inexact r); unfold b2z, orb in *; lia.
Qed.

Lemma iter_shr_below_one (n : nat) (r : shr_record) (e : Z) :
  e + Z.of_nat n <= 0 -> below_one r e ->
  below_one (Nat.iter n shr_1 r) (e + Z.of_nat n).
Proof.
  induction n as [|n IH]; intros He Hb.
  - simpl. now rewrite Z.add_0_r.
  - rewrite Nat2Z.inj_succ in *. rewrite Nat.iter_succ.
    replace (e + Z.succ (Z.of_nat n)) with (e + Z.of_nat n + 1) by lia.
    apply shr_1_below_one; [lia|]. apply IH; [lia|assumption].
Qed.

Lemma iter_shr_exact (k : nat) (m : positive) :
  Nat.iter k shr_1 (Build_shr_record (Zpos m * 2 ^ Z.of_nat k) false false)
  = Build_shr_record (Zpos m) false false.
Proof.
  revert m; induction k as [|k IH]; intros m.
  - change (2 ^ Z.of_nat 0) with 1. now rewrite Z.mul_1_r.
  - rewrite Nat2Z.inj_succ, Z.pow_succ_r by lia. rewrite Nat.iter_succ.
    replace (Zpos m * (2 * 2 ^ Z.of_nat k)) with (Zpos (m~0) * 2 ^ Z.of_nat k) by lia.
    now rewrite IH.
Qed.

Lemma fexp_eq (e : Z) : fexp prec emax e = Z.max (e - 53) (-1074).
Proof. reflexivity. Qed.

Lemma shr_nonneg (r : shr_record) (e n : Z) :
  0 <= shr_m r -> 0 <= shr_m (fst (shr r e n)).
Proof.
  intros H. destruct n; simpl; auto. rewrite iter_pos_nat. now apply iter_shr_nonneg.
Qed.

Lemma shr_below_one (r : shr_record) (e n : Z) :
  e <= 0 -> e + n <= 0 -> below_one r e ->
  below_one (fst (shr r e n)) (snd (shr r e n))
  /\ snd (shr r e n) = Z.max e (e + n).
Proof.
  intros He Hen Hb. destruct n as [|p|p]; simpl.
  - split; [assumption|lia].
  - rewrite iter_pos_nat. split; [|lia].
    rewrite <- (positive_nat_Z p). apply iter_shr_below_one; [|assumption].
    rewrite positive_nat_Z. lia.
  - split; [assumption|lia].
Qed.

(** *** Rounding *)

Lemma shr_record_of_loc_m (m : Z) (l : location) : shr_m (shr_record_of_loc m l) = m.
Proof. destruct l as [|[]]; reflexivity. Qed.

Lemma round_aux_sign (s : bool) (m e : Z) (l : location) :
  0 <= m -> has_sign s (binary_round_aux prec emax s m e l).
Proof.
  intros Hm. unfold binary_round_aux, shr_fexp.
  destruct (shr (shr_record_of_loc m l) e _) as [r1 e1] eqn:E1.
  assert (H1 : 0 <= shr_m r1).
  { change r1 with (fst (r1, e1)). rewrite <- E1. apply shr_nonneg.
    now rewrite shr_record_of_loc_m. }
  pose proof (round_nearest_even_bounds r1) as [Hlo _].
  set (m1 := round_nearest_even (shr_m r1) (loc_of_shr_record r1)) in *.
  destruct (shr (shr_record_of_loc m1 loc_Exact) e1 _) as [r2 e2] eqn:E2.
  assert (H2 : 0 <= shr_m r2).
  { change r2 with (fst (r2, e2)). rewrite <- E2. apply shr_nonneg. simpl. lia. }
  destruct (shr_m r2); simpl; [reflexivity| |lia].
  destruct (e2 <=? _); reflexivity.
Qed.

Lemma Zdigits2_le (m k : Z) : 0 <= m -> 0 <= k -> m <= 2 ^ k -> Zdigits2 m <= k + 1.
Proof.
  intros Hm Hk Hb. destruct m as [|p|p]; simpl; [lia| |lia]. now apply digits2_le.
Qed.

Lemma shr_fexp_below_one (m e : Z) (l : location) :
  0 <= m -> e <= -52 ->
  m + b2z (inexact (shr_record_of_loc m l)) <= 2 ^ (- e) ->
  below_one (fst (shr_fexp prec emax m e l)) (snd (shr_fexp prec emax m e l))
  /\ snd (shr_fexp prec emax m e l) <= -52.
Proof.
  intros Hm He Hb. unfold shr_fexp. rewrite fexp_eq.
  assert (Hd : Zdigits2 m <= - e + 1).
  { apply Zdigits2_le; [assumption|lia|].
    destruct (inexact _); unfold b2z in Hb; lia. }
  destruct (shr_below_one (shr_record_of_loc m l) e
              (Z.max (Zdigits2 m + e - 53) (-1074) - e)) as [HJ Hsnd];
    [lia|lia| |].
  - split; [now rewrite shr_record_of_loc_m|]. now rewrite shr_record_of_loc_m.
  - split; [assumption|]. rewrite Hsnd. lia.
Qed.

Lemma Prim2SF_one : Prim2SF 1 = SF_one.
Proof. vm_compute. reflexivity. Qed.

Lemma finite_leb (p q : positive) (e e' : Z) :
  e <= e' -> (e = e' -> Zpos p <= Zpos q) ->
  SFleb (S754_finite false p e) (S754_finite false q e') = true.
Proof.
  intros He Hp. unfold SFleb, SFcompare.
  destruct (Z.compare_spec e e') as [Heq|Hlt|Hgt]; [|reflexivity|lia].
  fold (Pos.compare p q).
  destruct (Pos.compare_spec p q); [reflexivity|reflexivity|]. specialize (Hp Heq). lia.
Qed.

(** Rounding a value that is at most one gives at most one. *)
Lemma round_aux_le_one (m e : Z) (l : location) :
  0 <= m -> e <= -52 ->
  m + b2z (inexact (shr_record_of_loc m l)) <= 2 ^ (- e) ->
  SFleb (binary_round_aux prec emax false m e l) SF_one = true.
Proof.
  intros Hm He Hb. unfold binary_round_aux.
  destruct (shr_fexp_below_one m e l Hm He Hb) as [[H1 H1b] He1].
  destruct (shr_fexp prec emax m e l) as [r1 e1]. simpl fst in *; simpl snd in *.
  pose proof (round_nearest_even_bounds r1) as [Hlo Hhi].
  set (m1 := round_nearest_even (shr_m r1) (loc_of_shr_record r1)) in *.
  destruct (shr_fexp_below_one m1 e1 loc_Exact) as [[H2 H2b] He2];
    [lia|assumption|simpl; unfold b2z; simpl; lia|].
  destruct (shr_fexp prec emax m1 e1 loc_Exact) as [r2 e2]. simpl fst in *; simpl snd in *.
  destruct (shr_m r2) as [|p|p] eqn:Ep; [reflexivity| |lia].
  assert (Hp : Zpos p <= 2 ^ (- e2)) by (destruct (inexact r2); unfold b2z in H2b; lia).
  replace (e2 <=? emax - prec) with true by (symmetry; apply Z.leb_le; change (emax - prec) with 971; lia).
  apply finite_leb; [lia|]. intros ->. exact Hp.
Qed.

Lemma pos_mul_pow2 (M : positive) (k : Z) :
  0 <= k -> exists P, Zpos M * 2 ^ k = Zpos P.
Proof.
  intros Hk. pose proof (Z.pow_pos_nonneg 2 k).
  destruct (Zpos M * 2 ^ k) as [|P|P] eqn:E; [lia|eauto|lia].
Qed.

Lemma shr_iter (r : shr_record) (e : Z) (k : nat) :
  shr r e (Z.of_nat (S k)) = (Nat.iter (S k) shr_1 r, e + Z.of_nat (S k)).
Proof.
  unfold shr. change (Z.of_nat (S k)) with (Zpos (Pos.of_succ_nat k)).
  cbv beta iota. now rewrite iter_pos_nat, SuccNat2Pos.id_succ.
Qed.

(** A 53-bit mantissa scaled by a power of two rounds to itself. *)
Lemma round_aux_exact (s : bool) (M : positive) (k : nat) (E : Z) :
  Zpos (digits2_pos M) = 53 -> -1074 <= E + Z.of_nat k <= 971 ->
  binary_round_aux prec emax s (Zpos M * 2 ^ Z.of_nat k) E loc_Exact
  = S754_finite s M (E + Z.of_nat k).
Proof.
  intros Hd HE. unfold binary_round_aux, shr_fexp. rewrite !fexp_eq.
  destruct (pos_mul_pow2 M (Z.of_nat k)) as [P HP]; [lia|].
  assert (HdP : Zdigits2 (Zpos M * 2 ^ Z.of_nat k) = 53 + Z.of_nat k).
  { rewrite HP. change (Zdigits2 (Zpos P)) with (Zpos (digits2_pos P)).
    apply digits2_pos_unique. rewrite <- HP.
    pose proof (digits2_pos_bounds M) as [Hlo Hhi]. rewrite Hd in Hlo, Hhi.
    replace (53 + Z.of_nat k - 1) with (52 + Z.of_nat k) by lia.
    rewrite !Z.pow_add_r by lia. change (53 - 1) with 52 in Hlo.
    pose proof (Z.pow_pos_nonneg 2 (Z.of_nat k)). nia. }
  rewrite HdP.
  replace (Z.max (53 + Z.of_nat k + E - 53) (-1074) - E) with (Z.of_nat k) by lia.
  assert (Hshr : shr (shr_record_of_loc (Zpos M * 2 ^ Z.of_nat k) loc_Exact) E (Z.of_nat k)
                 = (Build_shr_record (Zpos M) false false, E + Z.of_nat k)).
  { destruct k as [|k'].
    - simpl. rewrite Z.add_0_r. f_equal. f_equal. lia.
    - rewrite shr_iter. unfold shr_record_of_loc. now rewrite iter_shr_exact. }
  rewrite Hshr. cbv beta iota zeta.
  change (loc_of_shr_record {| shr_m := Zpos M; shr_r := false; shr_s := false |})
    with loc_Exact.
  change (shr_m {| shr_m := Zpos M; shr_r := false; shr_s := false |}) with (Zpos M).
  change (round_nearest_even (Zpos M) loc_Exact) with (Zpos M).
  rewrite fexp_eq. change (Zdigits2 (Zpos M)) with (Zpos (digits2_pos M)). rewrite Hd.
  replace (Z.max (53 + (E + Z.of_nat k) - 53) (-1074) - (E + Z.of_nat k)) with 0 by lia.
  unfold shr, shr_record_of_loc. cbv beta iota zeta.
  change (shr_m {| shr_m := Zpos M; shr_r := false; shr_s := false |}) with (Zpos M).
  cbv beta iota.
  replace (E + Z.of_nat k <=? emax - prec) with true; [reflexivity|].
  symmetry; apply Z.leb_le. change (emax - prec) with 971. lia.
Qed.

(** *** Integers as floats *)

Lemma pos_iter_xO (p sh : positive) : Zpos (Pos.iter xO p sh) = Zpos p * 2 ^ Zpos sh.
Proof.
  induction sh as [|sh IH] using Pos.peano_ind.
  - simpl. lia.
  - rewrite Pos.iter_succ, Pos2Z.inj_xO, IH, Pos2Z.inj_succ, Z.pow_succ_r by lia. lia.
Qed.

Lemma binary_normalize_represents (p : positive) :
  Zpos p < 2 ^ 53 ->
  exists M e, binary_normalize prec emax (Zpos p) 0 false = S754_finite false M e
              /\ Zpos (digits2_pos M) = 53 /\ -52 <= e <= 0
              /\ Zpos M = Zpos p * 2 ^ (- e).
Proof.
  intros Hp. unfold binary_normalize, binary_round. rewrite fexp_eq.
  pose proof (digits2_pos_bounds p) as [Hlo Hhi].
  assert (Hd : 1 <= Zpos (digits2_pos p) <= 53).
  { split; [lia|].
    destruct (Z.le_gt_cases (Zpos (digits2_pos p)) 53) as [|Hgt]; [assumption|].
    assert (2 ^ 53 <= 2 ^ (Zpos (digits2_pos p) - 1)) by (apply Z.pow_le_mono_r; lia). lia. }
  replace (Z.max (Zpos (digits2_pos p) + 0 - 53) (-1074)) with (Zpos (digits2_pos p) - 53) by lia.
  unfold shl_align.
  destruct (Zpos (digits2_pos p) - 53 - 0) as [|sh|sh] eqn:Esh; [|lia|].
  - exists p, 0. split; [|split; [lia|split; [lia|change (Z.of_nat 0) with 0; lia]]].
    replace (Zpos p) with (Zpos p * 2 ^ Z.of_nat 0) at 1 by (change (2 ^ Z.of_nat 0) with 1; lia).
    rewrite round_aux_exact; [reflexivity|lia|change (Z.of_nat 0) with 0; lia].
  - exists (Pos.iter xO p sh), (Zpos (digits2_pos p) - 53).
    assert (HM : Zpos (Pos.iter xO p sh) = Zpos p * 2 ^ (53 - Zpos (digits2_pos p))).
    { rewrite pos_iter_xO. f_equal. f_equal. lia. }
    assert (HdM : Zpos (digits2_pos (Pos.iter xO p sh)) = 53).
    { apply digits2_pos_unique. rewrite HM.
      set (d := Zpos (digits2_pos p)) in *.
      pose proof (Z.pow_pos_nonneg 2 (53 - d)) as Hpos.
      assert (E52 : 2 ^ (53 - 1) = 2 ^ (d - 1) * 2 ^ (53 - d))
        by (rewrite <- Z.pow_add_r by lia; f_equal; lia).
      assert (E53 : 2 ^ 53 = 2 ^ d * 2 ^ (53 - d))
        by (rewrite <- Z.pow_add_r by lia; f_equal; lia).
      split.
      - rewrite E52. apply Z.mul_le_mono_nonneg_r; lia.
      - rewrite E53. apply Z.mul_lt_mono_pos_r; lia. }
    split; [|split; [assumption|split; [lia|]]].
    + replace (Zpos (Pos.iter xO p sh)) with (Zpos (Pos.iter xO p sh) * 2 ^ Z.of_nat 0) at 1
        by (change (2 ^ Z.of_nat 0) with 1; lia).
      rewrite round_aux_exact; [f_equal; change (Z.of_nat 0) with 0; lia|assumption|change (Z.of_nat 0) with 0; lia].
    + rewrite HM. f_equal. f_equal. lia.
Qed.

Lemma of_Z_to_Z (z : Z) : 0 <= z < 2 ^ 63 -> Uint63.to_Z (Uint63.of_Z z) = z.
Proof.
  intros Hz. rewrite Uint63.of_Z_spec. apply Z.mod_small. exact Hz.
Qed.

Lemma of_uint63_represents (z : Z) :
  0 < z < 2 ^ 53 ->
  represents (Prim2SF (of_uint63 (Uint63.of_Z z))) z.
Proof.
  intros Hz. rewrite of_uint63_spec, of_Z_to_Z by lia.
  destruct z as [|p|p]; [lia| |lia].
  destruct (binary_normalize_represents p) as (M & e & HM & Hd & He & Hv); [lia|].
  exists M, e. split; [assumption|split; [assumption|split; [lia|]]].
  rewrite Hv. replace (1 - e) with (1 + - e) by lia.
  rewrite Z.pow_add_r by lia. lia.
Qed.

Lemma Prim2SF_two : Prim2SF 2 = SF_two.
Proof. vm_compute. reflexivity. Qed.

(** Doubling is exact. *)
Lemma double_represents (x : float) (n : Z) :
  represents (Prim2SF x) n -> 2 * n < 2 ^ 54 ->
  represents (Prim2SF (2 * x)%float) (2 * n).
Proof.
  intros (M & e & Hx & Hd & He & Hv) Hn.
  pose proof (digits2_pos_bounds M) as [Hlo Hhi]. rewrite Hd in Hlo, Hhi.
  assert (He1 : e + 1 <= 1).
  { destruct (Z.le_gt_cases e 0) as [|Hgt]; [lia|]. replace e with 1 in * by lia.
    change (2 ^ (1 - 1)) with 1 in Hv. change (2 ^ (53 - 1)) with 4503599627370496 in Hlo.
    change (2 ^ 54) with 18014398509481984 in Hn. lia. }
  exists M, (e + 1). rewrite FloatAxioms.mul_spec, Hx, Prim2SF_two. unfold SF64mul, SF_two, SFmul.
  split; [|split; [assumption|split; [lia|]]].
  - change (xorb false false) with false.
    replace (Zpos (4503599627370496 * M)) with (Zpos M * 2 ^ Z.of_nat 52)
      by (change (2 ^ Z.of_nat 52) with 4503599627370496; lia).
    rewrite round_aux_exact; [f_equal; change (Z.of_nat 0) with 0; lia|assumption|change (Z.of_nat 0) with 0; lia].
  - replace (1 - e) with (Z.succ (1 - (e + 1))) in Hv by lia.
    rewrite Z.pow_succ_r in Hv by lia. lia.
Qed.

(** *** Division *)

Lemma new_location_zero (n : Z) : new_location n 0 = loc_Exact.
Proof. unfold new_location. destruct (Z.even n); reflexivity. Qed.

Lemma div_eucl_pos (a b : Z) :
  0 <= a -> 0 < b ->
  exists q r, Z.div_eucl a b = (q, r) /\ a = b * q + r /\ 0 <= r < b /\ 0 <= q.
Proof.
  intros Ha Hb. pose proof (Z_div_mod a b ltac:(lia)) as H.
  destruct (Z.div_eucl a b) as [q r]. destruct H as [H1 H2].
  exists q, r. repeat split; try lia. nia.
Qed.

Lemma SFdiv_finite (M1 M2 : positive) (e1 e2 : Z) :
  Zpos (digits2_pos M1) = 53 -> Zpos (digits2_pos M2) = 53 ->
  -1000 <= e1 - e2 <= 1000 ->
  exists q r,
    SFdiv prec emax (S754_finite false M1 e1) (S754_finite false M2 e2)
    = binary_round_aux prec emax false q (e1 - e2 - 53) (new_location (Zpos M2) r)
    /\ Zpos M1 * 2 ^ 53 = Zpos M2 * q + r /\ 0 <= r < Zpos M2 /\ 0 <= q.
Proof.
  intros Hd1 Hd2 He. unfold SFdiv, SFdiv_core_binary.
  change (Zdigits2 (Zpos M1)) with (Zpos (digits2_pos M1)).
  change (Zdigits2 (Zpos M2)) with (Zpos (digits2_pos M2)).
  rewrite Hd1, Hd2, fexp_eq.
  replace (Z.min (Z.max (53 + e1 - (53 + e2) - 53) (-1074)) (e1 - e2)) with (e1 - e2 - 53) by lia.
  replace (e1 - e2 - (e1 - e2 - 53)) with 53 by lia.
  cbv beta iota zeta. rewrite Z.shiftl_mul_pow2 by lia.
  destruct (div_eucl_pos (Zpos M1 * 2 ^ 53) (Zpos M2)) as (q & r & Hqr & Heq & Hr & Hq); [lia|lia|].
  rewrite Hqr. exists q, r. change (xorb false false) with false. auto.
Qed.

(** A quotient of two normal numbers, the divisor the larger, is in
    [[0, 1]]. *)
Lemma SFdiv_le_one (M1 M2 : positive) (e1 e2 : Z) :
  Zpos (digits2_pos M1) = 53 -> Zpos (digits2_pos M2) = 53 ->
  -1000 <= e1 - e2 <= 0 -> Zpos M1 <= Zpos M2 * 2 ^ (e2 - e1) ->
  SFleb (SFdiv prec emax (S754_finite false M1 e1) (S754_finite false M2 e2)) SF_one = true
  /\ has_sign false (SFdiv prec emax (S754_finite false M1 e1) (S754_finite false M2 e2)).
Proof.
  intros Hd1 Hd2 He Hle.
  destruct (SFdiv_finite M1 M2 e1 e2) as (q & r & -> & Heq & Hr & Hq); [assumption|assumption|lia|].
  split; [|now apply round_aux_sign].
  apply round_aux_le_one; [assumption|lia|].
  replace (- (e1 - e2 - 53)) with (53 + (e2 - e1)) by lia.
  rewrite Z.pow_add_r by lia.
  set (T := 2 ^ 53 * 2 ^ (e2 - e1)).
  assert (Hb : Zpos M2 * q + r <= Zpos M2 * T).
  { rewrite <- Heq. unfold T. rewrite Z.mul_assoc, (Z.mul_comm (Zpos M2) (2 ^ 53)), <- Z.mul_assoc.
    rewrite (Z.mul_comm (Zpos M1)). apply Z.mul_le_mono_nonneg_l; [|assumption].
    apply Z.pow_nonneg. lia. }
  destruct (Z.eq_dec r 0) as [->|Hr0].
  - rewrite new_location_zero.
    change (inexact (shr_record_of_loc q loc_Exact)) with false. unfold b2z. nia.
  - assert (q + 1 <= T) by nia.
    destruct (inexact _); unfold b2z; lia.
Qed.

(** A normal number divided by itself is one. *)
Lemma SFdiv_self (M : positive) (e : Z) :
  Zpos (digits2_pos M) = 53 ->
  SFdiv prec emax (S754_finite false M e) (S754_finite false M e) = SF_one.
Proof.
  intros Hd.
  destruct (SFdiv_finite M M e e) as (q & r & -> & Heq & Hr & Hq); [assumption|assumption|lia|].
  assert (q = 2 ^ 53 /\ r = 0) as [-> ->].
  { generalize dependent (2 ^ 53). intros P HP.
    assert (Hr' : r = Zpos M * (P - q)) by lia.
    assert (P = q); [|subst; lia].
    destruct (Z.lt_trichotomy P q) as [Hlt|[Heq'|Hgt]]; [|assumption|].
    - assert (Zpos M * (P - q) <= Zpos M * (-1)) by (apply Z.mul_le_mono_nonneg_l; lia). lia.
    - assert (Zpos M * 1 <= Zpos M * (P - q)) by (apply Z.mul_le_mono_nonneg_l; lia). lia. }
  rewrite new_location_zero. replace (e - e - 53) with (-53) by lia.
  vm_compute. reflexivity.
Qed.

Lemma represents_le (x y : spec_float) (a b : Z) :
  represents x a -> represents y b -> 0 < a <= b ->
  exists M1 e1 M2 e2,
    x = S754_finite false M1 e1 /\ y = S754_finite false M2 e2
    /\ Zpos (digits2_pos M1) = 53 /\ Zpos (digits2_pos M2) = 53
    /\ -54 <= e1 - e2 <= 0 /\ Zpos M1 <= Zpos M2 * 2 ^ (e2 - e1).
Proof.
  intros (M1 & e1 & -> & Hd1 & He1 & Hv1) (M2 & e2 & -> & Hd2 & He2 & Hv2) Hab.
  assert (Hee : e1 <= e2).
  { pose proof (digits2_pos_bounds M1) as [Hlo1 Hhi1]. rewrite Hd1 in Hlo1, Hhi1.
    pose proof (digits2_pos_bounds M2) as [Hlo2 Hhi2]. rewrite Hd2 in Hlo2, Hhi2.
    change (2 ^ (53 - 1)) with 4503599627370496 in *.
    change (2 ^ 53) with 9007199254740992 in *.
    destruct (Z.le_gt_cases e1 e2) as [|Hgt]; [lia|exfalso].
    assert (E : 2 ^ (1 - e2) = 2 ^ (1 - e1) * 2 ^ (e1 - e2))
      by (rewrite <- Z.pow_add_r by lia; f_equal; lia).
    assert (2 <= 2 ^ (e1 - e2)). { change 2 with (2 ^ 1) at 1. apply Z.pow_le_mono_r; lia. }
    pose proof (Z.pow_pos_nonneg 2 (1 - e1)). rewrite E in Hv2. nia. }
  exists M1, e1, M2, e2. repeat split; try assumption; try lia.
  assert (E : 2 ^ (1 - e1) = 2 ^ (1 - e2) * 2 ^ (e2 - e1))
    by (rewrite <- Z.pow_add_r by lia; f_equal; lia).
  pose proof (Z.pow_pos_nonneg 2 (1 - e2)). pose proof (Z.pow_pos_nonneg 2 (e2 - e1)).
  rewrite E in Hv1.
  assert (a * (2 ^ (1 - e2) * 2 ^ (e2 - e1)) <= b * 2 ^ (1 - e2) * 2 ^ (e2 - e1)).
  { rewrite Z.mul_assoc. apply Z.mul_le_mono_nonneg_r; [lia|].
    apply Z.mul_le_mono_nonneg_r; lia. }
  rewrite <- Hv2 in H1. lia.
Qed.

(** The quotient of the floats of two positive integers, the divisor
    the larger. *)
Lemma div_represents_le_one (x y : float) (a b : Z) :
  represents (Prim2SF x) a -> represents (Prim2SF y) b -> 0 < a <= b ->
  (x / y <=? 1)%float = true /\ (0 <=? x / y)%float = true.
Proof.
  intros Hx Hy Hab.
  destruct (represents_le _ _ _ _ Hx Hy Hab)
    as (M1 & e1 & M2 & e2 & Ex & Ey & Hd1 & Hd2 & He & Hle).
  rewrite !FloatAxioms.leb_spec, FloatAxioms.div_spec, Ex, Ey, Prim2SF_one.
  destruct (SFdiv_le_one M1 M2 e1 e2) as [H1 H2]; [assumption|assumption|lia|assumption|].
  split; [exact H1|].
  unfold SF64div. destruct (SFdiv prec emax _ _) as [s|s| |s m e];
    simpl in H2; try contradiction; subst; reflexivity.
Qed.

Lemma div_represents_same (x y : float) (a : Z) :
  represents (Prim2SF x) a -> represents (Prim2SF y) a -> 0 < a ->
  (x / y)%float = 1%float.
Proof.
  intros Hx Hy Ha.
  destruct (represents_le _ _ _ _ Hx Hy ltac:(lia))
    as (M1 & e1 & M2 & e2 & Ex & Ey & Hd1 & Hd2 & He & Hle).
  destruct (represents_le _ _ _ _ Hy Hx ltac:(lia))
    as (M2' & e2' & M1' & e1' & Ey' & Ex' & _ & _ & He' & Hle').
  rewrite Ex in Ex'. rewrite Ey in Ey'. inversion Ex'; inversion Ey'; subst M1' e1' M2' e2'.
  assert (e1 = e2) by lia. subst e2.
  rewrite Z.sub_diag in Hle, Hle'. change (2 ^ 0) with 1 in *.
  assert (M1 = M2) by lia. subst M2.
  apply Prim2SF_inj. rewrite FloatAxioms.div_spec, Ex, Ey, Prim2SF_one.
  now apply SFdiv_self.
Qed.

Lemma div_zero_represents (y : float) (b : Z) :
  represents (Prim2SF y) b -> (0 / y)%float = 0%float.
Proof.
  intros (M & e & Ey & _). apply Prim2SF_inj.
  rewrite FloatAxioms.div_spec, Ey. reflexivity.
Qed.

(** *** Non-negative floats and their order *)

Lemma div_represents_nonneg (x y : float) (a b : Z) :
  represents (Prim2SF x) a -> represents (Prim2SF y) b -> 0 < a <= b ->
  nonneg (x / y).
Proof.
  intros Hx Hy Hab.
  destruct (represents_le _ _ _ _ Hx Hy Hab)
    as (M1 & e1 & M2 & e2 & Ex & Ey & Hd1 & Hd2 & He & Hle).
  unfold nonneg. rewrite FloatAxioms.div_spec, Ex, Ey.
  apply SFdiv_le_one; [assumption|assumption|lia|assumption].
Qed.

Lemma binary_normalize_sign (p : positive) (e : Z) :
  has_sign false (binary_normalize prec emax (Zpos p) e false).
Proof.
  unfold binary_normalize, binary_round.
  destruct (shl_align p e _) as [mz ez]. apply round_aux_sign. lia.
Qed.

Lemma add_nonneg (x y : float) : nonneg x -> nonneg y -> nonneg (x + y).
Proof.
  unfold nonneg. rewrite FloatAxioms.add_spec. unfold SF64add, SFadd.
  destruct (Prim2SF x) as [sx|sx| |sx mx ex], (Prim2SF y) as [sy|sy| |sy my ey];
    simpl; intros Hx Hy; subst; try contradiction; try reflexivity.
  apply (binary_normalize_sign (_ + _)).
Qed.

Lemma mul_nonneg (x c : float) (mc : positive) (ec : Z) :
  Prim2SF c = S754_finite false mc ec -> nonneg x -> nonneg (x * c).
Proof.
  unfold nonneg. rewrite FloatAxioms.mul_spec. intros -> Hx. unfold SF64mul, SFmul.
  destruct (Prim2SF x) as [sx|sx| |sx mx ex]; simpl in Hx; subst; try contradiction;
    try reflexivity.
  apply round_aux_sign. lia.
Qed.

Lemma SFltb_rank (x y : spec_float) :
  has_sign false x -> has_sign false y ->
  (SFltb x y = true <-> lex_lt (rank x) (rank y)).
Proof.
  unfold SFltb, SFcompare.
  destruct x as [sx|sx| |sx mx ex], y as [sy|sy| |sy my ey]; simpl;
    intros Hx Hy; subst; try contradiction; try (split; [discriminate|lia]);
    try (split; [lia|reflexivity]).
  fold (Pos.compare mx my).
  destruct (Z.compare_spec ex ey), (Pos.compare_spec mx my); subst;
    split; try discriminate; try reflexivity; try lia.
Qed.

Lemma ltb_rank (x y : float) :
  nonneg x -> nonneg y ->
  ((x <? y)%float = true <-> lex_lt (rank (Prim2SF x)) (rank (Prim2SF y))).
Proof. intros Hx Hy. rewrite FloatAxioms.ltb_spec. now apply SFltb_rank. Qed.

Lemma lex_lt_trans (a b c : Z * Z * Z) : lex_lt a b -> lex_lt b c -> lex_lt a c.
Proof. destruct a as [[? ?] ?], b as [[? ?] ?], c as [[? ?] ?]. unfold lex_lt. lia. Qed.

Lemma lex_lt_total (a b c : Z * Z * Z) : lex_lt a c -> lex_lt a b \/ lex_lt b c.
Proof. destruct a as [[? ?] ?], b as [[? ?] ?], c as [[? ?] ?]. unfold lex_lt. lia. Qed.

Lemma lex_lt_irrefl (a : Z * Z * Z) : ~ lex_lt a a.
Proof. destruct a as [[? ?] ?]. unfold lex_lt. lia. Qed.

(** [not (x < z)] follows from [not (x < y)] and [not (y < z)]. *)
Lemma geb_trans (x y z : float) :
  nonneg x -> nonneg y -> nonneg z ->
  (x <? y)%float = false -> (y <? z)%float = false -> (x <? z)%float = false.
Proof.
  intros Hx Hy Hz Hxy Hyz. destruct (x <? z)%float eqn:Hxz; [|reflexivity].
  apply ltb_rank in Hxz; [|assumption..].
  destruct (lex_lt_total _ (rank (Prim2SF y)) _ Hxz) as [H|H];
    apply ltb_rank in H; congruence || assumption.
Qed.

Lemma ltb_asym (x y : float) :
  nonneg x -> nonneg y -> (x <? y)%float = true -> (y <? x)%float = false.
Proof.
  intros Hx Hy Hxy. destruct (y <? x)%float eqn:Hyx; [|reflexivity].
  apply ltb_rank in Hxy, Hyx; try assumption.
  destruct (lex_lt_irrefl _ (lex_lt_trans _ _ _ Hxy Hyx)).
Qed.

Lemma ltb_leb (x y : float) : (x <? y)%float = true -> (x <=? y)%float = true.
Proof.
  rewrite FloatAxioms.ltb_spec, FloatAxioms.leb_spec. unfold SFltb, SFleb.
  destruct (SFcompare _ _) as [[]|]; congruence.
Qed.

Lemma SFleb_rank (x y : spec_float) :
  has_sign false x -> has_sign false y ->
  (SFleb x y = true <-> ~ lex_lt (rank y) (rank x)).
Proof.
  unfold SFleb, SFcompare.
  destruct x as [sx|sx| |sx mx ex], y as [sy|sy| |sy my ey]; simpl;
    intros Hx Hy; subst; try contradiction; try (split; [lia|reflexivity]);
    try (split; [discriminate|lia]).
  fold (Pos.compare mx my).
  destruct (Z.compare_spec ex ey), (Pos.compare_spec mx my); subst;
    split; try discriminate; try reflexivity; try lia.
Qed.

Lemma not_ltb_leb (x y : float) :
  nonneg x -> nonneg y -> (x <? y)%float = false -> (y <=? x)%float = true.
Proof.
  intros Hx Hy Hlt. rewrite FloatAxioms.leb_spec. apply SFleb_rank; [assumption..|].
  intros H. apply ltb_rank in H; [congruence|assumption..].
Qed.

Lemma leb_not_ltb (x y : float) :
  nonneg x -> nonneg y -> (y <=? x)%float = true -> (x <? y)%float = false.
Proof.
  intros Hx Hy Hle. rewrite FloatAxioms.leb_spec in Hle.
  apply SFleb_rank in Hle; [|assumption..].
  destruct (x <? y)%float eqn:E; [|reflexivity].
  apply ltb_rank in E; [contradiction|assumption..].
Qed.

Lemma leb_refl_nonneg (x : float) : nonneg x -> (x <=? x)%float = true.
Proof.
  intros Hx. rewrite FloatAxioms.leb_spec. apply SFleb_rank; [assumption..|].
  apply lex_lt_irrefl.
Qed.

End Binary64Facts.

(** ** Strings *)

Section StringFacts.

Lemma prefix_iff (w t : string) :
  String.prefix w t = true <-> exists r, t = w +:+ r.
Proof.
  revert t; induction w as [|c w IH]; intros t.
  - destruct t; simpl; split; eauto.
  - destruct t as [|d t]; simpl.
    + split; [discriminate | intros [r Hr]; discriminate].
    + destruct (ascii_dec c d) as [->|Hne].
      * rewrite IH. split; intros [r Hr]; exists r; [now rewrite Hr | now inversion Hr].
      * split; [discriminate | intros [r Hr]; inversion Hr; congruence].
Qed.

Lemma contains_nil (w : string) : PyStr.contains w "" = String.prefix w "".
Proof. destruct w; reflexivity. Qed.

Lemma contains_cons (w : string) (d : ascii) (t : string) :
  PyStr.contains w (String d t) = String.prefix w (String d t) || PyStr.contains w t.
Proof.
  change (PyStr.contains w (String d t))
    with (if String.prefix w (String d t) then true else PyStr.contains w t).
  now destruct (String.prefix w (String d t)).
Qed.

Lemma contains_iff (w t : string) :
  PyStr.contains w t = true <-> exists l r, t = l +:+ w +:+ r.
Proof.
  induction t as [|d t IH].
  - rewrite contains_nil, prefix_iff. split.
    + intros [r Hr]. exists "", r. exact Hr.
    + intros (l & r & H). destruct l; simpl in H; [eauto|discriminate].
  - rewrite contains_cons, orb_true_iff, prefix_iff, IH. split.
    + intros [[r Hr]|(l & r & ->)]; [exists "", r; exact Hr|].
      exists (String d l), r. reflexivity.
    + intros (l & r & H). destruct l as [|c l]; simpl in H; [left; eauto|].
      right. inversion H; subst. eauto.
Qed.

Lemma append_assoc (x y z : string) : (x +:+ y) +:+ z = x +:+ (y +:+ z).
Proof.
  induction x as [|c x IH]; [reflexivity|].
  unfold String.append; fold String.append. now rewrite IH.
Qed.

Lemma contains_trans (u v w : string) :
  PyStr.contains u v = true -> PyStr.contains v w = true -> PyStr.contains u w = true.
Proof.
  rewrite !contains_iff. intros (l1 & r1 & ->) (l2 & r2 & ->).
  exists (l2 +:+ l1), (r1 +:+ r2). now rewrite !append_assoc.
Qed.

Lemma contains_empty_r (w : string) : PyStr.contains w "" = true -> w = "".
Proof.
  rewrite contains_iff. intros (l & r & H).
  destruct l; simpl in H; [|discriminate]. destruct w; [reflexivity|discriminate].
Qed.

Lemma split_nonempty (s w : string) : In w (PyStr.split s) -> w <> "".
Proof.
  revert w; induction s as [|c s IH]; intros w; simpl; [tauto|].
  destruct (PyStr.isspace c); [apply IH|].
  destruct s as [|c' s']; [intros [<-|[]]; discriminate|].
  destruct (PyStr.isspace c').
  - intros [<-|H]; [discriminate | now apply IH].
  - destruct (PyStr.split (String c' s')) as [|w0 ws] eqn:E.
    + intros [<-|[]]; discriminate.
    + intros [<-|H]; [discriminate|]. apply IH. now right.
Qed.

Lemma lower_append (x y : string) :
  PyStr.lower (x +:+ y) = PyStr.lower x +:+ PyStr.lower y.
Proof.
  induction x as [|c x IH]; [reflexivity|].
  unfold String.append; fold String.append. simpl. now rewrite IH.
Qed.

Lemma lstrip_suffix (s : string) : exists l, s = l +:+ PyStr.lstrip s.
Proof.
  induction s as [|c s [l IH]]; [exists ""; reflexivity|].
  simpl. destruct (PyStr.isspace c).
  - exists (String c l). unfold String.append; fold String.append. now rewrite <- IH.
  - exists "". reflexivity.
Qed.

Lemma rstrip_prefix (s : string) : exists r, s = PyStr.rstrip s +:+ r.
Proof.
  induction s as [|c s [r IH]]; [exists ""; reflexivity|].
  simpl. destruct (PyStr.rstrip s) as [|d t] eqn:E.
  - destruct (PyStr.isspace c).
    + exists (String c s). reflexivity.
    + exists r. change (String c s = String c ("" +:+ r)). now rewrite <- IH.
  - exists r. change (String c s = String c (String d t +:+ r)). now rewrite <- IH.
Qed.

(** The stripped input occurs in the input. *)
Lemma strip_contains (s : string) :
  PyStr.contains (PyStr.lower (PyStr.strip s)) (PyStr.lower s) = true.
Proof.
  apply contains_iff. unfold PyStr.strip.
  destruct (lstrip_suffix s) as [l Hl]. destruct (rstrip_prefix (PyStr.lstrip s)) as [r Hr].
  exists (PyStr.lower l), (PyStr.lower r).
  rewrite <- !lower_append. f_equal. now rewrite <- Hr.
Qed.

End StringFacts.

(** ** Intent classification *)

Lemma keyword_hit_existsb (query_lower : string) (keywords : list string) :
  keyword_hit query_lower keywords
  = existsb (fun kw => PyStr.contains (PyStr.lower kw) query_lower) keywords.
Proof.
  induction keywords as [|kw rest IH]; simpl; [reflexivity|].
  now destruct (PyStr.contains _ _).
Qed.

Lemma classify_with_filter (intent_map : list (string * list string)) (ql : string) :
  classify_with intent_map ql
  = map fst (List.filter (fun e => keyword_hit ql (snd e)) intent_map).
Proof.
  induction intent_map as [|[intent kws] rest IH]; simpl; [reflexivity|].
  destruct (keyword_hit ql kws); simpl; now rewrite IH.
Qed.

Lemma classify_with_sublist (intent_map : list (string * list string)) (ql : string) :
  sublist (classify_with intent_map ql) (map fst intent_map).
Proof.
  induction intent_map as [|[intent kws] rest IH]; simpl; [constructor|].
  destruct (keyword_hit ql kws); [now apply sublist_skip | now apply sublist_cons].
Qed.


(** ** The sequence matcher *)

Module DifflibFacts.
Import Difflib DifflibInv.

Section Ranges.
Variables a b : list ascii.

Lemma j2lenget_bounded (alo blo i j : nat) (j2len : gmap nat nat) :
    row_bounded alo blo i j2len -> alo <= i -> blo <= j ->
    j2lenget j2len j + alo <= i /\ j2lenget j2len j + blo <= j.
Proof.
    intros Hrow Hi Hj. destruct j as [|j']; simpl; [lia|].
    destruct (j2len !! j') as [k|] eqn:E; simpl; [|lia].
    apply Hrow in E. lia.
Qed.

Lemma scan_row_within (alo ahi blo bhi i : nat) (j2len : gmap nat nat) (js : list nat) :
    alo <= i < ahi -> row_bounded alo blo i j2len ->
    forall newj2len best,
      row_bounded alo blo (S i) newj2len -> within alo ahi blo bhi best ->
      row_bounded alo blo (S i) (fst (scan_row blo bhi i j2len js newj2len best))
      /\ within alo ahi blo bhi (snd (scan_row blo bhi i j2len js newj2len best)).
Proof.
    intros Hi Hrow. induction js as [|j js IH]; intros newj2len best Hnew Hbest; simpl.
    - auto.
    - destruct (Nat.ltb_spec j blo); [now apply IH|].
      destruct (Nat.leb_spec bhi j); [simpl; auto|].
      destruct best as [[bi bj] bk].
      destruct (j2lenget_bounded alo blo i j j2len Hrow) as [Hk1 Hk2]; [lia|lia|].
      apply IH.
      + intros j0 k0. rewrite lookup_insert. case_decide.
        * intros [= <-]. lia.
        * apply Hnew.
      + destruct (Nat.ltb_spec bk (j2lenget j2len j + 1)); [|assumption].
        simpl. lia.
Qed.

Lemma scan_within (alo ahi blo bhi : nat) (cnt : nat) :
    forall i j2len best,
      alo <= i -> i + cnt <= ahi ->
      row_bounded alo blo i j2len -> within alo ahi blo bhi best ->
      within alo ahi blo bhi (scan a b blo bhi (seq i cnt) j2len best).
Proof.
    induction cnt as [|cnt IH]; intros i j2len best Hi Hcnt Hrow Hbest; simpl; [assumption|].
    set (js := match a !! i with Some c => b2j b c | None => [] end).
    destruct (scan_row_within alo ahi blo bhi i j2len js ltac:(lia) Hrow ∅ best) as [H1 H2].
    - intros j k. rewrite lookup_empty. discriminate.
    - assumption.
    - destruct (scan_row blo bhi i j2len js ∅ best) as [new best'].
      apply IH; [lia|lia|assumption|assumption].
Qed.

Lemma extend_back_within (junk : bool) (alo ahi blo bhi fuel : nat) (m : Match) :
    within alo ahi blo bhi m -> within alo ahi blo bhi (extend_back a b junk alo blo fuel m).
Proof.
    revert m; induction fuel as [|fuel IH]; intros [[bi bj] bk] Hm; simpl; [assumption|].
    destruct (_ && _) eqn:E; [|assumption].
    apply IH. repeat (apply andb_prop in E as [E ?]).
    apply Nat.ltb_lt in E. apply Nat.ltb_lt in H1. simpl in *. lia.
Qed.

Lemma extend_forward_within (junk : bool) (alo ahi blo bhi fuel : nat) (m : Match) :
    within alo ahi blo bhi m -> within alo ahi blo bhi (extend_forward a b junk ahi bhi fuel m).
Proof.
    revert m; induction fuel as [|fuel IH]; intros [[bi bj] bk] Hm; simpl; [assumption|].
    destruct (_ && _) eqn:E; [|assumption].
    apply IH. repeat (apply andb_prop in E as [E ?]).
    apply Nat.ltb_lt in E. apply Nat.ltb_lt in H1. simpl in *. lia.
Qed.

  (** Each loop stops because its condition fails: fuel beyond the
      distance to the window's edge changes nothing. *)
Lemma extend_back_enough (junk : bool) (alo blo fuel : nat) :
    forall fuel' m, fst (fst m) - alo <= fuel -> fuel <= fuel' ->
      extend_back a b junk alo blo fuel' m = extend_back a b junk alo blo fuel m.
Proof.
    induction fuel as [|fuel IH]; intros fuel' [[bi bj] bk] Hm Hf; simpl in Hm.
    - destruct fuel' as [|fuel']; [reflexivity|]. simpl.
      destruct (Nat.ltb_spec alo bi); [lia|reflexivity].
    - destruct fuel' as [|fuel']; [lia|]. simpl.
      destruct (_ && _); [|reflexivity]. apply IH; simpl; lia.
Qed.

Lemma extend_forward_enough (junk : bool) (ahi bhi fuel : nat) :
    forall fuel' m, ahi - (fst (fst m) + snd m) <= fuel -> fuel <= fuel' ->
      extend_forward a b junk ahi bhi fuel' m = extend_forward a b junk ahi bhi fuel m.
Proof.
    induction fuel as [|fuel IH]; intros fuel' [[bi bj] bk] Hm Hf; simpl in Hm.
    - destruct fuel' as [|fuel']; [reflexivity|]. simpl.
      destruct (Nat.ltb_spec (bi + bk) ahi); [lia|reflexivity].
    - destruct fuel' as [|fuel']; [lia|]. simpl.
      destruct (_ && _); [|reflexivity]. apply IH; simpl; lia.
Qed.

Lemma find_longest_match_within (alo ahi blo bhi : nat) :
    alo <= ahi -> blo <= bhi ->
    within alo ahi blo bhi (find_longest_match a b alo ahi blo bhi).
Proof.
    intros Ha Hb. unfold find_longest_match.
    apply extend_forward_within, extend_back_within, extend_forward_within,
      extend_back_within.
    apply scan_within; [lia|lia| |simpl; lia].
    intros j k. rewrite lookup_empty. discriminate.
Qed.

  (** *** The work-list loop *)

Lemma size_sum_app (l1 l2 : list Match) : size_sum (l1 ++ l2) = size_sum l1 + size_sum l2.
Proof. unfold size_sum. now rewrite map_app, list_sum_app. Qed.

Lemma blocks_loop_step (fuel : nat) (w : nat * nat * nat * nat)
      (rest : list (nat * nat * nat * nat)) (blocks : list Match) :
    blocks_loop a b (S fuel) (w :: rest) blocks
    = let '(alo, ahi, blo, bhi) := w in
      let m := find_longest_match a b alo ahi blo bhi in
      if snd m =? 0 then blocks_loop a b fuel rest blocks
      else blocks_loop a b fuel (pushed w m rest) (blocks ++ [m]).
Proof.
    destruct w as [[[alo ahi] blo] bhi]. simpl.
    destruct (find_longest_match a b alo ahi blo bhi) as [[i j] k]. reflexivity.
Qed.

Lemma pushed_ok (w : nat * nat * nat * nat) (m : Match)
      (rest : list (nat * nat * nat * nat)) :
    window_ok w ->
    (let '(alo, ahi, blo, bhi) := w in within alo ahi blo bhi m) ->
    0 < snd m -> Forall window_ok rest ->
    Forall window_ok (pushed w m rest)
    /\ snd m + list_sum (map room (pushed w m rest)) <= room w + list_sum (map room rest)
    /\ list_sum (map cost (pushed w m rest)) < cost w + list_sum (map cost rest).
Proof.
    destruct w as [[[alo ahi] blo] bhi], m as [[i j] k]. simpl.
    intros [Ha Hb] (H1 & H2 & H3 & H4) Hk Hrest.
    destruct (Nat.ltb_spec alo i), (Nat.ltb_spec blo j),
      (Nat.ltb_spec (i + k) ahi), (Nat.ltb_spec (j + k) bhi); simpl;
      repeat split; repeat constructor; simpl; try assumption; lia.
Qed.

  (** The collected sizes never exceed what the windows have room for. *)
Lemma blocks_loop_room (fuel : nat) :
    forall queue blocks,
      Forall window_ok queue ->
      size_sum (blocks_loop a b fuel queue blocks)
      <= size_sum blocks + list_sum (map room queue).
Proof.
    induction fuel as [|fuel IH]; intros queue blocks Hq; [simpl; lia|].
    destruct queue as [|w rest]; [simpl; lia|].
    rewrite blocks_loop_step. destruct w as [[[alo ahi] blo] bhi].
    inversion Hq as [|? ? Hw Hrest]; subst.
    pose proof (find_longest_match_within alo ahi blo bhi (proj1 Hw) (proj2 Hw)) as Hm.
    cbv zeta. destruct (Nat.eqb_spec (snd (find_longest_match a b alo ahi blo bhi)) 0) as [E|E].
    - specialize (IH rest blocks Hrest). simpl. lia.
    - destruct (pushed_ok (alo, ahi, blo, bhi) _ rest Hw Hm ltac:(lia) Hrest) as (Hp & Hr & _).
      specialize (IH _ (blocks ++ [find_longest_match a b alo ahi blo bhi]) Hp).
      rewrite size_sum_app in IH.
      set (m := find_longest_match a b alo ahi blo bhi) in *.
      set (q := pushed (alo, ahi, blo, bhi) m rest) in *.
      change (size_sum [m]) with (snd m + 0) in IH.
      change (list_sum (map room ((alo, ahi, blo, bhi) :: rest)))
        with (room (alo, ahi, blo, bhi) + list_sum (map room rest)).
      lia.
Qed.

  (** With fuel for every pass the loop stops on an empty queue: more
      fuel changes nothing. *)
Lemma blocks_loop_enough (fuel : nat) :
    forall fuel' queue blocks,
      Forall window_ok queue -> list_sum (map cost queue) <= fuel -> fuel <= fuel' ->
      blocks_loop a b fuel' queue blocks = blocks_loop a b fuel queue blocks.
Proof.
    induction fuel as [|fuel IH]; intros fuel' queue blocks Hq Hc Hf.
    - destruct queue as [|[[[alo ahi] blo] bhi] rest]; [now destruct fuel'|].
      simpl in Hc. lia.
    - destruct fuel' as [|fuel']; [lia|].
      destruct queue as [|w rest]; [reflexivity|].
      rewrite !blocks_loop_step. destruct w as [[[alo ahi] blo] bhi].
      inversion Hq as [|? ? Hw Hrest]; subst.
      pose proof (find_longest_match_within alo ahi blo bhi (proj1 Hw) (proj2 Hw)) as Hm.
      cbv zeta.
      change (list_sum (map cost ((alo, ahi, blo, bhi) :: rest)))
        with (cost (alo, ahi, blo, bhi) + list_sum (map cost rest)) in Hc.
      destruct (Nat.eqb_spec (snd (find_longest_match a b alo ahi blo bhi)) 0) as [E|E].
      + apply IH; [assumption| |lia]. unfold cost at 1 in Hc. lia.
      + destruct (pushed_ok (alo, ahi, blo, bhi) _ rest Hw Hm ltac:(lia) Hrest) as (Hp & _ & Hlt).
        apply IH; [assumption| |lia]. lia.
Qed.

Theorem get_matching_blocks_terminates (extra : nat) :
    blocks_loop a b (2 * length a + 1 + extra) [(0, length a, 0, length b)] []
    = get_matching_blocks a b.
Proof.
    unfold get_matching_blocks. apply blocks_loop_enough.
    - repeat constructor; lia.
    - simpl. lia.
    - lia.
Qed.

Lemma matches_le : matches a b <= Nat.min (length a) (length b).
Proof.
    unfold matches, get_matching_blocks.
    pose proof (blocks_loop_room (2 * length a + 1) [(0, length a, 0, length b)] []) as H.
    unfold size_sum in H. simpl in H. rewrite !Nat.sub_0_r in H.
    etransitivity; [apply H|lia]. repeat constructor; lia.
Qed.

End Ranges.

Section Disjoint.
Variables a b : list ascii.
Hypothesis no_common : forall c, In c a -> In c b -> False.

Lemma indices_absent (c : ascii) (l : list ascii) (j : nat) :
    ~ In c l -> indices c j l = [].
Proof.
    revert j; induction l as [|x l IH]; intros j Hc; simpl; [reflexivity|].
    destruct (Ascii.eqb_spec x c) as [->|Hne]; [destruct Hc; now left|].
    apply IH. intros H. apply Hc. now right.
Qed.

Lemma scan_disjoint (blo bhi : nat) (rows : list nat) :
    forall j2len best, scan a b blo bhi rows j2len best = best.
Proof.
    induction rows as [|i rows IH]; intros j2len best; simpl; [reflexivity|].
    destruct (a !! i) as [c|] eqn:E.
    - assert (Hc : In c a) by (apply list_elem_of_In; eapply list_elem_of_lookup_2; eauto).
      unfold b2j. rewrite indices_absent by eauto.
      destruct (popular b c); simpl; apply IH.
    - simpl. apply IH.
Qed.

Lemma same_elt_disjoint (i j : nat) : same_elt a b i j = false.
Proof.
    unfold same_elt. destruct (a !! i) as [x|] eqn:Ea; [|reflexivity].
    destruct (b !! j) as [y|] eqn:Eb; [|reflexivity].
    destruct (Ascii.eqb_spec x y) as [->|]; [exfalso|reflexivity].
    apply (no_common y); apply list_elem_of_In; eapply list_elem_of_lookup_2; eauto.
Qed.

Lemma find_longest_match_disjoint (alo ahi blo bhi : nat) :
    find_longest_match a b alo ahi blo bhi = (alo, blo, 0).
Proof.
    unfold find_longest_match. rewrite scan_disjoint.
    assert (Hb : forall junk alo blo fuel m, extend_back a b junk alo blo fuel m = m).
    { intros junk alo' blo' [|fuel] [[bi bj] bk]; simpl; [reflexivity|].
      now rewrite same_elt_disjoint, andb_false_r. }
    assert (Hf : forall junk ahi bhi fuel m, extend_forward a b junk ahi bhi fuel m = m).
    { intros junk ahi' bhi' [|fuel] [[bi bj] bk]; simpl; [reflexivity|].
      now rewrite same_elt_disjoint, andb_false_r. }
    repeat (rewrite Hb || rewrite Hf). reflexivity.
Qed.

Lemma blocks_loop_disjoint (fuel : nat) :
    forall queue, blocks_loop a b fuel queue [] = [].
Proof.
    induction fuel as [|fuel IH]; intros queue; [reflexivity|].
    destruct queue as [|[[[alo ahi] blo] bhi] rest]; [reflexivity|].
    rewrite DifflibFacts.blocks_loop_step. cbv zeta.
    rewrite find_longest_match_disjoint. simpl. apply IH.
Qed.

  (** Sequences with no element in common have no matching block. *)
Lemma matches_disjoint : matches a b = 0.
Proof. unfold matches, get_matching_blocks. now rewrite blocks_loop_disjoint. Qed.

End Disjoint.

Section Same.
Variable a : list ascii.

Local Abbreviation run := (DifflibInv.run a).
Local Abbreviation run_before := (DifflibInv.run_before a).
Local Abbreviation row_runs := (DifflibInv.row_runs a).
Local Abbreviation diagonal := (DifflibInv.diagonal a).
Local Abbreviation covers := (DifflibInv.covers a).

Lemma run_eq (i : nat) :
    run i = match a !! i with
            | Some c => if popular a c then 0 else S (run_before i)
            | None => 0
            end.
Proof. destruct i; reflexivity. Qed.

Lemma run_le (i : nat) : run i <= S i.
Proof.
    induction i as [|i IH]; rewrite run_eq; simpl run_before;
      destruct (a !! _) as [c|]; try lia; destruct (popular a c); lia.
Qed.

Lemma indices_In (c : ascii) (l : list ascii) :
    forall j0 j, In j (indices c j0 l) -> j0 <= j /\ l !! (j - j0) = Some c.
Proof.
    induction l as [|x l IH]; intros j0 j; simpl; [tauto|].
    destruct (Ascii.eqb_spec x c) as [->|Hne].
    - intros [<-|H]; [rewrite Nat.sub_diag; auto|].
      apply IH in H as [H1 H2]. split; [lia|].
      replace (j - j0) with (S (j - S j0)) by lia. exact H2.
    - intros H. apply IH in H as [H1 H2]. split; [lia|].
      replace (j - j0) with (S (j - S j0)) by lia. exact H2.
Qed.

Lemma In_indices (c : ascii) (l : list ascii) :
    forall j0 i, l !! i = Some c -> In (j0 + i) (indices c j0 l).
Proof.
    induction l as [|x l IH]; intros j0 i; [discriminate|].
    destruct i as [|i]; simpl.
    - intros [= ->]. rewrite Ascii.eqb_refl, Nat.add_0_r. now left.
    - intros H. replace (j0 + S i) with (S j0 + i) by lia.
      destruct (Ascii.eqb x c); [right|]; now apply IH.
Qed.

Lemma indices_sorted (c : ascii) (l : list ascii) :
    forall j0, StronglySorted lt (indices c j0 l).
Proof.
    induction l as [|x l IH]; intros j0; simpl; [constructor|].
    destruct (Ascii.eqb x c); [|apply IH].
    constructor; [apply IH|]. apply List.Forall_forall. intros j Hj.
    apply indices_In in Hj. lia.
Qed.

Lemma j2lenget_runs (i j : nat) (j2len : gmap nat nat) :
    row_runs i j2len ->
    j2lenget j2len j <= run_before j /\ j2lenget j2len j <= run_before i.
Proof.
    intros [Hrow _]. destruct j as [|j']; simpl; [lia|].
    destruct (j2len !! j') as [k|] eqn:E; simpl; [|lia]. now apply Hrow.
Qed.

Lemma scan_row_same (i : nat) (c : ascii) (j2len : gmap nat nat) :
    a !! i = Some c -> popular a c = false -> row_runs i j2len ->
    forall js newj2len best,
      StronglySorted lt js ->
      Forall (fun j => a !! j = Some c) js ->
      (In i js \/ (Forall (lt i) js /\ run i <= snd best /\ newj2len !! i = Some (run i))) ->
      (forall j k, newj2len !! j = Some k -> k <= run j /\ k <= run i) ->
      diagonal best -> covers i best ->
      let r := scan_row 0 (length a) i j2len js newj2len best in
      diagonal (snd r) /\ covers (S i) (snd r) /\ row_runs (S i) (fst r).
Proof.
    intros Hi Hpop Hrow.
    assert (Hruni : run i = S (run_before i)) by (rewrite run_eq, Hi, Hpop; reflexivity).
    induction js as [|j js IH]; intros newj2len best Hsorted Hall Hstate Hnew Hdiag Hcov.
    - simpl. destruct Hstate as [[]|(_ & Hbest & Hlook)].
      split; [assumption|]. split.
      + intros j Hj. destruct (Nat.eq_dec j i) as [->|]; [assumption|]. apply Hcov. lia.
      + split; [exact Hnew|]. simpl. now rewrite Hlook.
    - inversion Hsorted as [|? ? Hsorted' Hlt]; subst.
      inversion Hall as [|? ? Hj Hall']; subst.
      assert (Hjn : j < length a) by (apply lookup_lt_is_Some; eauto).
      assert (Hrunj : run j = S (run_before j)) by (rewrite run_eq, Hj, Hpop; reflexivity).
      destruct (j2lenget_runs i j j2len Hrow) as [Hk1 Hk2].
      simpl. destruct (Nat.leb_spec (length a) j) as [|_]; [lia|].
      destruct best as [[bi bj] bk]. simpl in Hdiag, Hcov |- *.
      set (k := j2lenget j2len j + 1).
      assert (Hnew' : forall j0 k0, <[j := k]> newj2len !! j0 = Some k0 ->
                                    k0 <= run j0 /\ k0 <= run i).
      { intros j0 k0. rewrite lookup_insert. case_decide.
        - intros [= <-]. subst j0. unfold k. lia.
        - apply Hnew. }
      destruct (Nat.lt_trichotomy j i) as [Hlt'|[->|Hgt]].
      + (* left of the diagonal: the run ending at [j] was seen before *)
        assert (Hbk : k <= bk) by (specialize (Hcov j Hlt'); simpl in Hcov; unfold k; lia).
        destruct (Nat.ltb_spec bk k); [lia|].
        apply IH; try assumption.
        destruct Hstate as [[->|Hin]|(Hgt & _)]; [lia|now left|].
        inversion Hgt; lia.
      + (* on the diagonal *)
        assert (Hk : k = run i) by (unfold k; destruct Hrow as [_ ->]; lia).
        assert (Hafter : Forall (lt i) js) by assumption.
        pose proof (run_le i) as Hle.
        destruct (Nat.ltb_spec bk k).
        * apply IH; try assumption.
          -- right. split; [assumption|]. split; [simpl; lia|].
             rewrite lookup_insert. case_decide; congruence.
          -- simpl. lia.
          -- intros j0 Hj0. specialize (Hcov j0 Hj0). simpl in *. lia.
        * apply IH; try assumption.
          -- right. split; [assumption|]. split; [simpl; lia|].
             rewrite lookup_insert. case_decide; congruence.
      + (* right of the diagonal: row [i] has been through its own column *)
        destruct Hstate as [[->|Hin]|(Hafter & Hbest & Hlook)]; [lia| |].
        { rewrite List.Forall_forall in Hlt. specialize (Hlt _ Hin). lia. }
        simpl in Hbest.
        assert (Hbk : k <= bk) by (unfold k; lia).
        destruct (Nat.ltb_spec bk k); [lia|].
        apply IH; try assumption.
        right. inversion Hafter; subst. split; [assumption|]. split; [assumption|].
        rewrite lookup_insert. case_decide; [lia|assumption].
Qed.

Lemma scan_same (cnt : nat) :
    forall i j2len best,
      i + cnt <= length a -> row_runs i j2len -> diagonal best -> covers i best ->
      diagonal (scan a a 0 (length a) (seq i cnt) j2len best).
Proof.
    induction cnt as [|cnt IH]; intros i j2len best Hi Hrow Hdiag Hcov; [assumption|].
    simpl. destruct (lookup_lt_is_Some_2 a i ltac:(lia)) as [c Hc]. rewrite Hc.
    unfold b2j. destruct (popular a c) eqn:Hpop.
    - simpl. apply IH; [lia| |assumption|].
      + split; [intros j k; rewrite lookup_empty; discriminate|].
        simpl. now rewrite lookup_empty, run_eq, Hc, Hpop.
      + intros j Hj. destruct (Nat.eq_dec j i) as [->|]; [|apply Hcov; lia].
        rewrite run_eq, Hc, Hpop. lia.
    - pose proof (scan_row_same i c j2len Hc Hpop Hrow (indices c 0 a) ∅ best) as H.
      destruct (scan_row 0 (length a) i j2len (indices c 0 a) ∅ best) as [new best'].
      destruct H as (H1 & H2 & H3).
      + apply indices_sorted.
      + apply List.Forall_forall. intros j Hj. apply indices_In in Hj as [_ Hj].
        now rewrite Nat.sub_0_r in Hj.
      + left. apply (In_indices c a 0 i Hc).
      + intros j k. rewrite lookup_empty. discriminate.
      + assumption.
      + assumption.
      + apply IH; [lia|assumption..].
Qed.

Lemma same_elt_refl (i : nat) : i < length a -> same_elt a a i i = true.
Proof.
    intros Hi. unfold same_elt. destruct (lookup_lt_is_Some_2 a i Hi) as [c ->].
    apply Ascii.eqb_refl.
Qed.

Lemma extend_back_same (fuel : nat) :
    forall d k, d <= fuel -> d + k <= length a ->
      extend_back a a false 0 0 fuel (d, d, k) = (0, 0, d + k).
Proof.
    induction fuel as [|fuel IH]; intros d k Hd Hk.
    - now replace d with 0 by lia.
    - simpl. destruct d as [|d]; [reflexivity|].
      rewrite Nat.sub_1_r. simpl Nat.pred.
      rewrite same_elt_refl by lia. simpl.
      rewrite IH by lia. f_equal. lia.
Qed.

Lemma extend_forward_same (fuel : nat) :
    forall k, length a - k <= fuel -> k <= length a ->
      extend_forward a a false (length a) (length a) fuel (0, 0, k) = (0, 0, length a).
Proof.
    induction fuel as [|fuel IH]; intros k Hf Hk.
    - simpl. f_equal. lia.
    - simpl. destruct (Nat.ltb_spec k (length a)) as [Hlt|Hge].
      + rewrite same_elt_refl by lia. simpl. apply IH; lia.
      + simpl. f_equal. lia.
Qed.

Lemma extend_back_junk (b : list ascii) (alo blo fuel : nat) (m : Match) :
    extend_back a b true alo blo fuel m = m.
Proof.
    destruct fuel as [|fuel], m as [[bi bj] bk]; simpl; [reflexivity|].
    now rewrite andb_false_r.
Qed.

Lemma extend_forward_junk (b : list ascii) (ahi bhi fuel : nat) (m : Match) :
    extend_forward a b true ahi bhi fuel m = m.
Proof.
    destruct fuel as [|fuel], m as [[bi bj] bk]; simpl; [reflexivity|].
    now rewrite andb_false_r.
Qed.

Lemma find_longest_match_same :
    find_longest_match a a 0 (length a) 0 (length a) = (0, 0, length a).
Proof.
    unfold find_longest_match. rewrite Nat.sub_0_r.
    pose proof (scan_same (length a) 0 ∅ (0, 0, 0)) as H.
    destruct (scan a a 0 (length a) (seq 0 (length a)) ∅ (0, 0, 0)) as [[bi bj] bk].
    destruct H as [<- Hk].
    - lia.
    - split; [intros j k; rewrite lookup_empty; discriminate|reflexivity].
    - simpl. lia.
    - intros j Hj. lia.
    - rewrite extend_back_same by lia.
      rewrite extend_forward_same by lia.
      now rewrite extend_back_junk, extend_forward_junk.
Qed.

  (** A sequence matches itself over its whole length. *)
Lemma matches_same : matches a a = length a.
Proof.
    unfold matches, get_matching_blocks.
    replace (2 * length a + 1) with (S (2 * length a)) by lia.
    rewrite DifflibFacts.blocks_loop_step. cbv zeta. rewrite find_longest_match_same.
    simpl snd. destruct (Nat.eqb_spec (length a) 0) as [E|E].
    - destruct (2 * length a); simpl; lia.
    - assert (Hp : pushed (0, length a, 0, length a) (0, 0, length a) [] = []).
      { unfold pushed. change (0 + length a) with (length a).
        now rewrite Nat.ltb_irrefl. }
      rewrite Hp. destruct (2 * length a); simpl; lia.
Qed.

End Same.

End DifflibFacts.

(** ** Scores *)

Section ScoreFacts.
Import Binary64 Binary64Facts.

Lemma float_of_nat_represents (n : nat) :
  0 < n -> small n -> represents (Prim2SF (float_of_nat n)) (Z.of_nat n).
Proof. intros Hn Hs. apply of_uint63_represents. unfold small in Hs. lia. Qed.

Lemma calculate_ratio_cases (m l : nat) :
  2 * m <= l -> small l ->
  let r := calculate_ratio m l in
  nonneg r /\ (0 <=? r)%float = true /\ (r <=? 1)%float = true.
Proof.
  intros Hm Hl r. subst r. unfold calculate_ratio.
  destruct (Nat.eqb_spec l 0) as [->|Hl0].
  { split; [|split]; vm_compute; reflexivity. }
  assert (Hy : represents (Prim2SF (float_of_nat l)) (Z.of_nat l))
    by (apply float_of_nat_represents; [lia|assumption]).
  destruct (Nat.eq_dec m 0) as [->|Hm0].
  { change (2 * float_of_nat 0)%float with 0%float.
    rewrite (div_zero_represents _ _ Hy). split; [|split]; vm_compute; reflexivity. }
  assert (Hx : represents (Prim2SF (2 * float_of_nat m)%float) (2 * Z.of_nat m)).
  { unfold small in Hl. apply double_represents; [|lia].
    apply float_of_nat_represents; [lia|unfold small; lia]. }
  split; [|split].
  - apply (div_represents_nonneg _ _ _ _ Hx Hy). lia.
  - apply (div_represents_le_one _ _ _ _ Hx Hy). lia.
  - apply (div_represents_le_one _ _ _ _ Hx Hy). lia.
Qed.

Lemma calculate_ratio_same (n : nat) :
  small (n + n) -> calculate_ratio n (n + n) = 1%float.
Proof.
  intros Hs. unfold calculate_ratio.
  destruct (Nat.eqb_spec (n + n) 0) as [|Hn]; [reflexivity|].
  unfold small in Hs.
  apply (div_represents_same _ _ (2 * Z.of_nat n)); [| |lia].
  - apply double_represents; [|lia]. apply float_of_nat_represents; [lia|unfold small; lia].
  - replace (2 * Z.of_nat n)%Z with (Z.of_nat (n + n)) by lia.
    apply float_of_nat_represents; [lia|exact Hs].
Qed.

Lemma calculate_ratio_zero (l : nat) :
  0 < l -> small l -> calculate_ratio 0 l = 0%float.
Proof.
  intros Hl Hs. unfold calculate_ratio.
  destruct (Nat.eqb_spec l 0) as [|_]; [lia|].
  change (2 * float_of_nat 0)%float with 0%float.
  apply (div_zero_represents _ (Z.of_nat l)). now apply float_of_nat_represents.
Qed.

Lemma length_list_ascii (s : string) :
  length (list_ascii_of_string s) = String.length s.
Proof. induction s; simpl; congruence. Qed.

Lemma lower_length (s : string) : String.length (PyStr.lower s) = String.length s.
Proof. induction s; simpl; congruence. Qed.

(** The similarity ratio of two strings is a number of [[0, 1]]. *)
Lemma ratio_range (x y : string) :
  small (String.length x + String.length y) ->
  nonneg (ratio x y) /\ (0 <=? ratio x y)%float = true /\ (ratio x y <=? 1)%float = true.
Proof.
  intros Hs. unfold ratio. apply calculate_ratio_cases.
  - pose proof (DifflibFacts.matches_le (list_ascii_of_string x) (list_ascii_of_string y)). lia.
  - now rewrite !length_list_ascii.
Qed.

Lemma ratio_same (x : string) :
  small (String.length x + String.length x) -> ratio x x = 1%float.
Proof.
  intros Hs. unfold ratio. rewrite DifflibFacts.matches_same.
  apply calculate_ratio_same. now rewrite !length_list_ascii.
Qed.

Lemma ratio_dissimilar (x y : string) :
  small (String.length x + String.length y) -> dissimilar x y -> ratio x y = 0%float.
Proof.
  intros Hs [Hdis Hlen]. unfold ratio. rewrite DifflibFacts.matches_disjoint by exact Hdis.
  apply calculate_ratio_zero; now rewrite !length_list_ascii.
Qed.

Lemma substring_bonus_iter (words : list string) (text_lower : string) :
  forall acc,
    substring_bonus words text_lower acc
    = Nat.iter (length (List.filter (fun w => PyStr.contains w text_lower) words))
        (fun s => (s + 0.3)%float) acc.
Proof.
  induction words as [|w words IH]; intros acc; simpl; [reflexivity|].
  rewrite IH. destruct (PyStr.contains w text_lower); [|reflexivity].
  simpl length. now rewrite Nat.iter_succ_r.
Qed.

Lemma bonus_nonneg (n : nat) : nonneg (bonus n).
Proof.
  induction n as [|n IH]; [vm_compute; reflexivity|].
  unfold bonus. rewrite Nat.iter_succ. apply add_nonneg; [exact IH|].
  vm_compute. reflexivity.
Qed.

Lemma pymin_one (s : float) :
  nonneg s ->
  nonneg (pymin 1 s)
  /\ (pymin 1 s <=? 1)%float = true /\ (pymin 1 s <=? s)%float = true
  /\ (pymin 1 s = 1%float \/ pymin 1 s = s).
Proof.
  intros Hs. assert (H1 : nonneg 1) by (vm_compute; reflexivity).
  unfold pymin. destruct (s <? 1)%float eqn:E.
  - repeat split; auto using ltb_leb, leb_refl_nonneg.
  - repeat split; auto using leb_refl_nonneg, not_ltb_leb.
Qed.

Lemma fuzzy_score_eq (query text : string) :
  fuzzy_score query text
  = pymin 1 (bonus (hits query text) + ratio (PyStr.lower query) (PyStr.lower text)).
Proof. unfold fuzzy_score. now rewrite substring_bonus_iter. Qed.

Lemma fuzzy_score_nonneg (query text : string) :
  small (String.length query + String.length text) ->
  nonneg (fuzzy_score query text) /\ (fuzzy_score query text <=? 1)%float = true.
Proof.
  intros Hs. rewrite fuzzy_score_eq.
  assert (Hsum : nonneg (bonus (hits query text)
                         + ratio (PyStr.lower query) (PyStr.lower text))).
  { apply add_nonneg; [apply bonus_nonneg|]. apply ratio_range. now rewrite !lower_length. }
  destruct (pymin_one _ Hsum) as (H1 & H2 & _). auto.
Qed.



End ScoreFacts.

(** ** Ranking *)

Section SortFacts.
Import Binary64 Binary64Facts.
Context {A : Type}.

Lemma insert_desc_perm (x : float * A) (l : list (float * A)) :
  Permutation (insert_desc x l) (x :: l).
Proof.
  induction l as [|y l IH]; simpl; [reflexivity|].
  destruct (fst x <? fst y)%float; [|reflexivity].
  rewrite IH. apply perm_swap.
Qed.

Lemma sort_desc_perm (l : list (float * A)) : Permutation (sort_desc l) l.
Proof.
  induction l as [|x l IH]; simpl; [reflexivity|].
  rewrite insert_desc_perm. now constructor.
Qed.

Lemma insert_desc_sorted (x : float * A) (l : list (float * A)) :
  key_nonneg x -> Forall key_nonneg l -> StronglySorted not_below l ->
  StronglySorted not_below (insert_desc x l).
Proof.
  intros Hx. induction l as [|y l IH]; intros Hl Hs; simpl.
  - repeat constructor.
  - inversion Hl as [|? ? Hy Hl']; subst. inversion Hs as [|? ? Hs' Hall]; subst.
    destruct (fst x <? fst y)%float eqn:E.
    + constructor; [now apply IH|].
      apply List.Forall_forall. intros z Hz.
      apply (Permutation_in _ (insert_desc_perm x l)) in Hz as [<-|Hz].
      * now apply ltb_asym.
      * rewrite List.Forall_forall in Hall. now apply Hall.
    + constructor; [now constructor|]. constructor; [exact E|].
      rewrite List.Forall_forall in Hall, Hl' |- *. intros z Hz.
      apply (geb_trans (fst x) (fst y) (fst z));
        [exact Hx|exact Hy|now apply Hl'|exact E|now apply Hall].
Qed.

Lemma sort_desc_nonneg (l : list (float * A)) :
  Forall key_nonneg l -> Forall key_nonneg (sort_desc l).
Proof.
  intros H. rewrite List.Forall_forall in H |- *. intros x Hx. apply H.
  now apply (Permutation_in _ (sort_desc_perm l)).
Qed.

Lemma sort_desc_sorted (l : list (float * A)) :
  Forall key_nonneg l -> StronglySorted not_below (sort_desc l).
Proof.
  induction l as [|x l IH]; intros Hl; simpl; [constructor|].
  inversion Hl; subst. apply insert_desc_sorted; auto using sort_desc_nonneg.
Qed.

Lemma insert_desc_tied (k : float) (x : float * A) (l : list (float * A)) :
  nonneg k -> key_nonneg x -> Forall key_nonneg l ->
  List.filter (tied k) (insert_desc x l) = List.filter (tied k) (x :: l).
Proof.
  intros Hk Hx. induction l as [|y l IH]; intros Hl; [reflexivity|].
  inversion Hl as [|? ? Hy Hl']; subst. simpl insert_desc.
  destruct (fst x <? fst y)%float eqn:E; [|reflexivity].
  simpl List.filter. rewrite IH by assumption. simpl List.filter.
  destruct (tied k y) eqn:Ty, (tied k x) eqn:Tx; try reflexivity.
  exfalso. unfold tied in Ty, Tx.
  apply andb_prop in Ty as [_ Ty]. apply andb_prop in Tx as [Tx _].
  apply negb_true_iff in Ty, Tx.
  rewrite (geb_trans (fst x) k (fst y)) in E by assumption. discriminate.
Qed.

(** Items with equal keys keep the order they had. *)
Lemma sort_desc_stable (k : float) (l : list (float * A)) :
  nonneg k -> Forall key_nonneg l ->
  List.filter (tied k) (sort_desc l) = List.filter (tied k) l.
Proof.
  intros Hk. induction l as [|x l IH]; intros Hl; [reflexivity|].
  inversion Hl; subst. simpl sort_desc.
  rewrite insert_desc_tied by auto using sort_desc_nonneg.
  simpl. now rewrite IH.
Qed.

End SortFacts.

Section RankFacts.
Import Binary64 Binary64Facts.

Lemma filter_all_false {B : Type} (f : B -> bool) (l : list B) :
  (forall x, In x l -> f x = false) -> List.filter f l = [].
Proof.
  induction l as [|x l IH]; intros H; [reflexivity|].
  cbn [List.filter]. rewrite (H x) by now left. apply IH. intros y Hy. apply H. now right.
Qed.

Lemma hits_empty (query : string) : hits query "" = 0.
Proof.
  unfold hits. rewrite filter_all_false; [reflexivity|].
  intros w Hw. change (PyStr.lower "") with "".
  destruct (PyStr.contains w "") eqn:E; [|reflexivity].
  apply contains_empty_r in E. now apply split_nonempty in Hw.
Qed.

Lemma lower_empty (s : string) : PyStr.lower s = "" -> s = "".
Proof. destruct s; [reflexivity|discriminate]. Qed.

(** Against an empty text a non-empty query scores zero. *)
Lemma fuzzy_score_empty (query : string) :
  query <> "" -> small (String.length query + String.length "") ->
  fuzzy_score query "" = 0%float.
Proof.
  intros Hq Hs. rewrite fuzzy_score_eq, hits_empty. simpl PyStr.lower.
  rewrite ratio_dissimilar; [reflexivity|now rewrite lower_length|].
  split; [intros c _ []|].
  destruct (PyStr.lower query) eqn:E; [now apply lower_empty in E|simpl; lia].
Qed.

Lemma fuzzy_score_value_field (query : string) (a : article) (key : string) :
  query <> "" -> scorable query a -> In key text_fields ->
  fuzzy_score_value query (dict_get a key) = Ok (field_score query a key)
  /\ nonneg (field_score query a key).
Proof.
  intros Hq Ha Hkey. destruct (Ha key Hkey) as (s & Hs & Hsmall).
  rewrite Hs. unfold field_score, dict_get in *.
  destruct (a !! key) as [v|] eqn:E; simpl in Hs.
  - subst v. simpl. destruct (String.eqb_spec s "") as [->|Hne].
    + rewrite fuzzy_score_empty by assumption. split; [reflexivity|vm_compute; reflexivity].
    + split; [reflexivity|]. now apply fuzzy_score_nonneg.
  - injection Hs as <-. simpl. rewrite fuzzy_score_empty by assumption.
    split; [reflexivity|vm_compute; reflexivity].
Qed.

Ltac weight_nonneg c :=
  let v := eval vm_compute in (Prim2SF c) in
  match v with
  | S754_finite false ?m ?e => apply (mul_nonneg _ c m e); [vm_compute; reflexivity|]
  end.

Lemma total_score_spec (query : string) (a : article) :
  query <> "" -> scorable query a ->
  total_score query a = Ok (weighted_total query a) /\ nonneg (weighted_total query a).
Proof.
  intros Hq Ha. unfold total_score, weighted_total.
  destruct (fuzzy_score_value_field query a "title" Hq Ha) as [-> Ht]; [simpl; tauto|].
  destruct (fuzzy_score_value_field query a "description" Hq Ha) as [-> Hd]; [simpl; tauto|].
  destruct (fuzzy_score_value_field query a "tags" Hq Ha) as [-> Hg]; [simpl; tauto|].
  destruct (fuzzy_score_value_field query a "category" Hq Ha) as [-> Hc]; [simpl; tauto|].
  split; [reflexivity|].
  repeat apply add_nonneg.
  - weight_nonneg 2.0%float. exact Ht.
  - weight_nonneg 1.5%float. exact Hd.
  - weight_nonneg 1.8%float. exact Hg.
  - weight_nonneg 1.2%float. exact Hc.
Qed.

Lemma score_articles_spec (query : string) (articles : list article) :
  query <> "" -> Forall (scorable query) articles ->
  score_articles query articles = Ok (map (score_pair query) articles)
  /\ Forall key_nonneg (map (score_pair query) articles).
Proof.
  intros Hq. induction articles as [|a rest IH]; intros Hall; simpl.
  - split; [reflexivity|constructor].
  - inversion Hall as [|? ? Ha Hrest]; subst.
    destruct (total_score_spec query a Hq Ha) as [-> Hn].
    destruct (IH Hrest) as [-> Hns]. split; [reflexivity|].
    constructor; assumption.
Qed.

Lemma filter_admitted_map (query : string) (articles : list article) :
  map snd (List.filter admitted (map (score_pair query) articles))
  = List.filter (fun a => (0.5 <? weighted_total query a)%float) articles.
Proof.
  induction articles as [|a rest IH]; simpl; [reflexivity|].
  unfold admitted at 1. simpl fst. destruct (0.5 <? weighted_total query a)%float; simpl;
    now rewrite IH.
Qed.

Lemma Permutation_filter {B : Type} (f : B -> bool) (l l' : list B) :
  Permutation l l' -> Permutation (List.filter f l) (List.filter f l').
Proof.
  induction 1 as [|x l l' _ IH|x y l|l l' l'' _ IH1 _ IH2]; simpl.
  - constructor.
  - destruct (f x); [now constructor|assumption].
  - destruct (f x), (f y); try reflexivity. apply perm_swap.
  - now transitivity (List.filter f l').
Qed.


Lemma three_articles_scorable : Forall (scorable "incident") three_articles.
Proof.
  repeat constructor;
    intros key [<-|[<-|[<-|[<-|[]]]]]; eexists; (split; [vm_compute; reflexivity|]);
    vm_compute; reflexivity.
Defined.



End RankFacts.

(** ** Merging the two sources *)

Section MergeFacts.

Lemma filter_filter_ext {B : Type} (f g h : B -> bool) (l : list B) :
  (forall x, h x = g x && f x) ->
  List.filter f (List.filter g l) = List.filter h l.
Proof.
  intros H. induction l as [|x l IH]; simpl; [reflexivity|].
  rewrite H. destruct (g x); simpl; [destruct (f x)|]; now rewrite IH.
Qed.

Lemma merge_loop_spec (l : list article) :
  Forall has_id l ->
  forall seen merged,
    merge_loop l seen merged
    = Ok (merged ++ List.filter (unseen seen) (first_by_id l)).
Proof.
  induction l as [|a rest IH]; intros Hall seen merged; simpl.
  - now rewrite app_nil_r.
  - inversion Hall as [|? ? [v Hv] Hrest]; subst.
    unfold dict_item. rewrite Hv. simpl.
    unfold unseen at 1. rewrite Hv. destruct (bool_decide (v ∈ seen)) eqn:E; simpl.
    + rewrite IH by assumption. f_equal. f_equal. symmetry.
      apply filter_filter_ext. intros x. unfold unseen.
      destruct (x !! "id") as [w|] eqn:Ex; [|now rewrite andb_false_r].
      destruct (bool_decide (Some w = Some v)) eqn:Ew; simpl; [|reflexivity].
      apply bool_decide_eq_true in Ew as [= ->]. now rewrite E.
    + rewrite IH by assumption. rewrite <- app_assoc. simpl. f_equal. f_equal. f_equal.
      symmetry. apply filter_filter_ext. intros x. unfold unseen.
      destruct (x !! "id") as [w|] eqn:Ex; [|now rewrite andb_false_r].
      destruct (decide (w = v)) as [->|Hne].
      * rewrite (bool_decide_eq_true_2 (Some v = Some v)) by reflexivity.
        rewrite (bool_decide_eq_true_2 (v ∈ {[v]} ∪ seen)); [reflexivity|].
        apply elem_of_union. left. now apply elem_of_singleton.
      * rewrite (bool_decide_eq_false_2 (Some w = Some v)) by congruence. simpl.
        apply f_equal. apply bool_decide_ext.
        rewrite elem_of_union, elem_of_singleton. tauto.
Qed.

Lemma filter_all_true {B : Type} (f : B -> bool) (l : list B) :
  (forall x, In x l -> f x = true) -> List.filter f l = l.
Proof.
  induction l as [|x l IH]; intros H; [reflexivity|].
  cbn [List.filter]. rewrite (H x) by now left. f_equal. apply IH. intros y Hy. apply H. now right.
Qed.

Lemma first_by_id_incl (l : list article) (x : article) :
  In x (first_by_id l) -> In x l.
Proof.
  induction l as [|a rest IH]; simpl; [tauto|].
  intros [->|H]; [now left|]. apply filter_In in H as [H _]. right. now apply IH.
Qed.

(** The merge loop of [chatbot_response], started empty. *)
Lemma merge_loop_first (l : list article) :
  Forall has_id l -> merge_loop l ∅ [] = Ok (first_by_id l).
Proof.
  intros Hall. rewrite merge_loop_spec by assumption. simpl. f_equal.
  apply filter_all_true. intros x Hx. apply first_by_id_incl in Hx.
  rewrite List.Forall_forall in Hall. destruct (Hall x Hx) as [v Hv].
  unfold unseen. rewrite Hv. apply negb_true_iff, bool_decide_eq_false_2.
  apply not_elem_of_empty.
Qed.

Lemma first_by_id_NoDup (l : list article) :
  NoDup (map (fun a : article => a !! "id") (first_by_id l)).
Proof.
  induction l as [|a rest IH]; simpl; [constructor|].
  constructor.
  - rewrite list_elem_of_In, in_map_iff. intros (x & Hx & Hin).
    apply filter_In in Hin as [_ Hne]. apply negb_true_iff, bool_decide_eq_false in Hne.
    congruence.
  - induction (first_by_id rest) as [|y ys IHy]; simpl; [constructor|].
    inversion IH as [|? ? Hy Hys]; subst.
    destruct (negb _); simpl; [|now apply IHy].
    constructor; [|now apply IHy].
    rewrite list_elem_of_In, in_map_iff in Hy |- *. intros (x & Hx & Hin).
    apply filter_In in Hin as [Hin _]. apply Hy. eauto.
Qed.

(** The merge of two sources keeps the first source's entries at their
    positions and appends what the second adds. *)
Lemma first_by_id_app (l1 l2 : list article) :
  first_by_id (l1 ++ l2)
  = first_by_id l1 ++ List.filter (fun x => negb (id_in l1 x)) (first_by_id l2).
Proof.
  induction l1 as [|a l1 IH]; cbn [first_by_id app].
  - symmetry. apply filter_all_true. intros x _. unfold id_in.
    apply negb_true_iff, bool_decide_eq_false_2. cbn [map]. apply not_elem_of_nil.
  - f_equal. rewrite IH, List.filter_app. f_equal.
    apply filter_filter_ext. intros x. unfold id_in. cbn [map].
    destruct (decide (x !! "id" = a !! "id")) as [E|E].
    + rewrite (bool_decide_eq_true_2 _ E). cbn [negb]. rewrite andb_false_r.
      apply negb_false_iff, bool_decide_eq_true_2. rewrite E. apply list_elem_of_here.
    + rewrite (bool_decide_eq_false_2 _ E). cbn [negb]. rewrite andb_true_r.
      f_equal. apply bool_decide_ext. rewrite elem_of_cons. tauto.
Qed.

(** Where no id occurs twice there is nothing to drop. *)
Lemma first_by_id_unique (l : list article) :
  NoDup (map (fun a : article => a !! "id") l) -> first_by_id l = l.
Proof.
  induction l as [|a rest IH]; intros H; [reflexivity|].
  cbn [first_by_id]. inversion H as [|? ? Hnot Hrest]; subst.
  rewrite IH by assumption. f_equal. apply filter_all_true.
  intros x Hx. apply negb_true_iff, bool_decide_eq_false_2.
  intros E. apply Hnot. rewrite list_elem_of_In, in_map_iff. exists x. auto.
Qed.

Lemma NoDup_map_filter {B C : Type} (g : B -> C) (f : B -> bool) (l : list B) :
  NoDup (map g l) -> NoDup (map g (List.filter f l)).
Proof.
  induction l as [|x l IH]; simpl; intros H; [constructor|].
  inversion H as [|? ? Hnot Hrest]; subst.
  destruct (f x); simpl; [|now apply IH].
  constructor; [|now apply IH].
  rewrite list_elem_of_In, in_map_iff in Hnot |- *.
  intros (y & Hy & Hin). apply Hnot. exists y. apply filter_In in Hin as [Hin _]. auto.
Qed.

Lemma NoDup_map_perm {B C : Type} (g : B -> C) (l l' : list B) :
  Permutation l l' -> NoDup (map g l) -> NoDup (map g l').
Proof.
  intros Hp. apply (Permutation_map g) in Hp. now rewrite Hp.
Qed.

Lemma NoDup_map_inj {B C D : Type} (g : B -> C) (h : C -> D) (l : list B) :
  (forall x y, h x = h y -> x = y) ->
  NoDup (map g l) -> NoDup (map (fun x => h (g x)) l).
Proof.
  intros Hinj. induction l as [|x l IH]; simpl; intros H; [constructor|].
  inversion H as [|? ? Hnot Hrest]; subst. constructor; [|now apply IH].
  rewrite list_elem_of_In, in_map_iff in Hnot. rewrite list_elem_of_In, in_map_iff.
  intros (y & Hy & Hin). apply Hnot. exists y. split; [now apply Hinj|assumption].
Qed.

End MergeFacts.

(** ** The response *)

Section ResponseFacts.

Lemma search_kb_articles_eq (db : list kb_row) (query : string) :
  exists t, search_kb_articles db query = (CallSearch query :: t, Ok (keyword_results db query)).
Proof.
  unfold search_kb_articles, keyword_results.
  destruct (PyStr.split (PyStr.lower query)); eexists; reflexivity.
Qed.

Lemma dict_of_row_id (r : kb_row) : dict_of_row r !! "id" = Some (PyInt (row_id r)).
Proof. reflexivity. Qed.

Lemma dict_of_row_texts (r : kb_row) :
  dict_get (dict_of_row r) "title" = PyStr (row_title r)
  /\ dict_get (dict_of_row r) "description" = py_text (row_description r)
  /\ dict_get (dict_of_row r) "tags" = py_text (row_tags r)
  /\ dict_get (dict_of_row r) "category" = PyStr (row_category r)
  /\ dict_get (dict_of_row r) "source_type" = py_text (row_source_type r).
Proof. repeat split; reflexivity. Qed.

Lemma insert_row_perm (r : kb_row) (l : list kb_row) :
  Permutation (Sql.insert_row r l) (r :: l).
Proof.
  induction l as [|y l IH]; simpl; [reflexivity|].
  destruct (Sql.row_before y r); [|reflexivity]. rewrite IH. apply perm_swap.
Qed.

Lemma order_by_perm (l : list kb_row) : Permutation (Sql.order_by_category_title l) l.
Proof.
  induction l as [|r l IH]; simpl; [reflexivity|].
  rewrite insert_row_perm. now constructor.
Qed.

Lemma all_articles_typed (db : list kb_row) : no_null db -> Forall typed (all_articles db).
Proof.
  intros Hdb. unfold all_articles. apply List.Forall_forall. intros a Ha.
  apply in_map_iff in Ha as (r & <- & Hr).
  apply (Permutation_in _ (order_by_perm db)) in Hr.
  unfold no_null in Hdb. rewrite List.Forall_forall in Hdb.
  destruct (Hdb r Hr) as [[d Hd] [g Hg]].
  destruct (dict_of_row_texts r) as (H1 & H2 & H3 & H4 & _).
  intros key [<-|[<-|[<-|[<-|[]]]]]; eexists.
  - exact H1.
  - rewrite H2, Hd. reflexivity.
  - rewrite H3, Hg. reflexivity.
  - exact H4.
Qed.

Lemma all_articles_has_id (db : list kb_row) : Forall has_id (all_articles db).
Proof.
  apply List.Forall_forall. intros a Ha. apply in_map_iff in Ha as (r & <- & _).
  unfold has_id. rewrite dict_of_row_id. eauto.
Qed.

Lemma keyword_results_has_id (db : list kb_row) (query : string) :
  Forall has_id (keyword_results db query).
Proof.
  unfold keyword_results. destruct (PyStr.split _); [apply all_articles_has_id|].
  apply List.Forall_forall. intros a Ha. apply in_map_iff in Ha as (r & <- & _).
  unfold has_id. rewrite dict_of_row_id. eauto.
Qed.

Lemma total_score_total (query : string) (a : article) :
  typed a -> exists t, total_score query a = Ok t.
Proof.
  intros Ha. unfold total_score.
  destruct (Ha "title") as [t ->]; [simpl; tauto|].
  destruct (Ha "description") as [d ->]; [simpl; tauto|].
  destruct (Ha "tags") as [g ->]; [simpl; tauto|].
  destruct (Ha "category") as [c ->]; [simpl; tauto|].
  eexists. reflexivity.
Qed.

Lemma score_articles_total (query : string) (articles : list article) :
  Forall typed articles -> exists scored, score_articles query articles = Ok scored.
Proof.
  induction articles as [|a rest IH]; intros Hall; simpl; [eexists; reflexivity|].
  inversion Hall as [|? ? Ha Hrest]; subst.
  destruct (total_score_total query a Ha) as [t ->].
  destruct (IH Hrest) as [scored ->]. eexists. reflexivity.
Qed.

Lemma score_articles_snd (query : string) (articles : list article) :
  forall scored, score_articles query articles = Ok scored -> map snd scored = articles.
Proof.
  induction articles as [|a rest IH]; intros scored; simpl.
  - intros [= <-]. reflexivity.
  - destruct (total_score query a) as [t|]; [|discriminate]. simpl.
    destruct (score_articles query rest) as [scored'|]; [|discriminate]. simpl.
    intros [= <-]. simpl. f_equal. now apply IH.
Qed.

Lemma rank_articles_total (query : string) (articles : list article) :
  Forall typed articles -> exists ranked, rank_articles query articles = Ok ranked.
Proof.
  intros Hall. unfold rank_articles.
  destruct (score_articles_total query articles Hall) as [scored ->]. eexists. reflexivity.
Qed.

Lemma rank_articles_incl (query : string) (articles ranked : list article) :
  rank_articles query articles = Ok ranked -> forall a, In a ranked -> In a articles.
Proof.
  unfold rank_articles. destruct (score_articles query articles) as [scored|] eqn:E;
    [|discriminate].
  simpl. intros [= <-] a Ha. apply in_map_iff in Ha as (x & <- & Hx).
  apply filter_In in Hx as [Hx _]. apply (Permutation_in _ (sort_desc_perm scored)) in Hx.
  rewrite <- (score_articles_snd _ _ _ E). now apply in_map.
Qed.

(** With unique row ids no id occurs twice in what the store returns,
    nor in the ranked list. *)
Lemma rows_NoDup (rows : list kb_row) :
  NoDup (map row_id rows) ->
  NoDup (map (fun a : article => a !! "id") (map dict_of_row rows)).
Proof.
  intros H. rewrite List.map_map.
  apply (NoDup_map_inj row_id (fun z => Some (PyInt z))); [|exact H].
  intros x y [= E]. exact E.
Qed.

Lemma all_articles_NoDup (db : list kb_row) :
  unique_ids db -> NoDup (map (fun a : article => a !! "id") (all_articles db)).
Proof.
  intros H. apply rows_NoDup.
  apply (NoDup_map_perm _ db); [symmetry; apply order_by_perm|exact H].
Qed.

Lemma keyword_results_NoDup (db : list kb_row) (query : string) :
  unique_ids db -> NoDup (map (fun a : article => a !! "id") (keyword_results db query)).
Proof.
  intros H. unfold keyword_results.
  destruct (PyStr.split (PyStr.lower query)) as [|t ts]; [now apply all_articles_NoDup|].
  apply rows_NoDup.
  eapply NoDup_map_perm; [symmetry; apply order_by_perm|].
  now apply NoDup_map_filter.
Qed.

Lemma rank_articles_NoDup (query : string) (articles ranked : list article) :
  rank_articles query articles = Ok ranked ->
  NoDup (map (fun a : article => a !! "id") articles) ->
  NoDup (map (fun a : article => a !! "id") ranked).
Proof.
  unfold rank_articles.
  destruct (score_articles query articles) as [scored|] eqn:E; [|discriminate].
  simpl. intros [= <-] H. rewrite List.map_map. apply NoDup_map_filter.
  apply (NoDup_map_perm _ scored); [symmetry; apply sort_desc_perm|].
  rewrite <- (score_articles_snd _ _ _ E), List.map_map in H. exact H.
Qed.

Lemma chatbot_response_empty_branch (db : list kb_row) (user_input : string) :
  PyStr.strip user_input = "" ->
  chatbot_response db user_input = ([], Ok empty_response).
Proof. intros H. unfold chatbot_response. now rewrite H. Qed.

Lemma chatbot_response_greeting_branch (db : list kb_row) (user_input : string) :
  PyStr.strip user_input <> "" -> is_greeting (PyStr.strip user_input) = true ->
  chatbot_response db user_input = ([], Ok greeting_response).
Proof.
  intros Hq Hg. unfold chatbot_response.
  destruct (String.eqb_spec (PyStr.strip user_input) ""); [contradiction|].
  now rewrite Hg.
Qed.

Lemma chatbot_response_help_branch (db : list kb_row) (user_input : string) :
  PyStr.strip user_input <> "" -> is_greeting (PyStr.strip user_input) = false ->
  is_help (PyStr.strip user_input) = true ->
  chatbot_response db user_input = ([], Ok help_response).
Proof.
  intros Hq Hg Hh. unfold chatbot_response.
  destruct (String.eqb_spec (PyStr.strip user_input) ""); [contradiction|].
  now rewrite Hg, Hh.
Qed.

Lemma chatbot_response_general_branch (db : list kb_row) (user_input : string)
    (ranked : list article) :
  let query := PyStr.strip user_input in
  general query -> rank_articles query (all_articles db) = Ok ranked ->
  exists t,
    chatbot_response db user_input
    = (t, Ok (general_response query
                (firstn 5 (first_by_id (keyword_results db query ++ ranked))))).
Proof.
  intros query (Hq & Hg & Hh) Hrank. unfold chatbot_response. fold query.
  destruct (String.eqb_spec query ""); [contradiction|]. rewrite Hg, Hh.
  destruct (search_kb_articles_eq db query) as [t ->].
  assert (Hid : Forall has_id (keyword_results db query ++ ranked)).
  { apply Forall_app. split; [apply keyword_results_has_id|].
    apply List.Forall_forall. intros a Ha. apply (rank_articles_incl _ _ _ Hrank) in Ha.
    pose proof (all_articles_has_id db) as H. rewrite List.Forall_forall in H. auto. }
  cbv [mbind M_bind mret M_ret lift tell get_all_kb_articles].
  fold (all_articles db). rewrite Hrank. cbv beta iota.
  rewrite (merge_loop_first _ Hid). eexists. reflexivity.
Qed.

(** Without NULL text columns the response never raises. *)
Lemma chatbot_response_total (db : list kb_row) (user_input : string) :
  no_null db -> exists t r, chatbot_response db user_input = (t, Ok r).
Proof.
  intros Hdb. set (query := PyStr.strip user_input).
  destruct (String.eqb_spec query "") as [E|E].
  { rewrite chatbot_response_empty_branch by exact E. eauto. }
  destruct (is_greeting query) eqn:Hg.
  { rewrite chatbot_response_greeting_branch by assumption. eauto. }
  destruct (is_help query) eqn:Hh.
  { rewrite chatbot_response_help_branch by assumption. eauto. }
  destruct (rank_articles_total query (all_articles db)) as [ranked Hr];
    [now apply all_articles_typed|].
  destruct (chatbot_response_general_branch db user_input ranked) as [t ->]; eauto.
  repeat split; assumption.
Qed.

End ResponseFacts.

(** ** Suggestions *)

Section SuggestionFacts.

Lemma In_firstn {B : Type} (n : nat) (l : list B) (x : B) : In x (firstn n l) -> In x l.
Proof.
  intros H. rewrite <- (firstn_skipn n l). apply in_or_app. now left.
Qed.

Lemma generate_suggestions_spec (query : string) (intents : list string)
    (results : list article) :
  length (_generate_suggestions query intents results) <= 4
  /\ Forall (avoids query) (_generate_suggestions query intents results).
Proof.
  unfold _generate_suggestions. split; [apply firstn_le_length|].
  apply List.Forall_forall. intros s Hs. apply In_firstn, filter_In in Hs as [_ Hs].
  now apply negb_true_iff in Hs.
Qed.

Lemma append_nil_r (s : string) : s +:+ "" = s.
Proof.
  induction s as [|c s IH]; [reflexivity|].
  unfold String.append; fold String.append. now rewrite IH.
Qed.

Lemma contains_refl (s : string) : PyStr.contains s s = true.
Proof. apply contains_iff. exists "", "". now rewrite append_nil_r. Qed.

(** A fixed suggestion list none of whose entries contains a trigger
    phrase is clear of every query that contains one. *)
Lemma fixed_suggestions_avoid (triggers l : list string) (query : string) :
  forallb (fun g => forallb (fun s => negb (PyStr.contains g (PyStr.lower s))) l) triggers
  = true ->
  (exists g, In g triggers /\ PyStr.contains g (PyStr.lower query) = true) ->
  Forall (avoids query) l.
Proof.
  intros Htab (g & Hg & Hc). rewrite forallb_forall in Htab. specialize (Htab g Hg).
  rewrite forallb_forall in Htab. apply List.Forall_forall. intros s Hs.
  specialize (Htab s Hs). apply negb_true_iff in Htab.
  unfold avoids. destruct (PyStr.contains (PyStr.lower query) (PyStr.lower s)) eqn:E;
    [|reflexivity].
  rewrite (contains_trans _ _ _ Hc E) in Htab. discriminate.
Qed.

Lemma is_greeting_trigger (query : string) :
  is_greeting query = true ->
  exists g, In g GREETINGS /\ PyStr.contains g (PyStr.lower query) = true.
Proof.
  unfold is_greeting. intros H. apply orb_prop in H as [H|H].
  - apply bool_decide_eq_true in H. exists (PyStr.lower query).
    split; [now apply list_elem_of_In|apply contains_refl].
  - now apply existsb_exists in H.
Qed.

Lemma greeting_suggestions_avoid (query : string) :
  is_greeting query = true -> Forall (avoids query) (suggestions greeting_response).
Proof.
  intros H. apply (fixed_suggestions_avoid GREETINGS); [vm_compute; reflexivity|].
  now apply is_greeting_trigger.
Qed.

Lemma help_suggestions_avoid (query : string) :
  is_help query = true -> Forall (avoids query) (suggestions help_response).
Proof.
  intros H. apply (fixed_suggestions_avoid HELP_PATTERNS); [vm_compute; reflexivity|].
  now apply existsb_exists in H.
Qed.

(** A suggestion clear of the stripped query is clear of the input as
    typed. *)
Lemma avoids_strip (user_input s : string) :
  avoids (PyStr.strip user_input) s -> avoids user_input s.
Proof.
  unfold avoids. intros H.
  destruct (PyStr.contains (PyStr.lower user_input) (PyStr.lower s)) eqn:E; [|reflexivity].
  rewrite <- H. symmetry. exact (contains_trans _ _ _ (strip_contains user_input) E).
Qed.

End SuggestionFacts.

(** ** The claims about [chatbot_response] *)

Section ResponseClaims.

(** The seed articles have a description and tags. *)
Lemma seed_no_null : no_null seed_db.
Proof. repeat constructor; eexists; reflexivity. Defined.

Lemma general_response_message (query : string) (top : list article) :
  message (general_response query top) <> "".
Proof. destruct top; discriminate. Qed.




(** C6.  On the empty string [chatbot_response] returns the fixed
    prompt with no articles, and calls neither the keyword search, nor
    the article list, nor the ranker: its trace of calls is empty. *)
Theorem chatbot_response_empty (db : list kb_row) :
  fst (chatbot_response db "") = []
  /\ exists r,
       snd (chatbot_response db "") = Ok r
       /\ message r
          = "Please type a question or topic — I'll find the most relevant SRE resources for you."
       /\ articles r = [].
Proof.
  rewrite chatbot_response_empty_branch by reflexivity.
  split; [reflexivity|]. exists empty_response. repeat split.
Qed.






Lemma source_label_cases (top : list article) :
  (present "confluence" top /\ present "external" top ->
   source_label top = "Confluence pages and external resources")
  /\ (present "confluence" top /\ ~ present "external" top ->
      source_label top = "Confluence pages")
  /\ (present "external" top /\ ~ present "confluence" top ->
      source_label top = "external resources").
Proof.
  unfold source_label, present.
  set (types := map (fun a => dict_get a "source_type") top).
  assert (Hin : forall v, bool_decide (PyStr v ∈ (list_to_set types : gset py_value)) = true
                          <-> In (PyStr v) types).
  { intros v. rewrite bool_decide_eq_true, elem_of_list_to_set. apply list_elem_of_In. }
  destruct (bool_decide (PyStr "confluence" ∈ _)) eqn:Ec,
           (bool_decide (PyStr "external" ∈ _)) eqn:Ee; simpl;
    repeat split; intros [H1 H2]; try reflexivity; exfalso;
    try (apply Hin in H1; congruence); try (apply Hin in H2; congruence);
    try (apply H2, Hin; assumption).
Qed.



(** C9.  Over a store with a NULL description the general branch
    raises: the reads succeed, the ranker passes [None] to
    [fuzzy_score], and [None.lower()] is an [AttributeError]. *)
Theorem chatbot_response_null_description :
  chatbot_response null_description_db "runbook"
  = ([CallSearch "runbook"; CallGetAll; CallRank "runbook"], Err AttributeError).
Proof. vm_compute. reflexivity. Qed.

(** C10.  The threshold gates the ranked source only: there are a
    store and a query for which an article of total at most [0.5] is
    left out by [rank_articles], is returned by the keyword search, and
    is among the articles of the response. *)
Theorem keyword_match_bypasses_threshold :
  exists (db : list kb_row) (query : string) (a : article) (total : float) (r : response),
    general (PyStr.strip query)
    /\ total_score (PyStr.strip query) a = Ok total
    /\ (total <=? 0.5)%float = true
    /\ rank_articles (PyStr.strip query) (all_articles db) = Ok []
    /\ In a (keyword_results db (PyStr.strip query))
    /\ snd (chatbot_response db query) = Ok r
    /\ In a (articles r).
Proof.
  exists one_article_db, "x 0000000000000000000".
  exists (dict_of_row (hd (seed_row 0 "" "" "" "" "" "" "") one_article_db)).
  eexists. eexists.
  split; [repeat split; [discriminate|vm_compute; reflexivity..]|].
  split; [vm_compute; reflexivity|].
  split; [vm_compute; reflexivity|].
  split; [vm_compute; reflexivity|].
  split; [vm_compute; left; reflexivity|].
  split; [vm_compute; reflexivity|].
  vm_compute. left. reflexivity.
Qed.

End ResponseClaims.

(** * Further properties

    Properties of the code beyond the claims above: of the scores, of
    the branches and the failures of [chatbot_response], of the queries
    and the writes of the article store, and of the assistant over a
    store that these writes have made. *)

(** ** The order of binary64 sums and products

    Adding a non-negative float does not make a non-negative float
    smaller, and multiplying by a constant keeps a lower bound: rounding
    is monotone at a representable number. *)

Module Binary64Order.
Import Binary64 Binary64Facts.
Local Open Scope Z_scope.

Lemma shr_1_div (r : shr_record) : 0 <= shr_m r -> shr_m (shr_1 r) = shr_m r / 2.
Proof.
  intros Hm. destruct (shr_1_spec r Hm) as (_ & Hhalf & _).
  destruct (shr_r (shr_1 r)); unfold b2z in Hhalf.
  - apply (Z.div_unique _ 2 _ 1); lia.
  - apply (Z.div_unique _ 2 _ 0); lia.
Qed.

Lemma iter_shr_div (n : nat) (r : shr_record) :
  0 <= shr_m r -> shr_m (Nat.iter n shr_1 r) = shr_m r / 2 ^ Z.of_nat n.
Proof.
  intros Hm. induction n as [|n IH].
  - simpl. now rewrite Z.div_1_r.
  - rewrite Nat.iter_succ, shr_1_div by now apply iter_shr_nonneg.
    rewrite IH, Nat2Z.inj_succ, Z.pow_succ_r by lia.
    rewrite Z.div_div by (try apply Z.pow_pos_nonneg; lia). f_equal. lia.
Qed.

(** A right shift by [n] places divides the mantissa by [2 ^ n]. *)
Lemma shr_div (r : shr_record) (e n : Z) :
  0 <= shr_m r ->
  shr_m (fst (shr r e n)) = shr_m r / 2 ^ Z.max 0 n /\ snd (shr r e n) = e + Z.max 0 n.
Proof.
  intros Hm. destruct n as [|p|p].
  - change (Z.max 0 0) with 0. simpl. rewrite Z.div_1_r. lia.
  - replace (Z.max 0 (Zpos p)) with (Zpos p) by lia. unfold shr; cbv beta iota.
    cbn [fst snd]. rewrite iter_pos_nat, iter_shr_div, positive_nat_Z by assumption.
    split; reflexivity.
  - replace (Z.max 0 (Zneg p)) with 0 by lia. simpl. rewrite Z.div_1_r. lia.
Qed.

Lemma shr_fexp_div (m e : Z) (l : location) :
  0 <= m ->
  let f := Z.max (Zdigits2 m + e - 53) (-1074) in
  shr_m (fst (shr_fexp prec emax m e l)) = m / 2 ^ Z.max 0 (f - e)
  /\ snd (shr_fexp prec emax m e l) = Z.max e f.
Proof.
  intros Hm f. unfold shr_fexp. rewrite fexp_eq. fold f.
  destruct (shr_div (shr_record_of_loc m l) e (f - e)) as [H1 H2];
    [now rewrite shr_record_of_loc_m|].
  rewrite shr_record_of_loc_m in H1. split; [exact H1|]. lia.
Qed.

Lemma Zdigits2_bounds (m : Z) : 0 < m -> 2 ^ (Zdigits2 m - 1) <= m < 2 ^ Zdigits2 m.
Proof. destruct m as [|p|p]; try lia. intros _. apply digits2_pos_bounds. Qed.

Lemma Zdigits2_pos (m : Z) : 0 < m -> 0 < Zdigits2 m.
Proof. destruct m as [|p|p]; simpl; lia. Qed.

Lemma pow_lt_exp (a b : Z) : 0 <= b -> 2 ^ a < 2 ^ b -> a < b.
Proof.
  intros Hb H. destruct (Z.lt_ge_cases a b) as [|Hge]; [assumption|].
  assert (2 ^ b <= 2 ^ a) by (apply Z.pow_le_mono_r; lia). lia.
Qed.

(** Rounding is monotone at a representable number: a value that is at
    least [mx * 2 ^ ex] rounds to at least that number. *)
Lemma round_aux_ge (m e : Z) (l : location) (mx : positive) (ex : Z) :
  0 < m -> e <= Z.max (Zdigits2 m + e - 53) (-1074) ->
  canonical mx ex ->
  (e <= ex /\ Zpos mx * 2 ^ (ex - e) <= m) \/ ex < e ->
  SFleb (S754_finite false mx ex) (binary_round_aux prec emax false m e l) = true.
Proof.
  intros Hm He Hcan Hval. unfold binary_round_aux.
  destruct (shr_fexp_div m e l ltac:(lia)) as [Hm1 He1].
  set (d := Zdigits2 m) in *. set (f := Z.max (d + e - 53) (-1074)) in *.
  pose proof (Zdigits2_bounds m Hm) as [Hdlo Hdhi]. fold d in Hdlo, Hdhi.
  pose proof (Zdigits2_pos m Hm) as Hdpos. fold d in Hdpos.
  pose proof (digits2_pos_bounds mx) as [Hxlo Hxhi].
  set (dx := Zpos (digits2_pos mx)) in *.
  assert (Hdx : 0 < dx) by (unfold dx; lia).
  unfold canonical in Hcan. fold dx in Hcan.
  destruct (shr_fexp prec emax m e l) as [r1 e1]. simpl fst in *; simpl snd in *.
  replace (Z.max e f) with f in He1 by lia. subst e1.
  replace (Z.max 0 (f - e)) with (f - e) in Hm1 by lia.
  pose proof (round_nearest_even_bounds r1) as [Hlo Hhi].
  set (m2 := round_nearest_even (shr_m r1) (loc_of_shr_record r1)) in *.
  assert (Hpow : 0 < 2 ^ (f - e)) by (apply Z.pow_pos_nonneg; lia).
  (* the shifted mantissa has at most 53 digits *)
  assert (Hm1hi : shr_m r1 < 2 ^ 53).
  { rewrite Hm1. apply Z.div_lt_upper_bound; [assumption|].
    rewrite <- Z.pow_add_r by lia.
    apply Z.lt_le_trans with (2 ^ d); [assumption|]. apply Z.pow_le_mono_r; lia. }
  assert (Hm1lo : 0 <= shr_m r1) by (rewrite Hm1; apply Z.div_pos; lia).
  assert (Hm2hi : m2 <= 2 ^ 53) by (destruct (inexact r1); unfold b2z in Hhi; lia).
  (* the target exponent is at most the rounded one *)
  assert (Hfex : ex <= f).
  { destruct Hval as [[Hle Hv]|Hlt]; [|lia].
    assert (H : 2 ^ (dx - 1 + (ex - e)) < 2 ^ d).
    { rewrite Z.pow_add_r by lia.
      apply Z.le_lt_trans with (Zpos mx * 2 ^ (ex - e)); [|lia].
      apply Z.mul_le_mono_nonneg_r; [apply Z.pow_nonneg; lia|assumption]. }
    apply pow_lt_exp in H; lia. }
  (* the rounded mantissa is large enough *)
  assert (Hm2lo : (ex < f /\ 2 ^ 52 <= m2) \/ (ex = f /\ Zpos mx <= m2)).
  { destruct (Z.eq_dec ex f) as [Heq|Hne].
    - right. split; [assumption|]. destruct Hval as [[Hle Hv]|Hlt]; [|lia].
      apply Z.le_trans with (shr_m r1); [|assumption].
      rewrite Hm1, <- Heq. apply Z.div_le_lower_bound; lia.
    - left. split; [lia|]. assert (Hf : f = d + e - 53) by lia.
      apply Z.le_trans with (shr_m r1); [|assumption].
      rewrite Hm1. apply Z.div_le_lower_bound; [assumption|].
      rewrite <- Z.pow_add_r by lia. replace (f - e + 52) with (d - 1) by lia. assumption. }
  assert (Hm2pos : 0 < m2).
  { destruct Hm2lo as [[_ H]|[_ H]]; [|lia].
    assert (0 < 2 ^ 52) by (apply Z.pow_pos_nonneg; lia). lia. }
  destruct (shr_fexp_div m2 f loc_Exact ltac:(lia)) as [Hm3 He3].
  pose proof (Zdigits2_bounds m2 Hm2pos) as [Hd2lo Hd2hi].
  set (d2 := Zdigits2 m2) in *.
  assert (Hd2 : d2 <= 54).
  { assert (H : 2 ^ (d2 - 1) < 2 ^ 54).
    { apply Z.le_lt_trans with m2; [assumption|].
      apply Z.le_lt_trans with (2 ^ 53); [assumption|]. apply Z.pow_lt_mono_r; lia. }
    apply pow_lt_exp in H; lia. }
  assert (Hfmin : -1074 <= f) by lia.
  set (f2 := Z.max (d2 + f - 53) (-1074)) in *.
  destruct (shr_fexp prec emax m2 f loc_Exact) as [r3 e3]. simpl fst in *; simpl snd in *.
  assert (Hcases : (e3 = f /\ shr_m r3 = m2) \/ (e3 = f + 1 /\ shr_m r3 = 2 ^ 52)).
  { destruct (Z.le_gt_cases f2 f) as [Hle|Hgt].
    - left. replace (Z.max 0 (f2 - f)) with 0 in Hm3 by lia.
      rewrite Z.div_1_r in Hm3. split; [lia|assumption].
    - right. assert (Hd54 : d2 = 54) by lia.
      assert (Hm2eq : m2 = 2 ^ 53).
      { rewrite Hd54 in Hd2lo. change (54 - 1) with 53 in Hd2lo. lia. }
      replace (Z.max 0 (f2 - f)) with 1 in Hm3 by lia.
      split; [lia|]. rewrite Hm3, Hm2eq. reflexivity. }
  assert (H52 : 0 < 2 ^ 52) by (apply Z.pow_pos_nonneg; lia).
  destruct (shr_m r3) as [|p|p] eqn:Ep; [lia| |lia].
  destruct (e3 <=? emax - prec); [|reflexivity].
  apply finite_leb; [lia|]. intros ->.
  destruct Hcases as [[He3' Hp]|[He3' Hp]]; [|lia].
  destruct Hm2lo as [[Hlt _]|[_ Hge]]; lia.
Qed.

Lemma Zdigits2_shift (p : positive) (k : Z) :
  0 <= k -> Zdigits2 (Zpos p * 2 ^ k) = Zpos (digits2_pos p) + k.
Proof.
  intros Hk. destruct (pos_mul_pow2 p k Hk) as [P HP]. rewrite HP. simpl.
  apply digits2_pos_unique. rewrite <- HP.
  pose proof (digits2_pos_bounds p) as [Hlo Hhi].
  assert (0 < 2 ^ k) by (apply Z.pow_pos_nonneg; lia).
  replace (Zpos (digits2_pos p) + k - 1) with (Zpos (digits2_pos p) - 1 + k) by lia.
  rewrite !Z.pow_add_r by lia. split; nia.
Qed.

Lemma shl_align_spec (m : positive) (e e' : Z) :
  Zpos (fst (shl_align m e e')) = Zpos m * 2 ^ Z.max 0 (e - e')
  /\ snd (shl_align m e e') = Z.min e e'.
Proof.
  unfold shl_align. destruct (e' - e) as [|d|d] eqn:E; simpl fst; simpl snd.
  - replace (Z.max 0 (e - e')) with 0 by lia. simpl. lia.
  - replace (Z.max 0 (e - e')) with 0 by lia. simpl. lia.
  - replace (Z.max 0 (e - e')) with (Zpos d) by lia. rewrite pos_iter_xO. lia.
Qed.

(** The sum of two positive numbers rounds to at least any
    representable number that the exact sum reaches. *)
Lemma SFadd_ge (mx my mt : positive) (ex ey et : Z) :
  canonical mt et -> Z.min ex ey <= et ->
  Zpos mt * 2 ^ (et - Z.min ex ey)
  <= Zpos mx * 2 ^ (ex - Z.min ex ey) + Zpos my * 2 ^ (ey - Z.min ex ey) ->
  SFleb (S754_finite false mt et)
    (SFadd prec emax (S754_finite false mx ex) (S754_finite false my ey)) = true.
Proof.
  intros Hcan Hmin Hval. unfold SFadd. cbv zeta. set (ez := Z.min ex ey) in *.
  destruct (shl_align_spec mx ex ez) as [Hx _]. destruct (shl_align_spec my ey ez) as [Hy _].
  replace (Z.max 0 (ex - ez)) with (ex - ez) in Hx by lia.
  replace (Z.max 0 (ey - ez)) with (ey - ez) in Hy by lia.
  unfold cond_Zopp. rewrite <- Hx, <- Hy in Hval.
  change (Zpos (fst (shl_align mx ex ez)) + Zpos (fst (shl_align my ey ez)))
    with (Zpos (fst (shl_align mx ex ez) + fst (shl_align my ey ez))) in *.
  set (P := (fst (shl_align mx ex ez) + fst (shl_align my ey ez))%positive) in *.
  unfold binary_normalize, binary_round. rewrite fexp_eq.
  set (f := Z.max (Zpos (digits2_pos P) + ez - 53) (-1074)).
  destruct (shl_align_spec P ez f) as [Hm He].
  destruct (shl_align P ez f) as [mz ez']. simpl fst in *; simpl snd in *.
  assert (Hpow : 0 < 2 ^ Z.max 0 (ez - f)) by (apply Z.pow_pos_nonneg; lia).
  apply round_aux_ge; [lia| |assumption|].
  - rewrite Hm, Zdigits2_shift by lia. subst ez'. lia.
  - left. split; [lia|]. rewrite Hm. subst ez'.
    destruct (Z.le_gt_cases ez f) as [Hle|Hgt].
    + replace (Z.min ez f) with ez by lia. replace (Z.max 0 (ez - f)) with 0 by lia.
      simpl (2 ^ 0). lia.
    + replace (Z.min ez f) with f by lia. replace (Z.max 0 (ez - f)) with (ez - f) by lia.
      replace (et - f) with ((et - ez) + (ez - f)) by lia.
      rewrite Z.pow_add_r by lia. nia.
Qed.

Lemma valid_canonical (x : float) (m : positive) (e : Z) :
  Prim2SF x = S754_finite false m e -> canonical m e.
Proof.
  intros E. pose proof (Prim2SF_valid x) as H. rewrite E in H. simpl in H.
  unfold bounded, canonical_mantissa in H. apply andb_prop in H as [H _].
  apply Z.eqb_eq in H. rewrite fexp_eq in H. exact H.
Qed.

(** Adding a non-negative number does not decrease a sum. *)
Lemma add_le_l (x y : float) : nonneg x -> nonneg y -> (x <=? x + y)%float = true.
Proof.
  unfold nonneg. intros Hx Hy. rewrite FloatAxioms.leb_spec, FloatAxioms.add_spec.
  unfold SF64add. pose proof (valid_canonical x) as Hcx.
  destruct (Prim2SF x) as [sx|sx| |sx mx ex], (Prim2SF y) as [sy|sy| |sy my ey];
    simpl in Hx, Hy; subst; try contradiction; try reflexivity.
  - simpl. apply finite_leb; [lia|lia].
  - specialize (Hcx _ _ eq_refl).
    apply SFadd_ge; [assumption|lia|].
    assert (0 < Zpos my * 2 ^ (ey - Z.min ex ey)).
    { apply Z.mul_pos_pos; [lia|]. apply Z.pow_pos_nonneg; lia. }
    lia.
Qed.

Lemma add_le_r (x y : float) : nonneg x -> nonneg y -> (y <=? x + y)%float = true.
Proof.
  unfold nonneg. intros Hx Hy. rewrite FloatAxioms.leb_spec, FloatAxioms.add_spec.
  unfold SF64add. pose proof (valid_canonical y) as Hcy.
  destruct (Prim2SF x) as [sx|sx| |sx mx ex], (Prim2SF y) as [sy|sy| |sy my ey];
    simpl in Hx, Hy; subst; try contradiction; try reflexivity.
  - simpl. apply finite_leb; [lia|lia].
  - specialize (Hcy _ _ eq_refl).
    apply SFadd_ge; [assumption|lia|].
    assert (0 < Zpos mx * 2 ^ (ex - Z.min ex ey)).
    { apply Z.mul_pos_pos; [lia|]. apply Z.pow_pos_nonneg; lia. }
    lia.
Qed.

Lemma leb_trans (x y z : float) :
  nonneg x -> nonneg y -> nonneg z ->
  (x <=? y)%float = true -> (y <=? z)%float = true -> (x <=? z)%float = true.
Proof.
  intros Hx Hy Hz. rewrite !FloatAxioms.leb_spec.
  rewrite !SFleb_rank by assumption. intros Hxy Hyz H.
  destruct (lex_lt_total _ (rank (Prim2SF y)) _ H); contradiction.
Qed.

Lemma ltb_leb_trans (x y z : float) :
  nonneg x -> nonneg y -> nonneg z ->
  (x <? y)%float = true -> (y <=? z)%float = true -> (x <? z)%float = true.
Proof.
  intros Hx Hy Hz Hxy Hyz. rewrite FloatAxioms.leb_spec in Hyz.
  apply SFleb_rank in Hyz; [|assumption..].
  apply ltb_rank in Hxy; [|assumption..]. apply ltb_rank; [assumption..|].
  destruct (lex_lt_total _ (rank (Prim2SF z)) _ Hxy); [assumption|contradiction].
Qed.

Lemma finite_leb_inv (p q : positive) (e e' : Z) :
  SFleb (S754_finite false p e) (S754_finite false q e') = true ->
  e < e' \/ (e = e' /\ Zpos p <= Zpos q).
Proof.
  unfold SFleb, SFcompare. destruct (Z.compare_spec e e') as [Heq|Hlt|Hgt];
    [|left; assumption|discriminate].
  fold (Pos.compare p q). destruct (Pos.compare_spec p q); try discriminate; intros _;
    right; split; (assumption || lia).
Qed.

(** The product of two positive numbers, the second normal, rounds to
    at least any representable number that the exact product reaches. *)
Lemma SFmul_ge (mx mc mt : positive) (ex ec et : Z) :
  Zpos (digits2_pos mc) = 53 -> canonical mt et ->
  (ex + ec <= et /\ Zpos mt * 2 ^ (et - (ex + ec)) <= Zpos mx * Zpos mc) \/ et < ex + ec ->
  SFleb (S754_finite false mt et)
    (SFmul prec emax (S754_finite false mx ex) (S754_finite false mc ec)) = true.
Proof.
  intros Hdc Hcan Hval. unfold SFmul. cbn [xorb].
  apply round_aux_ge; [lia| |assumption|exact Hval].
  pose proof (digits2_pos_bounds mc) as [Hclo _]. rewrite Hdc in Hclo.
  change (53 - 1) with 52 in Hclo.
  pose proof (Zdigits2_bounds (Zpos (mx * mc)) ltac:(lia)) as [_ Hhi].
  set (d := Zdigits2 (Zpos (mx * mc))) in *.
  assert (52 < d).
  { apply pow_lt_exp.
    - pose proof (Zdigits2_pos (Zpos (mx * mc)) ltac:(lia)). fold d in H. lia.
    - apply Z.le_lt_trans with (Zpos (mx * mc)); [|assumption].
      rewrite Pos2Z.inj_mul. nia. }
  lia.
Qed.

(** Multiplying by a positive normal constant [c] is monotone at [a]:
    when [t] is a number that the exact product of [a] and [c]
    reaches, every [x] that is at least [a] has [x * c] at least [t]. *)
Lemma mul_ge (x a c t : float) (ma mc mt : positive) (ea ec et : Z) :
  Prim2SF a = S754_finite false ma ea ->
  Prim2SF c = S754_finite false mc ec ->
  Prim2SF t = S754_finite false mt et ->
  Zpos (digits2_pos mc) = 53 ->
  ea + ec <= et -> Zpos mt * 2 ^ (et - (ea + ec)) <= Zpos ma * Zpos mc ->
  nonneg x -> (a <=? x)%float = true -> (t <=? x * c)%float = true.
Proof.
  intros Ea Ec Et Hdc Hexp Hval Hx Hax.
  pose proof (valid_canonical a _ _ Ea) as Hca.
  pose proof (valid_canonical t _ _ Et) as Hct.
  pose proof (valid_canonical x) as Hcx.
  rewrite FloatAxioms.leb_spec in Hax |- *. rewrite FloatAxioms.mul_spec.
  rewrite Ea in Hax. rewrite Ec, Et. unfold SF64mul. unfold nonneg in Hx.
  destruct (Prim2SF x) as [sx|sx| |sx mx ex]; simpl in Hx; subst;
    try contradiction; try discriminate; try reflexivity.
  specialize (Hcx _ _ eq_refl). apply SFmul_ge; [assumption..|].
  apply finite_leb_inv in Hax as [Hlt|[-> Hle]].
  - destruct (Z.le_gt_cases (ex + ec) et) as [Hle|Hgt]; [left|right; lia].
    split; [assumption|].
    unfold canonical in Hca, Hcx.
    pose proof (digits2_pos_bounds ma) as [_ Hahi].
    pose proof (digits2_pos_bounds mx) as [Hxlo _].
    assert (Hda : Zpos (digits2_pos ma) <= 53) by lia.
    assert (Hdx : Zpos (digits2_pos mx) = 53) by lia.
    rewrite Hdx in Hxlo. change (53 - 1) with 52 in Hxlo.
    assert (Hma : Zpos ma < 2 ^ 53).
    { apply Z.lt_le_trans with (2 ^ Zpos (digits2_pos ma)); [assumption|].
      apply Z.pow_le_mono_r; lia. }
    assert (HW : 2 <= 2 ^ (ex - ea)).
    { change 2 with (2 ^ 1) at 1. apply Z.pow_le_mono_r; lia. }
    replace (et - (ea + ec)) with ((et - (ex + ec)) + (ex - ea)) in Hval by lia.
    rewrite Z.pow_add_r in Hval by lia.
    set (T := 2 ^ (et - (ex + ec))) in *. set (W := 2 ^ (ex - ea)) in *.
    assert (HT : 0 < T) by (apply Z.pow_pos_nonneg; lia).
    change (2 ^ 53) with (2 * 2 ^ 52) in Hma.
    apply (Z.mul_le_mono_pos_r _ _ W); [lia|].
    apply Z.le_trans with (Zpos ma * Zpos mc); [lia|].
    assert (Zpos ma <= W * Zpos mx) by nia. nia.
  - left. split; [assumption|].
    apply Z.le_trans with (Zpos ma * Zpos mc); [assumption|].
    apply Z.mul_le_mono_nonneg_r; lia.
Qed.

End Binary64Order.

(** ** Scores of matching texts *)

Section ScoreOrder.
Import Binary64 Binary64Facts Binary64Order.

Import Binary64 Binary64Facts Binary64Order.

Lemma token_hit_hits (query text : string) : token_hit query text -> 1 <= hits query text.
Proof.
  intros (w & Hw & Hc). unfold hits.
  assert (H : In w (List.filter (fun w => PyStr.contains w (PyStr.lower text))
                      (PyStr.split (PyStr.lower query)))) by (apply filter_In; auto).
  destruct (List.filter _ _); [destruct H|simpl; lia].
Qed.

Lemma bonus_ge (n : nat) : 1 <= n -> (0.3 <=? bonus n)%float = true.
Proof.
  destruct n as [|n]; [lia|]. intros _. unfold bonus. rewrite Nat.iter_succ.
  apply add_le_r; [apply bonus_nonneg|vm_compute; reflexivity].
Qed.



Lemma fuzzy_score_hit (query text : string) :
  small (String.length query + String.length text) ->
  token_hit query text -> (0.3 <=? fuzzy_score query text)%float = true.
Proof.
  intros Hs Hhit. rewrite fuzzy_score_eq.
  assert (H03 : nonneg 0.3) by (vm_compute; reflexivity).
  assert (Hb := bonus_nonneg (hits query text)).
  assert (Hr : nonneg (ratio (PyStr.lower query) (PyStr.lower text)))
    by (apply ratio_range; now rewrite !lower_length).
  set (s := (bonus (hits query text) + ratio (PyStr.lower query) (PyStr.lower text))%float).
  assert (Hsn : nonneg s) by now apply add_nonneg.
  assert (Hs03 : (0.3 <=? s)%float = true).
  { apply leb_trans with (bonus (hits query text)); try assumption.
    - apply bonus_ge. now apply token_hit_hits.
    - now apply add_le_l. }
  destruct (pymin_one s Hsn) as (_ & _ & _ & [-> | ->]); [vm_compute; reflexivity|assumption].
Qed.



Lemma field_score_hit (query : string) (a : article) (key : string) :
  scorable query a -> In key text_fields -> field_hit query a key ->
  (0.3 <=? field_score query a key)%float = true.
Proof.
  intros Ha Hkey (s & Hs & Hhit). destruct (Ha key Hkey) as (s' & Hs' & Hsmall).
  unfold dict_get in Hs'. rewrite Hs in Hs'. simpl in Hs'. injection Hs' as <-.
  unfold field_score. rewrite Hs.
  destruct (String.eqb_spec s "") as [->|Hne]; [|now apply fuzzy_score_hit].
  destruct Hhit as (w & Hw & Hc). change (PyStr.lower "") with "" in Hc.
  apply contains_empty_r in Hc. now apply split_nonempty in Hw.
Qed.

Ltac weight_sign c :=
  let v := eval vm_compute in (Prim2SF c) in
  match v with
  | S754_finite false ?m ?e => apply (mul_nonneg _ c m e); [vm_compute; reflexivity|]
  end.

Ltac weight_ge a c t :=
  let va := eval vm_compute in (Prim2SF a) in
  let vc := eval vm_compute in (Prim2SF c) in
  let vt := eval vm_compute in (Prim2SF t) in
  match va with
  | S754_finite false ?ma ?ea =>
      match vc with
      | S754_finite false ?mc ?ec =>
          match vt with
          | S754_finite false ?mt ?et =>
              apply (mul_ge _ a c t ma mc mt ea ec et);
              [vm_compute; reflexivity | vm_compute; reflexivity | vm_compute; reflexivity
              | vm_compute; reflexivity | vm_compute; discriminate | vm_compute; discriminate
              | | ]
          end
      end
  end.

(** A hit in the title or in the tags lifts the total above the
    threshold. *)
Lemma weighted_total_hit (query : string) (a : article) :
  query <> "" -> scorable query a ->
  field_hit query a "title" \/ field_hit query a "tags" ->
  (0.5 <? weighted_total query a)%float = true.
Proof.
  intros Hq Ha Hhit.
  destruct (fuzzy_score_value_field query a "title" Hq Ha) as [_ Ht]; [simpl; tauto|].
  destruct (fuzzy_score_value_field query a "description" Hq Ha) as [_ Hd]; [simpl; tauto|].
  destruct (fuzzy_score_value_field query a "tags" Hq Ha) as [_ Hg]; [simpl; tauto|].
  destruct (fuzzy_score_value_field query a "category" Hq Ha) as [_ Hc]; [simpl; tauto|].
  unfold weighted_total.
  set (t := field_score query a "title") in *.
  set (d := field_score query a "description") in *.
  set (g := field_score query a "tags") in *.
  set (c := field_score query a "category") in *.
  assert (Ht2 : nonneg (t * 2.0)) by (weight_sign 2.0%float; exact Ht).
  assert (Hd2 : nonneg (d * 1.5)) by (weight_sign 1.5%float; exact Hd).
  assert (Hg2 : nonneg (g * 1.8)) by (weight_sign 1.8%float; exact Hg).
  assert (Hc2 : nonneg (c * 1.2)) by (weight_sign 1.2%float; exact Hc).
  assert (H1 : nonneg (t * 2.0 + d * 1.5)) by now apply add_nonneg.
  assert (H2 : nonneg (t * 2.0 + d * 1.5 + g * 1.8)) by now apply add_nonneg.
  assert (H3 : nonneg (t * 2.0 + d * 1.5 + g * 1.8 + c * 1.2)) by now apply add_nonneg.
  assert (H05 : nonneg 0.5) by (vm_compute; reflexivity).
  destruct Hhit as [Hhit|Hhit].
  - apply (field_score_hit query a "title" Ha) in Hhit; [|simpl; tauto]. fold t in Hhit.
    assert (H06 : (0.6 <=? t * 2.0)%float = true) by (weight_ge 0.3%float 2.0%float 0.6%float; assumption).
    apply ltb_leb_trans with 0.6%float;
      [exact H05|vm_compute; reflexivity|exact H3|vm_compute; reflexivity|].
    apply leb_trans with (t * 2.0)%float;
      [vm_compute; reflexivity|exact Ht2|exact H3|exact H06|].
    apply leb_trans with (t * 2.0 + d * 1.5)%float; try assumption; [now apply add_le_l|].
    apply leb_trans with (t * 2.0 + d * 1.5 + g * 1.8)%float; try assumption;
      now apply add_le_l.
  - apply (field_score_hit query a "tags" Ha) in Hhit; [|simpl; tauto]. fold g in Hhit.
    assert (H053 : (0.53 <=? g * 1.8)%float = true) by (weight_ge 0.3%float 1.8%float 0.53%float; assumption).
    apply ltb_leb_trans with 0.53%float;
      [exact H05|vm_compute; reflexivity|exact H3|vm_compute; reflexivity|].
    apply leb_trans with (g * 1.8)%float;
      [vm_compute; reflexivity|exact Hg2|exact H3|exact H053|].
    apply leb_trans with (t * 2.0 + d * 1.5 + g * 1.8)%float; try assumption;
      [now apply add_le_r|now apply add_le_l].
Qed.



End ScoreOrder.

(** ** Branches and failures of the assistant *)

Section ChatFacts.

Lemma lstrip_blank (s : string) : blank s -> PyStr.lstrip s = "".
Proof.
  unfold blank. induction s as [|c s IH]; simpl; [reflexivity|].
  intros H. inversion H as [|? ? Hc Hs]; subst. rewrite Hc. now apply IH.
Qed.

Lemma strip_blank (s : string) : blank s -> PyStr.strip s = "".
Proof. intros H. unfold PyStr.strip. now rewrite lstrip_blank. Qed.

Lemma lstrip_head (s : string) :
  match PyStr.lstrip s with
  | EmptyString => True
  | String c _ => PyStr.isspace c = false
  end.
Proof.
  induction s as [|c s IH]; simpl; [exact I|].
  destruct (PyStr.isspace c) eqn:E; [exact IH|exact E].
Qed.

Lemma rstrip_head (s : string) :
  match s with
  | EmptyString => True
  | String c _ => PyStr.isspace c = false ->
      match PyStr.rstrip s with
      | EmptyString => False
      | String d _ => d = c
      end
  end.
Proof.
  destruct s as [|c s]; [exact I|]. intros Hc. simpl.
  destruct (PyStr.rstrip s); [rewrite Hc|]; reflexivity.
Qed.

(** A stripped text that is not empty starts with a character that is
    no white space. *)
Lemma strip_head (s : string) :
  match PyStr.strip s with
  | EmptyString => True
  | String c _ => PyStr.isspace c = false
  end.
Proof.
  unfold PyStr.strip. pose proof (lstrip_head s) as H.
  pose proof (rstrip_head (PyStr.lstrip s)) as H'.
  destruct (PyStr.lstrip s) as [|c t]; [exact I|].
  specialize (H' H). destruct (PyStr.rstrip (String c t)); [exact I|]. now subst.
Qed.

Lemma isspace_lower_char (c : ascii) : PyStr.isspace (PyStr.lower_char c) = PyStr.isspace c.
Proof.
  unfold PyStr.lower_char. destruct (_ && _)%N eqn:E; [|reflexivity].
  apply andb_prop in E as [E1 E2]. apply N.leb_le in E1, E2.
  unfold PyStr.isspace. rewrite N_ascii_embedding by lia.
  destruct (N.leb_spec 9 (N_of_ascii c + 32)), (N.leb_spec (N_of_ascii c + 32) 13),
    (N.leb_spec 28 (N_of_ascii c + 32)), (N.leb_spec (N_of_ascii c + 32) 32),
    (N.leb_spec 9 (N_of_ascii c)), (N.leb_spec (N_of_ascii c) 13),
    (N.leb_spec 28 (N_of_ascii c)), (N.leb_spec (N_of_ascii c) 32); simpl; lia.
Qed.

Lemma split_head (c : ascii) (s : string) :
  PyStr.isspace c = false -> PyStr.split (String c s) <> [].
Proof.
  intros Hc. simpl. rewrite Hc. destruct s as [|c' s']; [discriminate|].
  destruct (PyStr.isspace c'); [discriminate|]. destruct (PyStr.split _); discriminate.
Qed.

(** The query of the general branch has a token. *)
Lemma strip_tokens (user_input : string) :
  PyStr.strip user_input <> "" ->
  PyStr.split (PyStr.lower (PyStr.strip user_input)) <> [].
Proof.
  intros Hne. pose proof (strip_head user_input) as H.
  destruct (PyStr.strip user_input) as [|c s]; [contradiction|].
  simpl PyStr.lower. apply split_head. now rewrite isspace_lower_char.
Qed.

Lemma greeting_nonempty (g : string) : In g GREETINGS -> g <> "".
Proof. simpl. intros H; repeat destruct H as [<-|H]; try discriminate; destruct H. Qed.

Lemma contains_nonempty (w t : string) : w <> "" -> PyStr.contains w t = true -> t <> "".
Proof. intros Hw Hc ->. now apply contains_empty_r in Hc. Qed.

Lemma generalb_general (query : string) : generalb query = true <-> general query.
Proof.
  unfold generalb, general. destruct (String.eqb_spec query "");
    destruct (is_greeting query), (is_help query); simpl; intuition congruence.
Qed.

(** The general branch when the ranker answers, and when it raises. *)
Lemma chatbot_response_general_ok (db : list kb_row) (user_input : string)
    (ranked : list article) :
  let query := PyStr.strip user_input in
  general query -> rank_articles query (all_articles db) = Ok ranked ->
  chatbot_response db user_input
  = ([CallSearch query; CallGetAll; CallRank query],
     Ok (general_response query
           (firstn 5 (first_by_id (keyword_results db query ++ ranked))))).
Proof.
  intros query Hgen Hrank.
  destruct (chatbot_response_general_branch db user_input ranked Hgen Hrank) as [t Ht].
  rewrite Ht. f_equal.
  apply (f_equal fst) in Ht. simpl in Ht. rewrite <- Ht.
  destruct Hgen as (Hq & Hg & Hh). unfold chatbot_response. fold query.
  destruct (String.eqb_spec query ""); [contradiction|]. rewrite Hg, Hh.
  unfold search_kb_articles.
  destruct (PyStr.split (PyStr.lower query)) as [|w ws] eqn:E;
    [now apply strip_tokens in E|].
  cbv [mbind M_bind mret M_ret lift tell get_all_kb_articles].
  fold (all_articles db). rewrite Hrank. cbv beta iota.
  destruct (merge_loop _ _ _); reflexivity.
Qed.

Lemma chatbot_response_general_err (db : list kb_row) (user_input : string) (e : py_exn) :
  let query := PyStr.strip user_input in
  general query -> rank_articles query (all_articles db) = Err e ->
  chatbot_response db user_input = ([CallSearch query; CallGetAll; CallRank query], Err e).
Proof.
  intros query (Hq & Hg & Hh) Hrank. unfold chatbot_response. fold query.
  destruct (String.eqb_spec query ""); [contradiction|]. rewrite Hg, Hh.
  unfold search_kb_articles.
  destruct (PyStr.split (PyStr.lower query)) as [|w ws] eqn:E;
    [now apply strip_tokens in E|].
  cbv [mbind M_bind mret M_ret lift tell get_all_kb_articles].
  fold (all_articles db). rewrite Hrank. reflexivity.
Qed.



(** X5.  An input that contains one of [GREETINGS] anywhere, as a
    substring of the stripped, lower-cased input and not only as a word,
    gets the greeting, and nothing is searched: so does a question with
    [hi] inside a word. *)
Theorem chatbot_response_greeting (db : list kb_row) (user_input g : string) :
  In g GREETINGS ->
  PyStr.contains g (PyStr.lower (PyStr.strip user_input)) = true ->
  chatbot_response db user_input = ([], Ok greeting_response).
Proof.
  intros Hg Hc. apply chatbot_response_greeting_branch.
  - intros E. rewrite E in Hc. apply contains_empty_r in Hc.
    now apply greeting_nonempty in Hg.
  - unfold is_greeting. apply orb_true_iff. right. apply existsb_exists. eauto.
Qed.

Lemma chatbot_response_greeting_witness :
  In "hi" GREETINGS
  /\ PyStr.contains "hi" (PyStr.lower (PyStr.strip "Which dashboard shows latency?")) = true
  /\ chatbot_response seed_db "Which dashboard shows latency?" = ([], Ok greeting_response).
Proof.
  assert (H1 : In "hi" GREETINGS) by (simpl; tauto).
  assert (H2 : PyStr.contains "hi" (PyStr.lower (PyStr.strip "Which dashboard shows latency?"))
               = true) by reflexivity.
  split; [exact H1|]. split; [exact H2|].
  exact (chatbot_response_greeting seed_db _ _ H1 H2).
Defined.

Lemma total_score_err (query : string) (a : article) (e : py_exn) :
  total_score query a = Err e -> e = AttributeError.
Proof.
  unfold total_score.
  destruct (dict_get a "title") as [|?|?]; simpl; try (intros [= <-]; reflexivity).
  destruct (dict_get a "description") as [|?|?]; simpl; try (intros [= <-]; reflexivity).
  destruct (dict_get a "tags") as [|?|?]; simpl; try (intros [= <-]; reflexivity).
  destruct (dict_get a "category") as [|?|?]; simpl; intros [= <-]; reflexivity.
Qed.

Lemma score_articles_err (query : string) (articles : list article) (e : py_exn) :
  score_articles query articles = Err e -> e = AttributeError.
Proof.
  induction articles as [|a rest IH]; simpl; [discriminate|].
  destruct (total_score query a) as [t|e'] eqn:E; simpl.
  - destruct (score_articles query rest) as [scored|e'']; simpl; [discriminate|].
    intros [= <-]. now apply IH.
  - intros [= <-]. now apply total_score_err in E.
Qed.

Lemma dict_get_text (a : article) (key : string) :
  (exists s, dict_get a key = PyStr s) \/ (exists v, a !! key = Some v /\ not_text v).
Proof.
  unfold dict_get. destruct (a !! key) as [[|s|z]|]; simpl; eauto.
  - right. exists PyNone. split; [reflexivity|exact I].
  - right. exists (PyInt z). split; [reflexivity|exact I].
Qed.

Lemma typed_or_unscorable (a : article) : typed a \/ unscorable a.
Proof.
  destruct (dict_get_text a "title") as [Ht|(v & H1 & H2)];
    [|right; exists "title", v; simpl; tauto].
  destruct (dict_get_text a "description") as [Hd|(v & H1 & H2)];
    [|right; exists "description", v; simpl; tauto].
  destruct (dict_get_text a "tags") as [Hg|(v & H1 & H2)];
    [|right; exists "tags", v; simpl; tauto].
  destruct (dict_get_text a "category") as [Hc|(v & H1 & H2)];
    [|right; exists "category", v; simpl; tauto].
  left. intros key [<-|[<-|[<-|[<-|[]]]]]; assumption.
Qed.

Lemma total_score_unscorable (query : string) (a : article) :
  unscorable a -> total_score query a = Err AttributeError.
Proof.
  intros (key & v & Hkey & Hv & Hnt).
  destruct (total_score query a) as [t|e] eqn:E; [|now apply total_score_err in E; subst].
  exfalso. unfold total_score in E.
  assert (Hget : dict_get a key = v) by (unfold dict_get; now rewrite Hv).
  destruct (fuzzy_score_value query (dict_get a "title")) as [t1|] eqn:E1; [|discriminate].
  destruct (fuzzy_score_value query (dict_get a "description")) as [t2|] eqn:E2;
    [|discriminate].
  destruct (fuzzy_score_value query (dict_get a "tags")) as [t3|] eqn:E3; [|discriminate].
  destruct (fuzzy_score_value query (dict_get a "category")) as [t4|] eqn:E4;
    [|discriminate].
  destruct Hkey as [<-|[<-|[<-|[<-|[]]]]]; rewrite Hget in *;
    destruct v; simpl in *; try contradiction; discriminate.
Qed.

Lemma score_articles_unscorable (query : string) (articles : list article) :
  Exists unscorable articles -> score_articles query articles = Err AttributeError.
Proof.
  intros H. destruct (score_articles query articles) as [scored|e] eqn:E;
    [|now apply score_articles_err in E; subst].
  exfalso. revert scored E. induction H as [a rest Ha|a rest _ IH]; intros scored; simpl.
  - now rewrite total_score_unscorable.
  - destruct (total_score query a); [|discriminate]. simpl.
    destruct (score_articles query rest) as [scored'|]; [|discriminate].
    intros _. now apply (IH scored').
Qed.

Lemma rank_articles_unscorable (query : string) (articles : list article) :
  Exists unscorable articles -> rank_articles query articles = Err AttributeError.
Proof. intros H. unfold rank_articles. now rewrite score_articles_unscorable. Qed.

(** X6.  [rank_articles] raises exactly when some article holds a
    value that is no string ([None], a number) under one of the keys
    [title], [description], [tags], [category]; the exception is then
    [AttributeError], for every query.  It returns exactly when each of
    these fields, in each article, is absent or a string; it never
    raises [KeyError]. *)
Theorem rank_articles_raises (query : string) (articles : list article) :
  (rank_articles query articles = Err AttributeError <-> Exists unscorable articles)
  /\ ((exists ranked, rank_articles query articles = Ok ranked)
      <-> Forall typed articles)
  /\ rank_articles query articles <> Err KeyError.
Proof.
  assert (Hdec : Forall typed articles \/ Exists unscorable articles).
  { induction articles as [|a rest IH]; [left; constructor|].
    destruct (typed_or_unscorable a) as [Ha|Ha]; [|right; now constructor].
    destruct IH as [IH|IH]; [left; now constructor|right; now apply Exists_cons_tl]. }
  assert (Herr : Exists unscorable articles -> rank_articles query articles = Err AttributeError)
    by apply rank_articles_unscorable.
  split; [|split].
  - split; [|exact Herr]. intros E. destruct Hdec as [H|H]; [|exact H].
    destruct (rank_articles_total query articles H) as [r Hr]. congruence.
  - split; [|apply rank_articles_total]. intros [r Hr].
    destruct Hdec as [H|H]; [exact H|]. rewrite (Herr H) in Hr. discriminate.
  - destruct Hdec as [H|H]; [|rewrite (Herr H); discriminate].
    destruct (rank_articles_total query articles H) as [r ->]. discriminate.
Qed.

Lemma not_no_null (db : list kb_row) : ~ no_null db <-> Exists has_null db.
Proof.
  unfold no_null. induction db as [|r rest IH].
  - split; [intros H; exfalso; apply H; constructor|intros H; inversion H].
  - split.
    + intros H. destruct (row_description r) as [d|] eqn:Ed;
        [|left; unfold has_null; auto].
      destruct (row_tags r) as [g|] eqn:Eg; [|left; unfold has_null; auto].
      right. apply IH. intros Hrest. apply H. constructor; [|exact Hrest].
      rewrite Ed, Eg. split; eauto.
    + intros H Hall. inversion Hall as [|? ? [[d Hd] [g Hg]] Hrest]; subst.
      inversion H as [? ? [Hn|Hn]|? ? Hex]; subst; try congruence.
      now apply IH in Hex.
Qed.

Lemma all_articles_unscorable (db : list kb_row) :
  Exists has_null db -> Exists unscorable (all_articles db).
Proof.
  intros H. apply List.Exists_exists in H as (r & Hr & Hnull).
  apply List.Exists_exists. exists (dict_of_row r). split.
  - unfold all_articles. apply in_map.
    apply (Permutation_in _ (Permutation_sym (order_by_perm db))). exact Hr.
  - destruct Hnull as [Hn|Hn].
    + exists "description", PyNone. split; [simpl; tauto|]. split; [|exact I].
      change (dict_of_row r !! "description") with (Some (py_text (row_description r))).
      now rewrite Hn.
    + exists "tags", PyNone. split; [simpl; tauto|]. split; [|exact I].
      change (dict_of_row r !! "tags") with (Some (py_text (row_tags r))).
      now rewrite Hn.
Qed.

Lemma chatbot_response_null (db : list kb_row) (user_input : string) :
  let query := PyStr.strip user_input in
  general query -> Exists has_null db ->
  chatbot_response db user_input
  = ([CallSearch query; CallGetAll; CallRank query], Err AttributeError).
Proof.
  intros query G H. apply chatbot_response_general_err; [exact G|].
  apply rank_articles_unscorable. now apply all_articles_unscorable.
Qed.

Lemma has_null_dec (r : kb_row) : {has_null r} + {~ has_null r}.
Proof.
  unfold has_null. destruct (row_description r), (row_tags r);
    [right|left|left|left]; intuition congruence.
Qed.

Lemma no_null_or_has_null (db : list kb_row) : no_null db \/ Exists has_null db.
Proof.
  destruct (List.Exists_dec has_null db has_null_dec) as [H|H]; [now right|left].
  unfold no_null. apply List.Forall_forall. intros r Hr.
  destruct (row_description r) as [d|] eqn:Ed, (row_tags r) as [g|] eqn:Eg;
    try (split; eauto; fail); exfalso; apply H, List.Exists_exists; exists r;
    (split; [exact Hr|]); unfold has_null; auto.
Qed.



Lemma filter_sublist_impl {B : Type} (f g : B -> bool) (l : list B) :
  (forall x, f x = true -> g x = true) ->
  sublist (List.filter f l) (List.filter g l).
Proof.
  intros H. induction l as [|x l IH]; simpl; [constructor|].
  destruct (f x) eqn:E.
  - rewrite (H x E). now apply sublist_skip.
  - destruct (g x); [now apply sublist_cons|assumption].
Qed.

Lemma sublist_map {B C : Type} (f : B -> C) (l1 l2 : list B) :
  sublist l1 l2 -> sublist (map f l1) (map f l2).
Proof.
  induction 1 as [|x l1 l2 _ IH|x l1 l2 _ IH]; simpl;
    [constructor|now apply sublist_skip|now apply sublist_cons].
Qed.



Lemma extend_suggestions_origin (intents : list string) :
  forall acc s, In s (extend_suggestions intents acc) ->
    In s acc \/ exists intent l, In intent intents
                 /\ table_lookup intent_suggestions intent = Some l /\ In s l.
Proof.
  induction intents as [|intent rest IH]; intros acc s; cbn [extend_suggestions]; [auto|].
  destruct (table_lookup intent_suggestions intent) as [l|] eqn:E; intros H.
  - apply IH in H as [H|(i & l' & Hi & Hl & Hs)].
    + apply in_app_or in H as [H|H]; [auto|]. right. exists intent, l.
      split; [now left|auto].
    + right. exists i, l'. split; [now right|auto].
  - apply IH in H as [H|(i & l' & Hi & Hl & Hs)]; [auto|]. right. exists i, l'.
    split; [now right|auto].
Qed.

Lemma extend_suggestions_app (intents : list string) :
  forall acc, exists l, extend_suggestions intents acc = acc ++ l.
Proof.
  induction intents as [|intent rest IH]; intros acc; cbn [extend_suggestions].
  - exists []. now rewrite app_nil_r.
  - destruct (table_lookup intent_suggestions intent) as [l|]; [|apply IH].
    destruct (IH (acc ++ l)) as [l' ->]. exists (l ++ l'). now rewrite app_assoc.
Qed.

(** Every tag of [INTENT_MAP] has its three suggestions. *)
Lemma intent_has_suggestions (intent : string) :
  In intent (map fst INTENT_MAP) ->
  exists l, table_lookup intent_suggestions intent = Some l /\ length l = 3.
Proof.
  simpl. intros H. repeat destruct H as [<-|H]; try (eexists; split; reflexivity).
  destruct H.
Qed.

Lemma classify_intent_tags (query intent : string) :
  In intent (classify_intent query) -> In intent (map fst INTENT_MAP).
Proof.
  unfold classify_intent. rewrite classify_with_filter. intros H.
  apply in_map_iff in H as (e & <- & He). apply filter_In in He as [He _].
  now apply in_map.
Qed.

(** X10.  Every suggestion comes from the tables: from the three
    phrases of [intent_suggestions] for a tag of the query, or, only
    when the query has no tag, from the general list.  The articles
    found play no part. *)
Theorem generate_suggestions_origin (query : string) (results : list article) (s : string) :
  In s (_generate_suggestions query (classify_intent query) results) ->
  (classify_intent query = [] /\ In s general_suggestions)
  \/ (exists intent l, In intent (classify_intent query)
        /\ table_lookup intent_suggestions intent = Some l /\ length l = 3 /\ In s l).
Proof.
  unfold _generate_suggestions. intros H. apply In_firstn, filter_In in H as [H _].
  destruct (classify_intent query) as [|intent rest] eqn:E.
  - left. split; [reflexivity|]. exact H.
  - right.
    assert (Hne : extend_suggestions (intent :: rest) [] <> []).
    { cbn [extend_suggestions]. destruct (intent_has_suggestions intent) as (l & -> & Hl).
      - apply (classify_intent_tags query). rewrite E. now left.
      - destruct (extend_suggestions_app rest ([] ++ l)) as [l' ->].
        destruct l; [discriminate|discriminate]. }
    destruct (extend_suggestions (intent :: rest) []) as [|x xs] eqn:Ex; [contradiction|].
    rewrite <- Ex in H. apply extend_suggestions_origin in H as [[]|(i & l & Hi & Hl & Hs)].
    exists i, l. repeat split; try assumption.
    destruct (intent_has_suggestions i) as (l' & Hl' & Hlen).
    + apply (classify_intent_tags query). now rewrite E.
    + congruence.
Qed.

Lemma generate_suggestions_origin_witness :
  In "Dynatrace RUM setup"
    (_generate_suggestions "slo dashboard" (classify_intent "slo dashboard") [])
  /\ exists intent l, In intent (classify_intent "slo dashboard")
       /\ table_lookup intent_suggestions intent = Some l /\ In "Dynatrace RUM setup" l.
Proof.
  assert (H : In "Dynatrace RUM setup"
                (_generate_suggestions "slo dashboard" (classify_intent "slo dashboard") []))
    by (vm_compute; tauto).
  split; [exact H|].
  destruct (generate_suggestions_origin _ _ _ H) as [[E _]|(i & l & H1 & H2 & _ & H3)];
    [discriminate E|].
  exists i, l. auto.
Defined.

End ChatFacts.

(** ** The queries of the article store *)

Section SearchFacts.

Lemma ascii_compare_trans (a b c : ascii) :
  Ascii.compare a b = Lt -> Ascii.compare b c = Lt -> Ascii.compare a c = Lt.
Proof. unfold Ascii.compare. rewrite !N.compare_lt_iff. lia. Qed.

Lemma string_compare_trans (s t u : string) :
  String.compare s t = Lt -> String.compare t u = Lt -> String.compare s u = Lt.
Proof.
  revert t u; induction s as [|a s IH]; intros [|b t] [|c u]; simpl; try congruence.
  destruct (Ascii.compare a b) eqn:Eab; try discriminate.
  - apply Ascii.compare_eq_iff in Eab as ->.
    destruct (Ascii.compare b c); try congruence. apply IH.
  - intros _. destruct (Ascii.compare b c) eqn:Ebc; try discriminate.
    + apply Ascii.compare_eq_iff in Ebc as <-. now rewrite Eab.
    + intros _. now rewrite (ascii_compare_trans _ _ _ Eab Ebc).
Qed.

Lemma string_compare_refl (s : string) : String.compare s s = Eq.
Proof.
  induction s as [|a s IH]; simpl; [reflexivity|].
  unfold Ascii.compare. now rewrite N.compare_refl.
Qed.

Lemma string_compare_gt (s t : string) : String.compare s t = Gt -> String.compare t s = Lt.
Proof. intros H. rewrite String.compare_antisym, H. reflexivity. Qed.

(** If [s < u] then [s < t] or [t < u]. *)
Lemma string_compare_cut (s t u : string) :
  String.compare s u = Lt -> String.compare s t = Lt \/ String.compare t u = Lt.
Proof.
  intros H. destruct (String.compare s t) eqn:E; [|now left|].
  - apply String.compare_eq_iff in E as <-. now right.
  - right. apply string_compare_gt in E. exact (string_compare_trans _ _ _ E H).
Qed.

Lemma row_before_cut (a b c : kb_row) :
  Sql.row_before a c = true -> Sql.row_before a b = true \/ Sql.row_before b c = true.
Proof.
  unfold Sql.row_before, String.ltb.
  destruct (String.compare (row_category a) (row_category c)) eqn:Eac; try discriminate.
  - apply String.compare_eq_iff in Eac. rewrite <- Eac.
    destruct (String.compare (row_title a) (row_title c)) eqn:Tac; try discriminate.
    intros _. destruct (String.compare (row_category a) (row_category b)) eqn:Eab.
    + apply String.compare_eq_iff in Eab. rewrite <- Eab, string_compare_refl.
      destruct (string_compare_cut _ (row_title b) _ Tac) as [->| ->]; auto.
    + now left.
    + right. apply string_compare_gt in Eab. now rewrite Eab.
  - intros _. destruct (string_compare_cut _ (row_category b) _ Eac) as [->| ->]; auto.
Qed.

Lemma row_before_asym (a b : kb_row) :
  Sql.row_before a b = true -> Sql.row_before b a = false.
Proof.
  unfold Sql.row_before, String.ltb.
  rewrite (String.compare_antisym (row_category b)), (String.compare_antisym (row_title b)).
  destruct (String.compare (row_category a) (row_category b)); simpl; try congruence.
  destruct (String.compare (row_title a) (row_title b)); simpl; congruence.
Qed.

Lemma row_le_trans (a b c : kb_row) : row_le a b -> row_le b c -> row_le a c.
Proof.
  unfold row_le. intros Hab Hbc. destruct (Sql.row_before c a) eqn:E; [|reflexivity].
  destruct (row_before_cut _ b _ E); congruence.
Qed.

Lemma insert_row_In (r x : kb_row) (l : list kb_row) :
  In x (Sql.insert_row r l) -> x = r \/ In x l.
Proof.
  intros H. apply (Permutation_in _ (insert_row_perm r l)) in H. simpl in H.
  destruct H; auto.
Qed.

Lemma insert_row_sorted (r : kb_row) (l : list kb_row) :
  StronglySorted row_le l -> StronglySorted row_le (Sql.insert_row r l).
Proof.
  induction 1 as [|y l Hs IH Hy]; simpl; [repeat constructor|].
  destruct (Sql.row_before y r) eqn:E.
  - constructor; [assumption|]. apply List.Forall_forall. intros x Hx.
    apply insert_row_In in Hx as [->|Hx].
    + unfold row_le. now apply row_before_asym.
    + rewrite List.Forall_forall in Hy. auto.
  - constructor; [now constructor|]. constructor; [exact E|].
    apply List.Forall_forall. intros x Hx. rewrite List.Forall_forall in Hy.
    apply row_le_trans with y; [exact E|auto].
Qed.

Lemma order_by_sorted (l : list kb_row) :
  StronglySorted row_le (Sql.order_by_category_title l).
Proof.
  induction l as [|r l IH]; simpl; [constructor|]. now apply insert_row_sorted.
Qed.

Lemma insert_row_front (r : kb_row) (l : list kb_row) :
  Forall (row_le r) l -> Sql.insert_row r l = r :: l.
Proof.
  intros H. destruct l as [|y l]; [reflexivity|]. simpl.
  inversion H as [|? ? Hy _]; subst. unfold row_le in Hy. now rewrite Hy.
Qed.

Lemma Forall_filter {B : Type} (P : B -> Prop) (f : B -> bool) (l : list B) :
  Forall P l -> Forall P (List.filter f l).
Proof.
  intros H. apply List.Forall_forall. intros x Hx. apply filter_In in Hx as [Hx _].
  rewrite List.Forall_forall in H. auto.
Qed.

(** Filtering commutes with the insertion into a sorted list. *)
Lemma filter_insert_row (f : kb_row -> bool) (r : kb_row) (l : list kb_row) :
  StronglySorted row_le l ->
  List.filter f (Sql.insert_row r l)
  = if f r then Sql.insert_row r (List.filter f l) else List.filter f l.
Proof.
  induction 1 as [|y l Hs IH Hy].
  - simpl. destruct (f r); reflexivity.
  - cbn [Sql.insert_row]. destruct (Sql.row_before y r) eqn:E.
    + cbn [List.filter]. rewrite IH.
      destruct (f y), (f r); cbn [Sql.insert_row]; try rewrite E; reflexivity.
    + change (List.filter f (r :: y :: l))
        with (if f r then r :: List.filter f (y :: l) else List.filter f (y :: l)).
      destruct (f r); [|reflexivity]. symmetry.
      apply insert_row_front. apply Forall_filter. constructor; [exact E|].
      eapply List.Forall_impl; [|exact Hy]. intros x Hx.
      apply row_le_trans with y; [exact E|exact Hx].
Qed.

Lemma filter_order_by (f : kb_row -> bool) (l : list kb_row) :
  Sql.order_by_category_title (List.filter f l)
  = List.filter f (Sql.order_by_category_title l).
Proof.
  induction l as [|r l IH]; simpl; [reflexivity|].
  rewrite filter_insert_row by apply order_by_sorted.
  destruct (f r); simpl; now rewrite IH.
Qed.

Lemma like_percent (p s : string) :
  Sql.like (String "%" p) s
  = Sql.like p s || match s with
                    | EmptyString => false
                    | String _ s' => Sql.like (String "%" p) s'
                    end.
Proof. destruct s; reflexivity. Qed.

Lemma like_char (c : ascii) (p s : string) :
  c <> "%"%char -> c <> "_"%char ->
  Sql.like (String c p) s
  = match s with
    | EmptyString => false
    | String d s' =>
        Ascii.eqb (PyStr.lower_char c) (PyStr.lower_char d) && Sql.like p s'
    end.
Proof.
  intros H1 H2. simpl. apply Ascii.eqb_neq in H1, H2. rewrite H1, H2. reflexivity.
Qed.

Lemma like_empty (s : string) : Sql.like "" s = match s with "" => true | _ => false end.
Proof. reflexivity. Qed.

(** A pattern of [%] signs matches every text. *)
Lemma like_all_percent (p : string) :
  all_percent p -> p <> "" -> forall s, Sql.like p s = true.
Proof.
  unfold all_percent. induction p as [|c p IH]; [contradiction|].
  cbn [list_ascii_of_string]. intros H _ s. inversion H as [|? ? -> Hp]; subst.
  destruct p as [|c' p'].
  - induction s as [|d s IHs]; rewrite like_percent; [reflexivity|].
    rewrite IHs. apply orb_true_r.
  - rewrite like_percent, IH; [reflexivity|assumption|discriminate].
Qed.

Lemma lower_char_idem (c : ascii) : PyStr.lower_char (PyStr.lower_char c) = PyStr.lower_char c.
Proof.
  unfold PyStr.lower_char. cbv zeta.
  destruct ((65 <=? N_of_ascii c) && (N_of_ascii c <=? 90))%N eqn:E; [|now rewrite E].
  apply andb_prop in E as [E1 E2]. apply N.leb_le in E1, E2.
  rewrite N_ascii_embedding by lia.
  assert (H : (N_of_ascii c + 32 <=? 90)%N = false) by (apply N.leb_gt; lia).
  now rewrite H, andb_false_r.
Qed.

Lemma lower_idem (s : string) : PyStr.lower (PyStr.lower s) = PyStr.lower s.
Proof. induction s as [|c s IH]; simpl; [reflexivity|]. now rewrite lower_char_idem, IH. Qed.

(** A wildcard-free pattern followed by [%] matches the texts it is a
    prefix of, case apart. *)
Lemma like_prefix (term : string) :
  wildcard_free term ->
  forall s, Sql.like (term +:+ "%") s = String.prefix (PyStr.lower term) (PyStr.lower s).
Proof.
  unfold wildcard_free. induction term as [|c term IH]; cbn [list_ascii_of_string]; intros H s.
  - change ("" +:+ "%") with "%". rewrite like_all_percent;
      [now destruct s|repeat constructor|discriminate].
  - inversion H as [|? ? [H1 H2] Ht]; subst.
    change (String c term +:+ "%") with (String c (term +:+ "%")).
    rewrite like_char by assumption. destruct s as [|d s]; [reflexivity|].
    rewrite IH by assumption. simpl.
    destruct (ascii_dec (PyStr.lower_char c) (PyStr.lower_char d)) as [->|Hne].
    + now rewrite Ascii.eqb_refl.
    + apply Ascii.eqb_neq in Hne. now rewrite Hne.
Qed.

(** The pattern [%term%] of the keyword search, for a term without
    wildcards, is the test that the term occurs in the text, case
    apart. *)
Lemma like_contains (term s : string) :
  wildcard_free term ->
  Sql.like ("%" +:+ term +:+ "%") s = PyStr.contains (PyStr.lower term) (PyStr.lower s).
Proof.
  intros H. change ("%" +:+ term +:+ "%") with (String "%" (term +:+ "%")).
  induction s as [|d s IH].
  - rewrite like_percent, like_prefix by assumption. simpl PyStr.lower.
    rewrite contains_nil. now rewrite orb_false_r.
  - rewrite like_percent, like_prefix, IH by assumption. simpl PyStr.lower.
    rewrite contains_cons. now destruct (String.prefix _ _).
Qed.

Lemma split_chars (s w : string) (c : ascii) :
  In w (PyStr.split s) -> In c (list_ascii_of_string w) -> In c (list_ascii_of_string s).
Proof.
  revert w; induction s as [|a s IH]; intros w; simpl; [tauto|].
  destruct (PyStr.isspace a).
  { intros Hw Hc. right. eauto. }
  destruct s as [|a' s'].
  { intros [<-|[]] Hc. exact Hc. }
  destruct (PyStr.isspace a').
  { intros [<-|Hw] Hc; [simpl in Hc; tauto|]. right. eauto. }
  destruct (PyStr.split (String a' s')) as [|w0 ws] eqn:E.
  { intros [<-|[]] Hc. simpl in Hc. tauto. }
  intros [<-|Hw] Hc.
  - simpl in Hc. destruct Hc as [Hc|Hc]; [now left|]. right. apply (IH w0); [now left|exact Hc].
  - right. apply (IH w); [now right|exact Hc].
Qed.

Lemma lower_fixed (s : string) :
  (forall c, In c (list_ascii_of_string s) -> PyStr.lower_char c = c) -> PyStr.lower s = s.
Proof.
  induction s as [|c s IH]; simpl; intros H; [reflexivity|].
  rewrite (H c) by now left. f_equal. apply IH. intros d Hd. apply H. now right.
Qed.

Lemma lower_chars (s : string) (c : ascii) :
  In c (list_ascii_of_string (PyStr.lower s)) -> PyStr.lower_char c = c.
Proof.
  induction s as [|d s IH]; simpl; [tauto|].
  intros [<-|H]; [apply lower_char_idem|now apply IH].
Qed.

(** The tokens of a lower-cased text are in lower case. *)
Lemma token_lower (query w : string) :
  In w (PyStr.split (PyStr.lower query)) -> PyStr.lower w = w.
Proof.
  intros Hw. apply lower_fixed. intros c Hc.
  apply (lower_chars query). exact (split_chars _ _ _ Hw Hc).
Qed.

(** X11.  [get_all_kb_articles] returns every row of the table once,
    as a dict, sorted by category and then title, byte-wise as SQLite's
    BINARY collation compares. *)
Theorem get_all_kb_articles_sorted (db : list kb_row) :
  exists rows,
    get_all_kb_articles db = ([CallGetAll], Ok (map dict_of_row rows))
    /\ Permutation rows db
    /\ StronglySorted row_le rows.
Proof.
  exists (Sql.order_by_category_title db).
  split; [reflexivity|]. split; [apply order_by_perm|apply order_by_sorted].
Qed.

Lemma sublist_filter {B : Type} (f : B -> bool) (l : list B) : sublist (List.filter f l) l.
Proof.
  induction l as [|x l IH]; simpl; [constructor|].
  destruct (f x); [now apply sublist_skip|now apply sublist_cons].
Qed.


Lemma lower_like_contains (col : option string) (term : string) :
  wildcard_free term -> PyStr.lower term = term ->
  Sql.lower_like col term = true
  <-> exists s, col = Some s /\ PyStr.contains term (PyStr.lower s) = true.
Proof.
  intros Hw Hl. unfold Sql.lower_like. destruct col as [s|].
  - rewrite like_contains, lower_idem, Hl by assumption. split; [eauto|].
    now intros (s' & [= <-] & H).
  - split; [discriminate|]. intros (s & E & _). discriminate E.
Qed.

Lemma row_texts_In (r : kb_row) (s : string) :
  In s (row_texts r)
  <-> s = row_title r \/ row_description r = Some s \/ row_tags r = Some s
      \/ s = row_category r.
Proof.
  unfold row_texts. cbn [In]. rewrite !in_app_iff.
  destruct (row_description r) as [d|], (row_tags r) as [g|]; simpl;
    intuition congruence.
Qed.

Lemma term_condition_matches (r : kb_row) (term : string) :
  wildcard_free term -> PyStr.lower term = term ->
  Sql.term_condition r term = true
  <-> exists s, In s (row_texts r) /\ PyStr.contains term (PyStr.lower s) = true.
Proof.
  intros Hw Hl. unfold Sql.term_condition.
  rewrite !orb_true_iff, !lower_like_contains by assumption. split.
  - intros [[[(s & [= <-] & H)|(s & E & H)]|(s & E & H)]|(s & [= <-] & H)];
      eexists; (split; [apply row_texts_In|exact H]); auto.
  - intros (s & Hs & H). apply row_texts_In in Hs as [-> | [E | [E | ->]]]; eauto 8.
Qed.



Lemma all_percent_wild (w : string) : all_percent w -> all_percent ("%" +:+ w +:+ "%").
Proof.
  unfold all_percent. intros H. change ("%" +:+ w +:+ "%") with (String "%" (w +:+ "%")).
  cbn [list_ascii_of_string]. constructor; [reflexivity|].
  induction w as [|c w IH]; [repeat constructor|].
  change (String c w +:+ "%") with (String c (w +:+ "%")).
  cbn [list_ascii_of_string] in *. inversion H; subst. constructor; auto.
Qed.



End SearchFacts.

(** ** The writes of the article store *)

Section StoreFacts.

Lemma max_rowid_ge (rows : list kb_row) :
  (0 <= Store.max_rowid rows)%Z
  /\ Forall (fun r => (row_id r <= Store.max_rowid rows)%Z) rows.
Proof.
  induction rows as [|r rows [IH0 IH]]; simpl; [split; [lia|constructor]|].
  split; [lia|]. constructor; [lia|].
  eapply List.Forall_impl; [|exact IH]. simpl. intros x Hx. lia.
Qed.

Lemma next_rowid_fresh (t : Store.kb_table) :
  Forall (fun r => (row_id r < Store.next_rowid t)%Z) (Store.kb_rows t)
  /\ (Store.kb_seq t < Store.next_rowid t)%Z /\ (0 < Store.next_rowid t)%Z.
Proof.
  unfold Store.next_rowid. destruct (max_rowid_ge (Store.kb_rows t)) as [H0 H].
  split; [|lia]. eapply List.Forall_impl; [|exact H]. simpl. intros x Hx. lia.
Qed.

Lemma insert_article_some (now : string) (title category : string)
    (description : option string) (url : string) (source_type tags : option string)
    (t : Store.kb_table) :
  Store.source_type_ok source_type = true ->
  Store.insert_article now (Some title, Some category, description, Some url,
                            source_type, tags) t
  = Some ({| Store.kb_rows :=
               Store.kb_rows t
               ++ [new_row now (Store.next_rowid t) title category description url
                     source_type tags];
             Store.kb_seq := Store.next_rowid t |}, Store.next_rowid t).
Proof. intros H. unfold Store.insert_article. now rewrite H. Qed.

Lemma insert_article_none (now : string) (p : Store.article_params) (t : Store.kb_table) :
  let '(title, category, description, url, source_type, tags) := p in
  Store.insert_article now p t = None
  <-> title = None \/ category = None \/ url = None
      \/ Store.source_type_ok source_type = false.
Proof.
  destruct p as [[[[[title category] description] url] source_type] tags].
  unfold Store.insert_article.
  destruct title, category, url; try (split; [auto|reflexivity]).
  destruct (Store.source_type_ok source_type); split; try discriminate; auto.
  intros [H|[H|[H|H]]]; discriminate.
Qed.

Lemma insert_article_inv (now : string) (p : Store.article_params)
    (t t' : Store.kb_table) (id : Z) :
  Store.insert_article now p t = Some (t', id) ->
  id = Store.next_rowid t /\ Store.kb_seq t' = id
  /\ exists r, Store.kb_rows t' = Store.kb_rows t ++ [r] /\ row_id r = id
               /\ Store.params_of_row r = p /\ row_created_at r = Some now.
Proof.
  destruct p as [[[[[title category] description] url] source_type] tags].
  unfold Store.insert_article.
  destruct title, category, url; try discriminate.
  destruct (Store.source_type_ok source_type); [|discriminate].
  intros [= <- <-]. split; [reflexivity|]. split; [reflexivity|].
  eexists. split; [reflexivity|]. repeat split.
Qed.

Lemma sorted_snoc (l : list Z) (x : Z) :
  StronglySorted Z.lt l -> Forall (fun y => (y < x)%Z) l -> StronglySorted Z.lt (l ++ [x]).
Proof.
  induction 1 as [|y l Hs IH Hy]; intros Hx; simpl; [repeat constructor|].
  inversion Hx as [|? ? Hyx Hlx]; subst. constructor; [now apply IH|].
  apply Forall_app. split; [exact Hy|]. now constructor.
Qed.

Lemma insert_article_well_keyed (now : string) (p : Store.article_params)
    (t t' : Store.kb_table) (id : Z) :
  well_keyed t -> Store.insert_article now p t = Some (t', id) ->
  well_keyed t' /\ (Store.kb_seq t < Store.kb_seq t')%Z.
Proof.
  intros (Hs & Hb & H0) H. apply insert_article_inv in H as (-> & Hseq & r & Hrows & Hid & _).
  destruct (next_rowid_fresh t) as (Hfresh & Hlt & Hpos).
  split; [|lia]. unfold well_keyed. rewrite Hrows, Hseq. split; [|split; [|lia]].
  - rewrite map_app. simpl. rewrite Hid. apply sorted_snoc; [exact Hs|].
    apply List.Forall_forall. intros y Hy. apply in_map_iff in Hy as (x & <- & Hx).
    rewrite List.Forall_forall in Hfresh. auto.
  - apply Forall_app. split.
    + eapply List.Forall_impl; [|exact Hb]. simpl. intros x Hx. lia.
    + constructor; [|constructor]. lia.
Qed.

Lemma sorted_filter {B : Type} (R : B -> B -> Prop) (f : B -> bool) (l : list B) :
  StronglySorted R l -> StronglySorted R (List.filter f l).
Proof.
  induction 1 as [|x l Hs IH Hx]; simpl; [constructor|].
  destruct (f x); [|exact IH]. constructor; [exact IH|]. now apply Forall_filter.
Qed.

Lemma map_filter_ids (f : Z -> bool) (rows : list kb_row) :
  map row_id (List.filter (fun r => f (row_id r)) rows) = List.filter f (map row_id rows).
Proof.
  induction rows as [|r rows IH]; simpl; [reflexivity|].
  destruct (f (row_id r)); simpl; now rewrite IH.
Qed.

Lemma delete_well_keyed (article_id : Z) (t : Store.kb_table) :
  well_keyed t -> well_keyed (Store.delete_kb_article article_id t).
Proof.
  intros (Hs & Hb & H0). unfold well_keyed, Store.delete_kb_article. simpl.
  split; [|split; [now apply Forall_filter|exact H0]].
  rewrite (map_filter_ids (fun z => negb (z =? article_id)%Z)). now apply sorted_filter.
Qed.

Lemma update_row_id (fields : gmap string (option string)) (r r' : kb_row) :
  Store.update_row fields r = Some r' ->
  row_id r' = row_id r /\ row_created_at r' = row_created_at r.
Proof.
  unfold Store.update_row.
  destruct (Store.set_column fields "title" (Some (row_title r))),
    (Store.set_column fields "category" (Some (row_category r))),
    (Store.set_column fields "url" (Some (row_url r))); try discriminate.
  destruct (Store.source_type_ok _); [|discriminate]. intros [= <-]. split; reflexivity.
Qed.

(** An UPDATE changes no key, and no row but those of the id given. *)
Lemma update_rows_spec (fields : gmap string (option string)) (article_id : Z)
    (rows : list kb_row) :
  forall rows', Store.update_rows fields article_id rows = Some rows' ->
    Forall2 (fun r r' => row_id r' = row_id r
                          /\ row_created_at r' = row_created_at r
                          /\ (row_id r <> article_id -> r' = r)
                          /\ (row_id r = article_id -> Store.update_row fields r = Some r'))
      rows rows'.
Proof.
  induction rows as [|r rows IH]; simpl; intros rows'.
  - intros [= <-]. constructor.
  - destruct (Z.eqb_spec (row_id r) article_id) as [E|E].
    + destruct (Store.update_row fields r) as [r1|] eqn:Er; [|discriminate]. simpl.
      destruct (Store.update_rows fields article_id rows) as [rest|]; [|discriminate].
      simpl. intros [= <-]. constructor; [|now apply IH].
      destruct (update_row_id _ _ _ Er). repeat split; auto. intros. contradiction.
    + simpl. destruct (Store.update_rows fields article_id rows) as [rest|]; [|discriminate].
      simpl. intros [= <-]. constructor; [|now apply IH].
      repeat split; auto. intros. contradiction.
Qed.

Lemma Forall2_map_eq {B C : Type} (f : B -> C) (l l' : list B) :
  Forall2 (fun x y => f y = f x) l l' -> map f l' = map f l.
Proof. induction 1; simpl; congruence. Qed.

Lemma update_rows_ids (fields : gmap string (option string)) (article_id : Z)
    (rows rows' : list kb_row) :
  Store.update_rows fields article_id rows = Some rows' ->
  map row_id rows' = map row_id rows.
Proof.
  intros H. apply update_rows_spec in H. apply Forall2_map_eq.
  eapply Forall2_impl; [exact H|]. simpl. tauto.
Qed.

Lemma Forall_ids (P : Z -> Prop) (rows : list kb_row) :
  Forall (fun r => P (row_id r)) rows <-> Forall P (map row_id rows).
Proof. now rewrite List.Forall_map. Qed.

Lemma update_well_keyed (article_id : Z) (kwargs : gmap string (option string))
    (t : Store.kb_table) :
  well_keyed t -> well_keyed (fst (Store.update_kb_article article_id kwargs t)).
Proof.
  intros Ht. unfold Store.update_kb_article. cbv zeta.
  destruct (decide _); [exact Ht|].
  destruct (Store.update_rows _ _ _) as [rows|] eqn:E; [|exact Ht].
  apply update_rows_ids in E. destruct Ht as (Hs & Hb & H0).
  unfold well_keyed. simpl. rewrite E. split; [exact Hs|]. split; [|exact H0].
  apply (Forall_ids (fun z => (0 < z <= Store.kb_seq t)%Z)). rewrite E.
  now apply (Forall_ids (fun z => (0 < z <= Store.kb_seq t)%Z)).
Qed.

Lemma valid_params_insert (now : string) (p : Store.article_params) (t : Store.kb_table) :
  valid_params p -> exists t', Store.insert_article now p t = Some (t', Store.next_rowid t).
Proof.
  destruct p as [[[[[title category] description] url] source_type] tags].
  intros ([ti ->] & [c ->] & [u ->] & Hs). rewrite insert_article_some by assumption. eauto.
Qed.

Lemma well_keyed_next (t : Store.kb_table) :
  well_keyed t -> Store.next_rowid t = (Store.kb_seq t + 1)%Z.
Proof.
  intros (_ & Hb & H0). unfold Store.next_rowid.
  assert (Store.max_rowid (Store.kb_rows t) <= Store.kb_seq t)%Z; [|lia].
  induction Hb as [|r rows Hr _ IH]; simpl; lia.
Qed.

(** The rows [executemany] appends: in the order of the parameters,
    keyed from the counter on. *)
Lemma executemany_spec (now : string) (params : list Store.article_params) :
  Forall valid_params params ->
  forall t, well_keyed t ->
    exists t' rows,
      Store.executemany now params t = Some t'
      /\ well_keyed t'
      /\ Store.kb_rows t' = Store.kb_rows t ++ rows
      /\ map Store.params_of_row rows = params
      /\ map row_id rows
         = map (fun i => (Store.kb_seq t + Z.of_nat i)%Z) (seq 1 (length params))
      /\ Forall (fun r => row_created_at r = Some now) rows
      /\ Store.kb_seq t' = (Store.kb_seq t + Z.of_nat (length params))%Z.
Proof.
  induction 1 as [|p params Hp _ IH]; intros t Ht.
  - exists t, []. simpl. rewrite app_nil_r. split; [reflexivity|]. split; [exact Ht|].
    split; [reflexivity|]. split; [reflexivity|]. split; [reflexivity|].
    split; [constructor|lia].
  - destruct (valid_params_insert now p t Hp) as [t1 H1]. simpl. rewrite H1.
    destruct (insert_article_well_keyed _ _ _ _ _ Ht H1) as [Ht1 _].
    pose proof (well_keyed_next t Ht) as Hnext.
    apply insert_article_inv in H1 as (_ & Hseq & r & Hrows & Hid & Hpar & Hnow).
    destruct (IH t1 Ht1) as (t' & rows & He & Ht' & Hr' & Hp' & Hids & Hnows & Hs').
    exists t', (r :: rows). split; [exact He|]. split; [exact Ht'|].
    split; [rewrite Hr', Hrows, <- app_assoc; reflexivity|].
    split; [simpl; now rewrite Hpar, Hp'|].
    split; [|split; [now constructor|rewrite Hs', Hseq, Hnext; lia]].
    cbn [map length seq]. rewrite Hid, Hnext, Hids, <- (seq_shift (length params) 1), map_map.
    replace (Store.kb_seq t + Z.of_nat 1)%Z with (Store.kb_seq t + 1)%Z by lia.
    apply f_equal. apply map_ext. intros i. rewrite Hseq, Hnext. lia.
Qed.

Lemma seed_params_valid : Forall valid_params Store.seed_params.
Proof. repeat constructor; eexists; reflexivity. Qed.

Lemma seed_well_keyed (now : string) (t : Store.kb_table) :
  well_keyed t -> well_keyed (fst (Store.seed_kb_articles now t)).
Proof.
  intros Ht. unfold Store.seed_kb_articles. cbv zeta.
  destruct (0 <? length (Store.kb_rows t)); [exact Ht|].
  destruct (executemany_spec now _ seed_params_valid t Ht) as (t' & rows & -> & Ht' & _).
  exact Ht'.
Qed.

Lemma add_well_keyed (now : string)
    (title category description url source_type tags : option string) (t : Store.kb_table) :
  well_keyed t ->
  well_keyed (fst (Store.add_kb_article now title category description url source_type
                     tags t)).
Proof.
  intros Ht. unfold Store.add_kb_article.
  destruct (Store.insert_article _ _ _) as [[t' id]|] eqn:E; [|exact Ht].
  now destruct (insert_article_well_keyed _ _ _ _ _ Ht E).
Qed.

Lemma apply_op_well_keyed (t : Store.kb_table) (op : store_op) :
  well_keyed t -> well_keyed (apply_op t op).
Proof.
  destruct op; simpl; auto using add_well_keyed, delete_well_keyed, update_well_keyed,
    seed_well_keyed.
Qed.

Lemma apply_op_seq (t : Store.kb_table) (op : store_op) :
  well_keyed t -> (Store.kb_seq t <= Store.kb_seq (apply_op t op))%Z.
Proof.
  intros Ht. destruct op; simpl.
  - unfold Store.add_kb_article.
    destruct (Store.insert_article _ _ _) as [[t' id]|] eqn:E; simpl; [|lia].
    destruct (insert_article_well_keyed _ _ _ _ _ Ht E). lia.
  - lia.
  - unfold Store.update_kb_article. cbv zeta. destruct (decide _); simpl; [lia|].
    destruct (Store.update_rows _ _ _); simpl; lia.
  - unfold Store.seed_kb_articles. cbv zeta.
    destruct (0 <? length (Store.kb_rows t)); [cbn [fst]; lia|].
    destruct (executemany_spec now _ seed_params_valid t Ht)
      as (t' & rows & -> & _ & _ & _ & _ & _ & Hs). cbn [fst]. lia.
Qed.

Lemma init_db_well_keyed : well_keyed (Store.init_db None).
Proof. repeat split; simpl; try constructor; lia. Qed.

Lemma run_ops_well_keyed (ops : list store_op) :
  forall t, well_keyed t -> well_keyed (run_ops ops t).
Proof.
  induction ops as [|op ops IH]; intros t Ht; simpl; [exact Ht|].
  apply IH. now apply apply_op_well_keyed.
Qed.

Lemma sorted_NoDup (l : list Z) : StronglySorted Z.lt l -> NoDup l.
Proof.
  induction 1 as [|x l Hs IH Hx]; constructor; [|exact IH].
  rewrite list_elem_of_In. intros Hin. rewrite List.Forall_forall in Hx.
  specialize (Hx x Hin). lia.
Qed.

Lemma well_keyed_unique (t : Store.kb_table) : well_keyed t -> unique_ids (Store.kb_rows t).
Proof. intros (Hs & _). now apply sorted_NoDup. Qed.

Lemma valid_params_dec (p : Store.article_params) : valid_params p \/ ~ valid_params p.
Proof.
  destruct p as [[[[[title category] description] url] source_type] tags].
  unfold valid_params. destruct title, category, url, (Store.source_type_ok source_type);
    try (left; repeat split; eauto; fail);
    right; intros (H1 & H2 & H3 & H4); try discriminate;
    try (destruct H1 as [? H1]; discriminate H1);
    try (destruct H2 as [? H2]; discriminate H2);
    try (destruct H3 as [? H3]; discriminate H3).
Qed.

Lemma add_kb_article_done (now : string) (p : Store.article_params) (t : Store.kb_table) :
  valid_params p ->
  let '(title, category, description, url, source_type, tags) := p in
  exists row,
    Store.add_kb_article now title category description url source_type tags t
    = ({| Store.kb_rows := Store.kb_rows t ++ [row]; Store.kb_seq := row_id row |},
       Store.Done (row_id row))
    /\ row_id row = Store.next_rowid t
    /\ Store.params_of_row row = p /\ row_created_at row = Some now.
Proof.
  destruct p as [[[[[title category] description] url] source_type] tags].
  intros ([ti ->] & [c ->] & [u ->] & Hs). unfold Store.add_kb_article.
  rewrite insert_article_some by assumption.
  exists (new_row now (Store.next_rowid t) ti c description u source_type tags).
  repeat split.
Qed.

Lemma add_kb_article_raised (now : string) (p : Store.article_params) (t : Store.kb_table) :
  ~ valid_params p ->
  let '(title, category, description, url, source_type, tags) := p in
  Store.add_kb_article now title category description url source_type tags t
  = (t, Store.Raised Store.IntegrityError).
Proof.
  destruct p as [[[[[title category] description] url] source_type] tags].
  intros Hn. unfold Store.add_kb_article.
  destruct (Store.insert_article _ _ _) as [[t' id]|] eqn:E; [|reflexivity].
  exfalso. apply Hn. unfold Store.insert_article in E.
  destruct title, category, url; try discriminate.
  destruct (Store.source_type_ok source_type) eqn:Es; [|discriminate].
  repeat split; eauto.
Qed.

Lemma all_articles_In (db : list kb_row) (r : kb_row) :
  In r db -> In (dict_of_row r) (all_articles db).
Proof.
  intros H. unfold all_articles. apply in_map.
  exact (Permutation_in _ (Permutation_sym (order_by_perm db)) H).
Qed.

Lemma all_articles_inv (db : list kb_row) (a : article) :
  In a (all_articles db) -> exists r, In r db /\ a = dict_of_row r.
Proof.
  unfold all_articles. intros H. apply in_map_iff in H as (r & <- & Hr).
  exists r. split; [|reflexivity]. exact (Permutation_in _ (order_by_perm db) Hr).
Qed.

(** X15.  [add_kb_article] with a title, a category and a url that
    are not [None] and a source type that is [None], [confluence] or
    [external] appends one row holding the values given, stamped with
    the current time, returns its id, which is above every id of the
    table and every id given out before, and [get_all_kb_articles] then
    lists the article.  With any other arguments it raises
    [IntegrityError] and leaves the table as it was. *)
Theorem add_kb_article_spec (now : string)
    (title category description url source_type tags : option string) (t : Store.kb_table) :
  let p := (title, category, description, url, source_type, tags) in
  (valid_params p ->
     exists row,
       Store.add_kb_article now title category description url source_type tags t
       = ({| Store.kb_rows := Store.kb_rows t ++ [row]; Store.kb_seq := row_id row |},
          Store.Done (row_id row))
       /\ Store.params_of_row row = p /\ row_created_at row = Some now
       /\ Forall (fun r => (row_id r < row_id row)%Z) (Store.kb_rows t)
       /\ (Store.kb_seq t < row_id row)%Z
       /\ In (dict_of_row row) (all_articles (Store.kb_rows t ++ [row])))
  /\ (~ valid_params p ->
      Store.add_kb_article now title category description url source_type tags t
      = (t, Store.Raised Store.IntegrityError)).
Proof.
  intros p. split.
  - intros Hp. destruct (add_kb_article_done now p t Hp) as (row & Hadd & Hid & Hpar & Hnow).
    exists row. split; [exact Hadd|]. split; [exact Hpar|]. split; [exact Hnow|].
    destruct (next_rowid_fresh t) as (Hf & Hs & _). rewrite Hid.
    split; [exact Hf|]. split; [exact Hs|].
    apply all_articles_In, in_or_app. right. now left.
  - intros Hn. exact (add_kb_article_raised now p t Hn).
Qed.

Lemma filter_id_all (article_id : Z) (rows : list kb_row) :
  Forall (fun r => row_id r <> article_id) rows ->
  List.filter (fun r => negb (row_id r =? article_id)%Z) rows = rows.
Proof.
  intros H. apply filter_all_true. intros r Hr. rewrite List.Forall_forall in H.
  apply negb_true_iff, Z.eqb_neq. auto.
Qed.

(** X16.  [delete_kb_article] removes the rows with the given id and
    no other row, keeps the order of the rest and the AUTOINCREMENT
    counter, does nothing when no row has the id (so deleting twice is
    deleting once), and [get_all_kb_articles] lists no article of that
    id afterwards. *)
Theorem delete_kb_article_spec (article_id : Z) (t : Store.kb_table) :
  let t' := Store.delete_kb_article article_id t in
  (forall r, In r (Store.kb_rows t') <-> In r (Store.kb_rows t) /\ row_id r <> article_id)
  /\ sublist (Store.kb_rows t') (Store.kb_rows t)
  /\ Store.kb_seq t' = Store.kb_seq t
  /\ Store.delete_kb_article article_id t' = t'
  /\ (Forall (fun r => row_id r <> article_id) (Store.kb_rows t) -> t' = t)
  /\ Forall (fun a : article => a !! "id" <> Some (PyInt article_id))
       (all_articles (Store.kb_rows t')).
Proof.
  intros t'. unfold t', Store.delete_kb_article. cbn [Store.kb_rows Store.kb_seq].
  assert (Hin : forall r,
             In r (List.filter (fun r => negb (row_id r =? article_id)%Z) (Store.kb_rows t))
             <-> In r (Store.kb_rows t) /\ row_id r <> article_id).
  { intros r. rewrite filter_In, negb_true_iff, Z.eqb_neq. tauto. }
  split; [exact Hin|]. split; [apply sublist_filter|]. split; [reflexivity|].
  split; [|split].
  - f_equal. apply filter_id_all. apply List.Forall_forall. intros r Hr. now apply Hin in Hr.
  - intros H. rewrite filter_id_all by assumption. now destruct t.
  - apply List.Forall_forall. intros a Ha. apply all_articles_inv in Ha as (r & Hr & ->).
    rewrite dict_of_row_id. apply Hin in Hr as [_ Hne]. congruence.
Qed.

Lemma filter_allowed_lookup (kwargs : gmap string (option string)) (k : string) :
  In k Store.allowed ->
  filter (fun kv : string * option string => kv.1 ∈ Store.allowed) kwargs !! k = kwargs !! k.
Proof.
  intros Hk. destruct (kwargs !! k) as [v|] eqn:E.
  - apply map_lookup_filter_Some. split; [exact E|]. simpl. now apply list_elem_of_In.
  - apply map_lookup_filter_None. left. exact E.
Qed.

Lemma set_column_allowed (kwargs : gmap string (option string)) (k : string)
    (old : option string) :
  In k Store.allowed ->
  Store.set_column (filter (fun kv : string * option string => kv.1 ∈ Store.allowed) kwargs)
    k old
  = Store.set_column kwargs k old.
Proof. intros Hk. unfold Store.set_column. now rewrite filter_allowed_lookup. Qed.

Lemma update_row_columns (fields : gmap string (option string)) (r r' : kb_row) :
  Store.update_row fields r = Some r' ->
  Some (row_title r') = Store.set_column fields "title" (Some (row_title r))
  /\ Some (row_category r') = Store.set_column fields "category" (Some (row_category r))
  /\ row_description r' = Store.set_column fields "description" (row_description r)
  /\ Some (row_url r') = Store.set_column fields "url" (Some (row_url r))
  /\ row_source_type r' = Store.set_column fields "source_type" (row_source_type r)
  /\ row_tags r' = Store.set_column fields "tags" (row_tags r)
  /\ Store.source_type_ok (row_source_type r') = true.
Proof.
  unfold Store.update_row.
  destruct (Store.set_column fields "title" (Some (row_title r))),
    (Store.set_column fields "category" (Some (row_category r))),
    (Store.set_column fields "url" (Some (row_url r))); try discriminate.
  destruct (Store.source_type_ok _) eqn:E; [|discriminate]. intros [= <-]. simpl.
  repeat split; assumption.
Qed.

Lemma Forall2_same {B : Type} (R : B -> B -> Prop) (l : list B) :
  (forall x, R x x) -> Forall2 R l l.
Proof. intros H. induction l; constructor; auto. Qed.

(** X17.  [update_kb_article] never changes the ids, the order, the
    number or the creation times of the rows, nor any row of another
    id, nor the counter.  When it returns, the rows of the given id hold
    in each of the six allowed columns the value given for it, and their
    old value in the columns not given; keys outside the allowed six are
    ignored, and with no allowed key nothing is done.  When it raises
    ([IntegrityError]), the table is as it was. *)
Theorem update_kb_article_spec (article_id : Z) (kwargs : gmap string (option string))
    (t : Store.kb_table) :
  let t' := fst (Store.update_kb_article article_id kwargs t) in
  map row_id (Store.kb_rows t') = map row_id (Store.kb_rows t)
  /\ Store.kb_seq t' = Store.kb_seq t
  /\ Forall2 (fun r r' => row_created_at r' = row_created_at r
                          /\ (row_id r <> article_id -> r' = r))
       (Store.kb_rows t) (Store.kb_rows t')
  /\ (snd (Store.update_kb_article article_id kwargs t) = Store.Done tt ->
      (exists k, In k Store.allowed /\ is_Some (kwargs !! k)) ->
      Forall2 (fun r r' =>
                 row_id r = article_id ->
                 Some (row_title r') = Store.set_column kwargs "title" (Some (row_title r))
                 /\ Some (row_category r')
                    = Store.set_column kwargs "category" (Some (row_category r))
                 /\ row_description r'
                    = Store.set_column kwargs "description" (row_description r)
                 /\ Some (row_url r') = Store.set_column kwargs "url" (Some (row_url r))
                 /\ row_source_type r'
                    = Store.set_column kwargs "source_type" (row_source_type r)
                 /\ row_tags r' = Store.set_column kwargs "tags" (row_tags r))
        (Store.kb_rows t) (Store.kb_rows t'))
  /\ (snd (Store.update_kb_article article_id kwargs t) = Store.Raised Store.IntegrityError ->
      t' = t)
  /\ ((forall k, In k Store.allowed -> kwargs !! k = None) ->
      Store.update_kb_article article_id kwargs t = (t, Store.Done tt)).
Proof.
  intros t'. unfold t', Store.update_kb_article. cbv zeta.
  set (fields := filter (fun kv : string * option string => kv.1 ∈ Store.allowed) kwargs).
  assert (Hempty : (forall k, In k Store.allowed -> kwargs !! k = None) -> fields = ∅).
  { intros H. apply map_empty. intros k. apply map_lookup_filter_None.
    destruct (kwargs !! k) as [v|] eqn:Ek; [right|now left].
    intros x _ Hin. simpl in Hin. apply list_elem_of_In in Hin.
    rewrite (H k Hin) in Ek. discriminate. }
  destruct (decide (fields = ∅)) as [E|E].
  - cbn [fst snd]. split; [reflexivity|]. split; [reflexivity|].
    split; [apply Forall2_same; auto|]. split.
    + intros _ (k & Hk & [v Hv]). exfalso.
      assert (H : fields !! k = Some v) by (unfold fields; now rewrite filter_allowed_lookup).
      rewrite E, lookup_empty in H. discriminate.
    + split; [reflexivity|]. reflexivity.
  - destruct (Store.update_rows fields article_id (Store.kb_rows t)) as [rows|] eqn:Eu;
      cbn [fst snd Store.kb_rows Store.kb_seq].
    + pose proof (update_rows_spec _ _ _ _ Eu) as Hspec.
      split; [now apply update_rows_ids in Eu|]. split; [reflexivity|].
      split; [eapply Forall2_impl; [exact Hspec|]; simpl; tauto|].
      split; [|split; [discriminate|]].
      * intros _ _. eapply Forall2_impl; [exact Hspec|]. simpl.
        intros r r' (_ & _ & _ & Hup) Hid. specialize (Hup Hid).
        apply update_row_columns in Hup as (H1 & H2 & H3 & H4 & H5 & H6 & _).
        unfold fields in H1, H2, H3, H4, H5, H6.
        rewrite set_column_allowed in H1, H2, H3, H4, H5, H6 by (simpl; tauto).
        repeat split; assumption.
      * intros H. now apply Hempty in H.
    + split; [reflexivity|]. split; [reflexivity|].
      split; [apply Forall2_same; auto|]. split; [discriminate|].
      split; [reflexivity|]. intros H. now apply Hempty in H.
Qed.

Lemma executemany_rows (now : string) (params : list Store.article_params) :
  Forall valid_params params ->
  forall t, exists t' rows,
    Store.executemany now params t = Some t'
    /\ Store.kb_rows t' = Store.kb_rows t ++ rows
    /\ map Store.params_of_row rows = params.
Proof.
  induction 1 as [|p params Hp _ IH]; intros t.
  - exists t, []. cbn [Store.executemany]. now rewrite app_nil_r.
  - destruct (valid_params_insert now p t Hp) as [t1 H1]. cbn [Store.executemany].
    rewrite H1. apply insert_article_inv in H1 as (_ & _ & r & Hrows & _ & Hpar & _).
    destruct (IH t1) as (t' & rows & He & Hr' & Hp').
    exists t', (r :: rows). split; [exact He|].
    split; [rewrite Hr', Hrows, <- app_assoc; reflexivity|].
    cbn [map]. now rewrite Hpar, Hp'.
Qed.

Lemma params_no_null (rows : list kb_row) :
  map Store.params_of_row rows = Store.seed_params -> no_null rows.
Proof.
  intros H. unfold no_null.
  assert (Hf : Forall (fun p : Store.article_params =>
                         let '(_, _, description, _, _, tags) := p in
                         is_Some description /\ is_Some tags)
                 (map Store.params_of_row rows)).
  { rewrite H. repeat constructor; eexists; reflexivity. }
  clear H. induction rows as [|r rows IH]; [constructor|].
  cbn [map] in Hf. inversion Hf as [|? ? Hr Hrest]; subst.
  constructor; [exact Hr|now apply IH].
Qed.

Lemma seed_nonempty (now : string) (t : Store.kb_table) :
  Store.kb_rows t <> [] -> Store.seed_kb_articles now t = (t, Store.Done tt).
Proof.
  intros H. unfold Store.seed_kb_articles. cbv zeta.
  destruct (Store.kb_rows t) as [|r rows]; [contradiction|]. reflexivity.
Qed.

Lemma seed_empty (now : string) (t : Store.kb_table) :
  Store.kb_rows t = [] ->
  exists t' rows,
    Store.seed_kb_articles now t = (t', Store.Done tt)
    /\ Store.executemany now Store.seed_params t = Some t'
    /\ Store.kb_rows t' = rows
    /\ map Store.params_of_row rows = Store.seed_params.
Proof.
  intros H. unfold Store.seed_kb_articles. cbv zeta. rewrite H. cbn [length Nat.ltb Nat.leb].
  destruct (executemany_rows now _ seed_params_valid t) as (t' & rows & He & Hr & Hp).
  rewrite H in Hr. cbn [app] in Hr. rewrite He. exists t', rows. auto.
Qed.

Lemma seed_rows_nonempty (now : string) (t : Store.kb_table) :
  Store.kb_rows (fst (Store.seed_kb_articles now t)) <> [].
Proof.
  destruct (Store.kb_rows t) as [|r rows] eqn:E.
  - destruct (seed_empty now t E) as (t' & rows & Hs & _ & Hr & Hp).
    rewrite Hs. cbn [fst]. rewrite Hr. intros ->. discriminate Hp.
  - rewrite seed_nonempty by (rewrite E; discriminate). cbn [fst]. rewrite E. discriminate.
Qed.

(** X18.  On a table whose ids are in order, [seed_kb_articles] does
    nothing when the table has a row; on an empty table it inserts the
    15 sample articles, in their order, with the 15 ids that follow the
    counter, the current time, and no NULL description or tags.  Seeding
    again changes nothing. *)
Theorem seed_kb_articles_spec (now : string) (t : Store.kb_table) :
  well_keyed t ->
  (Store.kb_rows t <> [] -> Store.seed_kb_articles now t = (t, Store.Done tt))
  /\ (Store.kb_rows t = [] ->
      exists rows,
        Store.seed_kb_articles now t
        = ({| Store.kb_rows := rows; Store.kb_seq := (Store.kb_seq t + 15)%Z |},
           Store.Done tt)
        /\ map Store.params_of_row rows = Store.seed_params
        /\ map row_id rows = map (fun i => (Store.kb_seq t + Z.of_nat i)%Z) (seq 1 15)
        /\ Forall (fun r => row_created_at r = Some now) rows
        /\ no_null rows)
  /\ (forall now', Store.seed_kb_articles now' (fst (Store.seed_kb_articles now t))
                   = (fst (Store.seed_kb_articles now t), Store.Done tt)).
Proof.
  intros Ht. split; [apply seed_nonempty|]. split.
  - intros E. unfold Store.seed_kb_articles. cbv zeta. rewrite E.
    cbn [length Nat.ltb Nat.leb].
    destruct (executemany_spec now _ seed_params_valid t Ht)
      as (t' & rows & -> & _ & Hr & Hp & Hids & Hnow & Hs).
    rewrite E in Hr. cbn [app] in Hr. exists rows.
    split; [|split; [exact Hp|split; [exact Hids|split; [exact Hnow|]]]].
    + f_equal. destruct t' as [rows' seq']. cbn in Hr, Hs. subst. f_equal.
    + now apply params_no_null.
  - intros now'. apply seed_nonempty, seed_rows_nonempty.
Qed.

Lemma seed_kb_articles_spec_witness :
  well_keyed (Store.init_db None)
  /\ exists rows,
       Store.seed_kb_articles "2024-02-01 00:00:00" (Store.init_db None)
       = ({| Store.kb_rows := rows; Store.kb_seq := 15 |}, Store.Done tt)
       /\ map Store.params_of_row rows = Store.seed_params
       /\ no_null rows.
Proof.
  split; [exact init_db_well_keyed|].
  destruct (seed_kb_articles_spec "2024-02-01 00:00:00" (Store.init_db None)
              init_db_well_keyed) as (_ & H & _).
  destruct (H eq_refl) as (rows & H1 & H2 & _ & _ & H3).
  exists rows. auto.
Defined.

Lemma run_ops_seq (ops : list store_op) :
  forall t, well_keyed t -> (Store.kb_seq t <= Store.kb_seq (run_ops ops t))%Z.
Proof.
  induction ops as [|op ops IH]; intros t Ht; simpl; [lia|].
  pose proof (apply_op_seq t op Ht). pose proof (apply_op_well_keyed t op Ht) as Ht'.
  specialize (IH _ Ht'). lia.
Qed.

(** X19.  Whatever sequence of adds, deletes, updates and seedings is
    run on a new database, also when some of them raise, the ids of the
    table stay positive, increasing along the rows and at most the
    counter: no two rows share an id. *)
Theorem run_ops_unique_ids (ops : list store_op) :
  let t := run_ops ops (Store.init_db None) in
  well_keyed t /\ unique_ids (Store.kb_rows t).
Proof.
  intros t. assert (H : well_keyed t) by apply run_ops_well_keyed, init_db_well_keyed.
  split; [exact H|]. now apply well_keyed_unique.
Qed.

(** X20.  Ids are never given twice: of two inserts, the later gets
    the larger id, whatever adds, deletes, updates and seedings run
    between them, also when the first row has been deleted. *)
Theorem insert_ids_increase (ops : list store_op) (now1 now2 : string)
    (p1 p2 : Store.article_params) (t t1 t2 : Store.kb_table) (id1 id2 : Z) :
  well_keyed t ->
  Store.insert_article now1 p1 t = Some (t1, id1) ->
  Store.insert_article now2 p2 (run_ops ops t1) = Some (t2, id2) ->
  (id1 < id2)%Z.
Proof.
  intros Ht H1 H2. destruct (insert_article_well_keyed _ _ _ _ _ Ht H1) as [Ht1 _].
  apply insert_article_inv in H1 as (_ & Hs1 & _).
  apply insert_article_inv in H2 as (-> & _).
  pose proof (run_ops_seq ops t1 Ht1). destruct (next_rowid_fresh (run_ops ops t1)) as (_ & H' & _).
  lia.
Qed.

Lemma two_article_table_well_keyed : well_keyed two_article_table.
Proof.
  split; [|split].
  - repeat constructor.
  - repeat constructor; simpl; lia.
  - simpl. lia.
Defined.

Lemma insert_ids_increase_witness :
  well_keyed two_article_table
  /\ Store.insert_article "n1" loki_params two_article_table = Some (loki_table, 7%Z)
  /\ Store.insert_article "n2" loki_params (run_ops [OpDelete 7] loki_table) = Some (loki_table', 8%Z)
  /\ (7 < 8)%Z.
Proof.
  assert (H1 : Store.insert_article "n1" loki_params two_article_table = Some (loki_table, 7%Z))
    by reflexivity.
  assert (H2 : Store.insert_article "n2" loki_params (run_ops [OpDelete 7] loki_table)
               = Some (loki_table', 8%Z)) by reflexivity.
  split; [exact two_article_table_well_keyed|]. split; [exact H1|]. split; [exact H2|].
  exact (insert_ids_increase [OpDelete 7] "n1" "n2" loki_params loki_params
           two_article_table loki_table loki_table' 7 8 two_article_table_well_keyed H1 H2).
Defined.

(** X21.  Deleting the row just inserted gives back the rows of
    before, but not the counter: the next insert gets the id after the
    deleted one. *)
Theorem insert_then_delete (now : string) (p : Store.article_params)
    (t t1 : Store.kb_table) (id : Z) :
  Store.insert_article now p t = Some (t1, id) ->
  Store.kb_rows (Store.delete_kb_article id t1) = Store.kb_rows t
  /\ Store.kb_seq (Store.delete_kb_article id t1) = id
  /\ Store.next_rowid (Store.delete_kb_article id t1) = (id + 1)%Z
  /\ (Store.kb_seq t < id)%Z.
Proof.
  intros H. apply insert_article_inv in H as (-> & Hs & r & Hrows & Hid & _).
  destruct (next_rowid_fresh t) as (Hf & Hlt & _).
  assert (Hr : Store.kb_rows (Store.delete_kb_article (Store.next_rowid t) t1)
               = Store.kb_rows t).
  { unfold Store.delete_kb_article. cbn [Store.kb_rows]. rewrite Hrows, List.filter_app.
    cbn [List.filter]. rewrite Hid, Z.eqb_refl. cbn [negb]. rewrite app_nil_r.
    apply filter_id_all. eapply List.Forall_impl; [|exact Hf]. simpl. intros x Hx. lia. }
  split; [exact Hr|]. split; [exact Hs|]. split; [|exact Hlt].
  unfold Store.next_rowid at 1. rewrite Hr. cbn [Store.delete_kb_article Store.kb_seq].
  rewrite Hs. destruct (max_rowid_ge (Store.kb_rows t)) as [_ Hm].
  unfold Store.next_rowid. lia.
Qed.

Lemma insert_then_delete_witness :
  Store.insert_article "n1" loki_params two_article_table = Some (loki_table, 7%Z)
  /\ Store.kb_rows (Store.delete_kb_article 7 loki_table) = Store.kb_rows two_article_table
  /\ Store.next_rowid (Store.delete_kb_article 7 loki_table) = 8%Z.
Proof.
  assert (H1 : Store.insert_article "n1" loki_params two_article_table = Some (loki_table, 7%Z))
    by reflexivity.
  split; [exact H1|].
  destruct (insert_then_delete "n1" loki_params two_article_table loki_table 7 H1)
    as (H2 & _ & H3 & _).
  split; [exact H2|exact H3].
Defined.



End StoreFacts.

(** ** The assistant over the store *)

Section StoreChatFacts.

Lemma keyword_results_incl (db : list kb_row) (query : string) (a : article) :
  In a (keyword_results db query) -> In a (all_articles db).
Proof.
  unfold keyword_results. destruct (PyStr.split (PyStr.lower query)) as [|w ws]; [auto|].
  intros H. apply in_map_iff in H as (r & <- & Hr).
  apply (Permutation_in _ (order_by_perm _)) in Hr. apply filter_In in Hr as [Hr _].
  now apply all_articles_In.
Qed.

(** The answers hold articles of the store only. *)
Lemma chatbot_response_incl (db : list kb_row) (user_input : string) (r : response) :
  snd (chatbot_response db user_input) = Ok r ->
  forall a, In a (articles r) -> In a (all_articles db).
Proof.
  set (query := PyStr.strip user_input). intros Hr a Ha.
  destruct (generalb query) eqn:G.
  - apply generalb_general in G.
    destruct (rank_articles query (all_articles db)) as [ranked|e] eqn:E.
    + rewrite (chatbot_response_general_ok db user_input ranked G E) in Hr.
      injection Hr as <-. cbn [articles general_response] in Ha.
      apply In_firstn, first_by_id_incl, in_app_or in Ha as [Ha|Ha].
      * now apply keyword_results_incl in Ha.
      * exact (rank_articles_incl _ _ _ E a Ha).
    + rewrite (chatbot_response_general_err db user_input e G E) in Hr. discriminate.
  - unfold generalb in G. destruct (String.eqb_spec query "") as [Hq|Hq].
    { rewrite chatbot_response_empty_branch in Hr by assumption.
      injection Hr as <-. destruct Ha. }
    destruct (is_greeting query) eqn:Hg.
    { rewrite chatbot_response_greeting_branch in Hr by assumption.
      injection Hr as <-. destruct Ha. }
    destruct (is_help query) eqn:Hh; [|discriminate].
    rewrite chatbot_response_help_branch in Hr by assumption.
    injection Hr as <-. destruct Ha.
Qed.

(** X23.  Every article [chatbot_response] returns is the dict of a
    row of the store: the assistant makes up no article and alters none. *)
Theorem chatbot_response_stored (db : list kb_row) (user_input : string) (r : response) :
  snd (chatbot_response db user_input) = Ok r ->
  Forall (fun a => exists row, In row db /\ a = dict_of_row row) (articles r).
Proof.
  intros Hr. apply List.Forall_forall. intros a Ha.
  apply all_articles_inv. exact (chatbot_response_incl _ _ _ Hr a Ha).
Qed.

Lemma chatbot_response_stored_witness :
  snd (chatbot_response one_article_db "x") = Ok (general_response "x" (all_articles one_article_db))
  /\ Forall (fun a => exists row, In row one_article_db /\ a = dict_of_row row)
       (articles (general_response "x" (all_articles one_article_db))).
Proof.
  assert (H : snd (chatbot_response one_article_db "x")
              = Ok (general_response "x" (all_articles one_article_db)))
    by (vm_compute; reflexivity).
  split; [exact H|]. exact (chatbot_response_stored _ _ _ H).
Defined.

(** X24.  After [delete_kb_article] the assistant never returns an
    article of the deleted id. *)
Theorem chatbot_response_deleted (t : Store.kb_table) (article_id : Z)
    (user_input : string) (r : response) :
  snd (chatbot_response (Store.kb_rows (Store.delete_kb_article article_id t)) user_input)
  = Ok r ->
  Forall (fun a : article => a !! "id" <> Some (PyInt article_id)) (articles r).
Proof.
  intros Hr. apply List.Forall_forall. intros a Ha.
  apply (chatbot_response_incl _ _ _ Hr), all_articles_inv in Ha as (row & Hrow & ->).
  rewrite dict_of_row_id. unfold Store.delete_kb_article in Hrow. cbn [Store.kb_rows] in Hrow.
  apply filter_In in Hrow as [_ Hne]. apply negb_true_iff, Z.eqb_neq in Hne. congruence.
Qed.

Lemma chatbot_response_deleted_witness :
  snd (chatbot_response (Store.kb_rows (Store.delete_kb_article 1 two_article_table)) "grafana") = Ok (general_response "grafana" (all_articles (Store.kb_rows (Store.delete_kb_article 1 two_article_table))))
  /\ Forall (fun a : article => a !! "id" <> Some (PyInt 1))
       (articles (general_response "grafana" (all_articles (Store.kb_rows (Store.delete_kb_article 1 two_article_table))))).
Proof.
  assert (H : snd (chatbot_response (Store.kb_rows (Store.delete_kb_article 1 two_article_table)) "grafana")
              = Ok (general_response "grafana" (all_articles (Store.kb_rows (Store.delete_kb_article 1 two_article_table)))))
    by (vm_compute; reflexivity).
  split; [exact H|].
  exact (chatbot_response_deleted two_article_table 1 "grafana" _ H).
Defined.

Lemma no_null_app (l1 l2 : list kb_row) : no_null l1 -> no_null l2 -> no_null (l1 ++ l2).
Proof. unfold no_null. intros H1 H2. apply Forall_app. auto. Qed.

Lemma seed_no_null_step (now : string) (t : Store.kb_table) :
  no_null (Store.kb_rows t) -> no_null (Store.kb_rows (fst (Store.seed_kb_articles now t))).
Proof.
  intros Ht. destruct (Store.kb_rows t) as [|r rows] eqn:E.
  - destruct (seed_empty now t E) as (t' & rows & Hs & _ & Hr & Hp).
    rewrite Hs. cbn [fst]. rewrite Hr. now apply params_no_null.
  - rewrite seed_nonempty by (rewrite E; discriminate). cbn [fst]. now rewrite E.
Qed.

Lemma delete_no_null (article_id : Z) (t : Store.kb_table) :
  no_null (Store.kb_rows t) -> no_null (Store.kb_rows (Store.delete_kb_article article_id t)).
Proof. intros H. unfold no_null, Store.delete_kb_article. cbn. now apply Forall_filter. Qed.

Lemma add_no_null (now : string)
    (title category description url source_type tags : option string) (t : Store.kb_table) :
  is_Some description -> is_Some tags -> no_null (Store.kb_rows t) ->
  no_null (Store.kb_rows
             (fst (Store.add_kb_article now title category description url source_type
                     tags t))).
Proof.
  intros Hd Hg Ht. unfold Store.add_kb_article.
  destruct (Store.insert_article _ _ _) as [[t' id]|] eqn:E; [|exact Ht].
  cbn [fst]. apply insert_article_inv in E as (_ & _ & r & -> & _ & Hp & _).
  apply no_null_app; [exact Ht|]. constructor; [|constructor].
  unfold Store.params_of_row in Hp. injection Hp as _ _ Hd' _ _ Hg'.
  rewrite Hd', Hg'. split; assumption.
Qed.

Lemma set_column_some (kwargs : gmap string (option string)) (k : string)
    (old : option string) :
  In k Store.allowed -> kwargs !! k <> Some None -> is_Some old ->
  is_Some (Store.set_column (filter (fun kv => kv.1 ∈ Store.allowed) kwargs) k old).
Proof.
  intros Hk Hn Ho. rewrite set_column_allowed by exact Hk. unfold Store.set_column.
  destruct (kwargs !! k) as [[v|]|]; [eauto|congruence|exact Ho].
Qed.

Lemma update_no_null (article_id : Z) (kwargs : gmap string (option string))
    (t : Store.kb_table) :
  kwargs !! "description" <> Some None -> kwargs !! "tags" <> Some None ->
  no_null (Store.kb_rows t) ->
  no_null (Store.kb_rows (fst (Store.update_kb_article article_id kwargs t))).
Proof.
  intros Hd Hg Ht. unfold Store.update_kb_article. cbv zeta.
  destruct (decide _); [exact Ht|].
  destruct (Store.update_rows _ _ _) as [rows|] eqn:E; [|exact Ht].
  cbn [fst Store.kb_rows]. apply update_rows_spec in E.
  unfold no_null in *. revert Ht. induction E as [|r r' l l' (_ & _ & Hne & Heq) _ IH].
  - constructor.
  - intros Hall. apply Forall_cons in Hall as [[Hrd Hrg] Hrest]. constructor; [|now apply IH].
    destruct (Z.eq_dec (row_id r) article_id) as [Hid|Hid]; [|rewrite (Hne Hid); now split].
    apply Heq, update_row_columns in Hid as (_ & _ & H3 & _ & _ & H6 & _).
    rewrite H3, H6. split; apply set_column_some; simpl; tauto.
Qed.

Lemma apply_op_safe (t : Store.kb_table) (op : store_op) :
  keeps_text op -> no_null (Store.kb_rows t) -> no_null (Store.kb_rows (apply_op t op)).
Proof.
  destruct op; cbn [apply_op keeps_text].
  - intros [Hd Hg]. now apply add_no_null.
  - intros _. apply delete_no_null.
  - intros [Hd Hg]. now apply update_no_null.
  - intros _. apply seed_no_null_step.
Qed.

Lemma run_ops_safe (ops : list store_op) :
  Forall keeps_text ops ->
  forall t, no_null (Store.kb_rows t) -> no_null (Store.kb_rows (run_ops ops t)).
Proof.
  unfold run_ops. induction 1 as [|op ops Hop _ IH]; intros t Ht; cbn [fold_left];
    [exact Ht|].
  apply IH. now apply apply_op_safe.
Qed.



Lemma table_lookup_In (table : list (string * list string)) (key : string)
    (l : list string) (s : string) :
  table_lookup table key = Some l -> In s l -> In s (concat (map snd table)).
Proof.
  induction table as [|[k v] rest IH]; simpl; [discriminate|].
  destruct (String.eqb k key).
  - intros [= ->] Hs. apply in_or_app. now left.
  - intros Hl Hs. apply in_or_app. right. now apply IH.
Qed.

Lemma generate_suggestions_offered (query : string) (intents : list string)
    (results : list article) (s : string) :
  In s (_generate_suggestions query intents results) ->
  In s (concat (map snd intent_suggestions) ++ general_suggestions).
Proof.
  unfold _generate_suggestions. intros H. apply In_firstn, filter_In in H as [H _].
  apply in_or_app.
  destruct (extend_suggestions intents []) as [|x xs] eqn:E; [now right|].
  left. rewrite <- E in H.
  apply extend_suggestions_origin in H as [[]|(i & l & _ & Hl & Hs)].
  exact (table_lookup_In _ _ _ _ Hl Hs).
Qed.

(** X26.  A suggestion sent back to [chatbot_response] as the next
    input is handled as a search by the general branch, never as an
    empty input or a greeting; the one exception among all suggestions
    returned is the greeting's [Kubernetes troubleshooting help], which
    contains [help] and gets the help text, with no search. *)
Theorem suggestions_resubmitted (db : list kb_row) (user_input : string) (r : response) :
  snd (chatbot_response db user_input) = Ok r ->
  Forall (fun s => s <> "Kubernetes troubleshooting help" -> generalb (PyStr.strip s) = true)
    (suggestions r)
  /\ fst (chatbot_response db "Kubernetes troubleshooting help") = []
  /\ snd (chatbot_response db "Kubernetes troubleshooting help") = Ok help_response.
Proof.
  set (query := PyStr.strip user_input). intros Hr. split.
  - destruct (generalb query) eqn:G.
    + apply generalb_general in G.
      destruct (rank_articles query (all_articles db)) as [ranked|e] eqn:E.
      * rewrite (chatbot_response_general_ok db user_input ranked G E) in Hr.
        injection Hr as <-. cbn [suggestions general_response].
        apply List.Forall_forall. intros s Hs _.
        apply generate_suggestions_offered in Hs.
        assert (Hall : Forall (fun s => generalb (PyStr.strip s) = true)
                         (concat (map snd intent_suggestions) ++ general_suggestions))
          by (repeat constructor).
        rewrite List.Forall_forall in Hall. auto.
      * rewrite (chatbot_response_general_err db user_input e G E) in Hr. discriminate.
    + unfold generalb in G. destruct (String.eqb_spec query "") as [Hq|Hq].
      { rewrite chatbot_response_empty_branch in Hr by assumption.
        injection Hr as <-. repeat constructor. }
      destruct (is_greeting query) eqn:Hg.
      { rewrite chatbot_response_greeting_branch in Hr by assumption.
        injection Hr as <-.
        repeat constructor; intros H; try (vm_compute; reflexivity); now contradiction H. }
      destruct (is_help query) eqn:Hh; [|discriminate].
      rewrite chatbot_response_help_branch in Hr by assumption.
      injection Hr as <-. repeat constructor.
  - rewrite chatbot_response_help_branch; [split; reflexivity|discriminate|reflexivity..].
Qed.

Lemma suggestions_resubmitted_witness :
  snd (chatbot_response seed_db "hello") = Ok greeting_response
  /\ Forall (fun s => s <> "Kubernetes troubleshooting help"
                        -> generalb (PyStr.strip s) = true)
       (suggestions greeting_response)
  /\ snd (chatbot_response seed_db "Kubernetes troubleshooting help") = Ok help_response.
Proof.
  assert (H : snd (chatbot_response seed_db "hello") = Ok greeting_response)
    by reflexivity.
  split; [exact H|].
  destruct (suggestions_resubmitted seed_db "hello" greeting_response H) as (H1 & _ & H2).
  split; [exact H1|exact H2].
Defined.

End StoreChatFacts.
